(** * Atom: a shallow embedding of the interpreter in [src/atom.cpp]

    The development follows the source file top to bottom: the tagged cell
    and the machine state (heap, environments, continuation), the printer,
    the collector, the lexer, the parser, the chained environments, the
    built-in procedures and [eval], the top-level driver.  The theorems
    about them come last.

    C pointers are addresses into finite maps ([None] is the null pointer),
    [signal_error]'s [longjmp] is the outcome [Error], undefined behaviour
    (null dereference, failed [assert], out-of-bounds access) is the outcome
    [Crash], and every loop that follows pointers takes fuel. *)

From Stdlib Require Import ZArith String Ascii List Lia DecimalString.
From Stdlib Require Import Floats.SpecFloat.
From stdpp Require Import base option list gmap strings.

Open Scope Z_scope.

(** ** Characters and C strings *)

Definition NUL : ascii := Ascii.zero.
Definition LF : ascii := "010"%char.
Definition TAB : ascii := "009"%char.
Definition DQUOTE : ascii := "034"%char.
Definition nl : string := String LF EmptyString.

Definition char_code (c : ascii) : Z := Z.of_N (N_of_ascii c).

Definition char_eqb (a b : ascii) : bool := Ascii.eqb a b.

(** [strlen]: the bytes of a buffer before its first NUL. *)
Fixpoint c_str (buf : list ascii) : list ascii :=
  match buf with
  | [] => []
  | c :: rest => if char_eqb c NUL then [] else c :: c_str rest
  end.

Definition strlen (buf : list ascii) : Z := Z.of_nat (length (c_str buf)).

(** The buffer that [buffer_copy_and_reset] and the string built-ins
    [malloc]: the bytes and the terminating NUL. *)
Definition buffer_of (s : string) : list ascii :=
  list_ascii_of_string s ++ [NUL].

Definition string_of_Z (z : Z) : string :=
  if z <? 0 then String "-" (NilZero.string_of_uint (N.to_uint (Z.to_N (- z))))
  else NilZero.string_of_uint (N.to_uint (Z.to_N z)).

(** ** Numbers: IEEE 754 binary64, as the [double] of the source *)

Module Double.

Definition prec : Z := 53.
Definition emax : Z := 1024.

Definition double := spec_float.

Definition of_Z (z : Z) : double := binary_normalize prec emax z 0 false.
Definition add : double -> double -> double := SFadd prec emax.
Definition mul : double -> double -> double := SFmul prec emax.
Definition eqb : double -> double -> bool := SFeqb.

(** The conversion [(int)d]: truncation toward zero; undefined (here
    [None]) for NaN, the infinities and values outside [int]. *)
Definition to_int (d : double) : option Z :=
  match d with
  | S754_zero _ => Some 0
  | S754_finite s m e =>
      let a := if 0 <=? e then Z.pos m * 2 ^ e else Z.pos m / 2 ^ (- e) in
      let v := if s then - a else a in
      if (- 2 ^ 31 <=? v) && (v <? 2 ^ 31) then Some v else None
  | _ => None
  end.

(** [is_integer]: [d == (int)d]. *)
Definition is_integer (d : double) : option bool :=
  v ← to_int d; Some (eqb d (of_Z v)).

(** *** [printf("%lg")]

    Six significant digits, rounded to nearest even; scientific notation
    when the decimal exponent is below -4 or at least 6; trailing zeros
    removed. *)

Fixpoint pow10_above (fuel : nat) (num den x : Z) : Z :=
  (* the least [k >= x] with [num < den * 10^(k+1)] *)
  match fuel with
  | O => x
  | S n => if num <? den * 10 ^ (x + 1) then x else pow10_above n num den (x + 1)
  end.

Fixpoint pow10_below (fuel : nat) (num den x : Z) : Z :=
  (* the greatest [k <= x] with [den <= num * 10^(-k)], for [x <= 0] *)
  match fuel with
  | O => x
  | S n => if den <=? num * 10 ^ (- x) then x else pow10_below n num den (x - 1)
  end.

(** Decimal exponent of the positive rational [num/den]. *)
Definition exponent10 (num den : Z) : Z :=
  if den <=? num then pow10_above 400 num den 0
  else pow10_below 400 num den (-1).

(** [num/den] rounded to an integer, ties to even. *)
Definition round_half_even (num den : Z) : Z :=
  let q := num / den in
  let r := num mod den in
  match 2 * r ?= den with
  | Lt => q
  | Gt => q + 1
  | Eq => if Z.even q then q else q + 1
  end.

Fixpoint strip_zeros (fuel : nat) (r : Z) (digits : Z) : Z * Z :=
  (* drops trailing decimal zeros of [r], which has [digits] digits *)
  match fuel with
  | O => (r, digits)
  | S n => if (1 <? digits) && (r mod 10 =? 0)
           then strip_zeros n (r / 10) (digits - 1) else (r, digits)
  end.

Definition pad2 (z : Z) : string :=
  if z <? 10 then String "0" (string_of_Z z) else string_of_Z z.

Fixpoint zeros (n : nat) : string :=
  match n with O => EmptyString | S k => String "0" (zeros k) end.

(** The fraction digits of [r / 10^scale] below the decimal point. *)
Definition fraction (r scale : Z) : string :=
  let f := r mod 10 ^ scale in
  let '(f', d) := strip_zeros 20 f scale in
  if f =? 0 then EmptyString
  else String "." (zeros (Z.to_nat (d - Z.of_nat (String.length (string_of_Z f')))%Z)
                     ++ string_of_Z f')%string.

Definition fmt_positive (num den : Z) : string :=
  let x0 := exponent10 num den in
  (* six significant digits: num/den / 10^(x0-5) *)
  let r0 := if 0 <=? x0 - 5
            then round_half_even num (den * 10 ^ (x0 - 5))
            else round_half_even (num * 10 ^ (5 - x0)) den in
  let '(r, x) := if r0 =? 1000000 then (100000, x0 + 1) else (r0, x0) in
  if (x <? -4) || (6 <=? x) then
    (string_of_Z (r / 100000)%Z ++ fraction r 5%Z ++ "e"
       ++ (if (x <? 0)%Z then "-" else "+") ++ pad2 (Z.abs x))%string
  else if 0 <=? x then
    (string_of_Z (r / 10 ^ (5 - x))%Z ++ fraction r (5 - x)%Z)%string
  else
    ("0" ++ fraction r (5 - x)%Z)%string.

Definition fmt_lg (d : double) : string :=
  match d with
  | S754_zero s => if s then "-0" else "0"
  | S754_infinity s => if s then "-inf" else "inf"
  | S754_nan => "nan"
  | S754_finite s m e =>
      ((if s then "-" else "") ++
       (if (0 <=? e)%Z then fmt_positive (Z.pos m * 2 ^ e)%Z 1%Z
        else fmt_positive (Z.pos m) (2 ^ (- e))%Z))%string
  end.

End Double.

Abbreviation double := Double.double.

(** ** The tagged cell *)

Inductive CellType :=
| TYPE_BOOLEAN | TYPE_CHARACTER | TYPE_NUMBER | TYPE_STRING | TYPE_PAIR
| TYPE_VECTOR | TYPE_SYMBOL | TYPE_PROCEDURE | TYPE_INPUT_PORT | TYPE_OUTPUT_PORT.

Global Instance CellType_eq_dec : EqDecision CellType.
Proof. solve_decision. Defined.

(** The index of a type in the [enum]. *)
Definition type_index (t : CellType) : nat :=
  match t with
  | TYPE_BOOLEAN => 0 | TYPE_CHARACTER => 1 | TYPE_NUMBER => 2
  | TYPE_STRING => 3 | TYPE_PAIR => 4 | TYPE_VECTOR => 5 | TYPE_SYMBOL => 6
  | TYPE_PROCEDURE => 7 | TYPE_INPUT_PORT => 8 | TYPE_OUTPUT_PORT => 9
  end%nat.

(** [typenames] has eight entries: the two port types have none. *)
Definition typenames : list string :=
  ["boolean"; "character"; "number"; "string"; "pair"; "vector"; "symbol";
   "procedure"]%string.

(** Addresses of cells and of environments; a pointer is an optional
    address. *)
Abbreviation addr := positive.
Abbreviation eaddr := positive.
Abbreviation ptr := (option addr).

(** [FILE*] handles: the three standard streams and the files opened by the
    program. *)
Inductive FILE := stdin | stdout | stderr | opened (n : nat).

Global Instance FILE_eq_dec : EqDecision FILE.
Proof. solve_decision. Defined.

(** The built-in procedures of the model, named after the C functions a
    procedure cell points to. *)
Inductive atom_function :=
| fn_quote | fn_lambda | fn_if | fn_set_b | fn_and | fn_or | fn_begin
| fn_define
| fn_eqv_q | fn_eq_q | fn_equal_q | fn_plus | fn_mul
| fn_not | fn_boolean_q
| fn_pair_q | fn_cons | fn_car | fn_cdr | fn_set_car_b | fn_set_cdr_b
| fn_null_q | fn_list_q | fn_list | fn_length | fn_append
| fn_string_q | fn_string_length | fn_string_ref | fn_string_set
| fn_close_input_port | fn_close_output_port
| fn_input_port_q | fn_output_port_q
| fn_current_input_port | fn_current_output_port
| fn_write | fn_display | fn_error.

(** The union [Cell::Data] together with the tag that selects its member.
    A string is its [malloc]ed buffer, terminator included. *)
Inductive Data :=
| Boolean (boolean : bool)
| Character (character : ascii)
| Number (number : double)
| String_ (buffer : list ascii)
| Pair (car cdr : ptr)
| Vector (data : list ptr)
| Symbol (symbol : string)
| Procedure (function : option atom_function) (formals body : ptr)
            (env : option eaddr)
| InputPort (input_port : FILE)
| OutputPort (output_port : FILE).

Definition type_of (d : Data) : CellType :=
  match d with
  | Boolean _ => TYPE_BOOLEAN
  | Character _ => TYPE_CHARACTER
  | Number _ => TYPE_NUMBER
  | String_ _ => TYPE_STRING
  | Pair _ _ => TYPE_PAIR
  | Vector _ => TYPE_VECTOR
  | Symbol _ => TYPE_SYMBOL
  | Procedure _ _ _ _ => TYPE_PROCEDURE
  | InputPort _ => TYPE_INPUT_PORT
  | OutputPort _ => TYPE_OUTPUT_PORT
  end.

(** A cell: the payload and the mark bit.  The [next] links of the cells are
    the list [cont_cells] of the continuation. *)
Record Cell := mkCell { cell_data : Data; cell_mark : bool }.

(** The two static cells [cell_true] and [cell_false]. *)
Definition cell_true : addr := 1%positive.
Definition cell_false : addr := 2%positive.

(** ** Environments and the continuation *)

Record Node := mkNode { node_symbol : string; node_value : ptr }.

(** [Environment]: the parent, the [mask + 1] bucket chains. The [cont]
    field is left out: there is one continuation. *)
Record Environment := mkEnv {
  env_parent : option eaddr;
  env_data : list (list Node);
  env_mask : Z
}.

(** [Continuation]. [cont_escape] counts the jump buffers on the [escape]
    chain; zero is the null pointer. *)
Record Continuation := mkCont {
  cont_env : eaddr;
  cont_cells : list addr;
  cont_escape : nat;
  cont_allocated : Z;
  cont_input : FILE;
  cont_output : FILE
}.

(** The whole machine: the cells in memory (the static ones and the
    [malloc]ed ones), the environments, the continuation, the handles given
    to [fclose] so far and what was written to each stream, oldest first. *)
Record Machine := mkMachine {
  heap : gmap addr Cell;
  envs : gmap eaddr Environment;
  cont : Continuation;
  closed : list FILE;
  written : list (FILE * string)
}.

Definition set_heap (h : gmap addr Cell) (m : Machine) : Machine :=
  mkMachine h (envs m) (cont m) (closed m) (written m).
Definition set_envs (e : gmap eaddr Environment) (m : Machine) : Machine :=
  mkMachine (heap m) e (cont m) (closed m) (written m).
Definition set_cont (c : Continuation) (m : Machine) : Machine :=
  mkMachine (heap m) (envs m) c (closed m) (written m).

(** ** Outcomes and the state monad of the interpreter *)

Inductive Outcome (A : Type) :=
| Ok (a : A)
| Error (msg : string)   (* [signal_error]: the jump to [cont->escape] *)
| Crash                  (* undefined behaviour *)
| Timeout.               (* the fuel of the model ran out *)
Arguments Ok {A} a.
Arguments Error {A} msg.
Arguments Crash {A}.
Arguments Timeout {A}.

Definition M (A : Type) : Type := Machine -> Outcome A * Machine.

Global Instance M_ret : MRet M := fun A a m => (Ok a, m).
Global Instance M_bind : MBind M := fun A B f x m =>
  match x m with
  | (Ok a, m') => f a m'
  | (Error msg, m') => (Error msg, m')
  | (Crash, m') => (Crash, m')
  | (Timeout, m') => (Timeout, m')
  end.

Definition crash {A} : M A := fun m => (Crash, m).
Definition timeout {A} : M A := fun m => (Timeout, m).
Definition get_machine : M Machine := fun m => (Ok m, m).
Definition put_machine (m' : Machine) : M unit := fun _ => (Ok tt, m').
Definition modify (f : Machine -> Machine) : M unit := fun m => (Ok tt, f m).

(** [assert(b)]. *)
Definition assert (b : bool) : M unit := if b then mret tt else crash.

(** [fprintf], [fputc]: append to the stream.  A handle is indeterminate
    once it was given to [fclose]: using it again is undefined. *)
Definition fprintf (f : FILE) (s : string) : M unit := fun m =>
  if bool_decide (f ∈ closed m) then (Crash, m)
  else (Ok tt, mkMachine (heap m) (envs m) (cont m) (closed m)
                         (written m ++ [(f, s)])).

(** [fclose]. *)
Definition fclose (f : FILE) : M unit := fun m =>
  if bool_decide (f ∈ closed m) then (Crash, m)
  else (Ok tt, mkMachine (heap m) (envs m) (cont m) (closed m ++ [f])
                         (written m)).

(** [signal_error]: the message goes to [stderr], then
    [longjmp(cont->escape->buffer, 1)], which dereferences [cont->escape]. *)
Definition signal_error {A} (message : string) : M A := fun m =>
  let m' := mkMachine (heap m) (envs m) (cont m) (closed m)
              (written m ++ [(stderr, ("Error: " ++ message ++ nl)%string)]) in
  match cont_escape (cont m) with
  | O => (Crash, m')
  | S _ => (Error message, m')
  end.

(** [type_check].  The names come from [typenames], which the port types
    index out of bounds. *)
Definition type_check (expected actual : CellType) : M unit :=
  if decide (actual = expected) then mret tt
  else match typenames !! type_index expected, typenames !! type_index actual with
       | Some e, Some a => signal_error (e ++ " expected, got " ++ a)%string
       | _, _ => crash
       end.

(** Reading a cell through a pointer: null and dangling pointers crash. *)
Definition deref (p : ptr) : M Data := fun m =>
  match p with
  | None => (Crash, m)
  | Some a => match heap m !! a with
              | Some c => (Ok (cell_data c), m)
              | None => (Crash, m)
              end
  end.

Definition store (a : addr) (d : Data) : M unit := fun m =>
  match heap m !! a with
  | Some c => (Ok tt, set_heap (<[a := mkCell d (cell_mark c)]> (heap m)) m)
  | None => (Crash, m)
  end.

(** [make_cell]: a fresh cell is put first on the list of the continuation
    and counted.  The payload is the one the caller writes into the zeroed
    cell straight after the call. *)
Definition make_cell (d : Data) : M addr := fun m =>
  let a := fresh (dom (heap m)) in
  let c := cont m in
  (Ok a,
   mkMachine (<[a := mkCell d false]> (heap m)) (envs m)
     (mkCont (cont_env c) (a :: cont_cells c) (cont_escape c)
             (cont_allocated c + 1) (cont_input c) (cont_output c))
     (closed m) (written m)).

Definition make_io_port (is_input : bool) (port : FILE) : M addr :=
  make_cell (if is_input then InputPort port else OutputPort port).
Definition make_input_port (port : FILE) : M addr := make_io_port true port.
Definition make_output_port (port : FILE) : M addr := make_io_port false port.

Definition make_boolean (value : bool) : addr :=
  if value then cell_true else cell_false.

Definition make_number (value : double) : M addr := make_cell (Number value).
Definition make_character (c : ascii) : M addr := make_cell (Character c).

(** [car], [cdr], [set_car], [set_cdr] assert the type through the
    pointer. *)
Definition car (cell : ptr) : M ptr :=
  d ← deref cell;
  match d with Pair a _ => mret a | _ => crash end.

Definition cdr (cell : ptr) : M ptr :=
  d ← deref cell;
  match d with Pair _ b => mret b | _ => crash end.

Definition set_car (list : ptr) (x : ptr) : M unit :=
  d ← deref list;
  match d, list with Pair _ b, Some a => store a (Pair x b) | _, _ => crash end.

Definition set_cdr (list : ptr) (x : ptr) : M unit :=
  d ← deref list;
  match d, list with Pair a _, Some l => store l (Pair a x) | _, _ => crash end.

Definition cons (x y : ptr) : M addr := make_cell (Pair x y).

(** [is_false] reads the type through the pointer. *)
Definition is_false (cell : ptr) : M bool :=
  d ← deref cell;
  mret (match d with Boolean false => true | _ => false end).

(** Loops over a C array or a bucket chain. *)
Fixpoint forM_ {A} (l : list A) (f : A -> M unit) : M unit :=
  match l with
  | [] => mret tt
  | x :: rest => f x ;; forM_ rest f
  end.

Fixpoint mapM {A B} (f : A -> M B) (l : list A) : M (list B) :=
  match l with
  | [] => mret []
  | x :: rest => y ← f x; ys ← mapM f rest; mret (y :: ys)
  end.

(** ** The printer *)

(** [%p] of a handle: the address is the platform's; the model prints a
    name. *)
Definition fmt_p (f : FILE) : string :=
  match f with
  | stdin => "stdin" | stdout => "stdout" | stderr => "stderr"
  | opened n => ("file" ++ string_of_Z (Z.of_nat n))%string
  end.

Fixpoint join_space (l : list string) : string :=
  match l with
  | [] => EmptyString
  | [x] => x
  | x :: rest => (x ++ " " ++ join_space rest)%string
  end.

(** [print_rec] returns what the C function writes to [output]. *)
Fixpoint print_rec (fuel : nat) (cell : ptr) (human : bool) (is_car : bool)
  : M string :=
  match fuel with
  | O => timeout
  | S n =>
      match cell with
      | None => mret EmptyString
      | Some _ =>
          d ← deref cell;
          match d with
          | Boolean b => mret (if b then "#t" else "#f")%string
          | Number x => mret (Double.fmt_lg x)
          | Character c =>
              if human then mret (String c EmptyString)
              else if char_eqb c " " then mret "#\space"%string
              else if char_eqb c LF then mret "#\newline"%string
              else mret ("#\" ++ String c EmptyString)%string
          | String_ buf =>
              let s := string_of_list_ascii (c_str buf) in
              mret (if human then s
                    else String DQUOTE s ++ String DQUOTE EmptyString)%string
          | Symbol s => mret s
          | Pair a b =>
              sa ← print_rec n a human true;
              sb ← match b with
                   | None => mret EmptyString
                   | Some _ =>
                       db ← deref b;
                       s ← print_rec n b human false;
                       mret (" " ++ (if decide (type_of db = TYPE_PAIR)
                                     then "" else ". ") ++ s)%string
                   end;
              mret ((if is_car then "(" else "") ++ sa ++ sb
                    ++ (if is_car then ")" else ""))%string
          | InputPort f => mret ("#<input port " ++ fmt_p f ++ ">")%string
          | OutputPort f => mret ("#<ouput port " ++ fmt_p f ++ ">")%string
          | Vector data =>
              l ← mapM (fun p => print_rec n p human false) data;
              mret ("#(" ++ join_space l ++ ")")%string
          | Procedure _ _ _ _ => crash
          end
      end
  end.

Definition print (fuel : nat) (output : FILE) (cell : ptr) (human : bool)
  : M unit :=
  s ← print_rec fuel cell human true;
  fprintf output (s ++ nl)%string.

(** ** The collector *)

Definition set_mark (a : addr) (b : bool) : M unit := fun m =>
  match heap m !! a with
  | Some c => (Ok tt, set_heap (<[a := mkCell (cell_data c) b]> (heap m)) m)
  | None => (Crash, m)
  end.

Definition get_mark (a : addr) : M bool := fun m =>
  match heap m !! a with
  | Some c => (Ok (cell_mark c), m)
  | None => (Crash, m)
  end.

Definition deref_env (env : option eaddr) : M Environment := fun m =>
  match env with
  | None => (Crash, m)
  | Some e => match envs m !! e with
              | Some f => (Ok f, m)
              | None => (Crash, m)
              end
  end.

(** [mark_environment], over the function that marks one cell. *)
Definition mark_environment_with (mark : ptr -> M unit) (env : option eaddr)
  : M unit :=
  f ← deref_env env;
  forM_ (seq 0 (Z.to_nat (env_mask f + 1))) (fun i =>
    match env_data f !! i with
    | Some bucket => forM_ bucket (fun node => mark (node_value node))
    | None => crash
    end).

Fixpoint mark (fuel : nat) (cell : ptr) : M unit :=
  match fuel with
  | O => timeout
  | S n =>
      match cell with
      | None => mret tt
      | Some a =>
          marked ← get_mark a;
          if (marked : bool) then mret tt
          else
            set_mark a true ;;
            d ← deref cell;
            match d with
            | Pair x y => mark n x ;; mark n y
            | Vector data => forM_ data (mark n)
            | Procedure None formals body env =>
                mark n formals ;; mark n body ;;
                mark_environment_with (mark n) env
            | _ => mret tt
            end
      end
  end.

Definition mark_environment (fuel : nat) (env : option eaddr) : M unit :=
  mark_environment_with (mark fuel) env.

(** [free(cell)], with [cont->allocated--]. *)
Definition free_cell (a : addr) : M unit :=
  modify (fun m =>
    let c := cont m in
    mkMachine (delete a (heap m)) (envs m)
      (mkCont (cont_env c) (cont_cells c) (cont_escape c)
              (cont_allocated c - 1) (cont_input c) (cont_output c))
      (closed m) (written m)).

(** The sweep loop: [remaining] is built in reverse. *)
Fixpoint sweep (cells : list addr) (remaining : list addr) : M (list addr) :=
  match cells with
  | [] => mret remaining
  | cell :: next =>
      marked ← get_mark cell;
      if (marked : bool) then
        set_mark cell false ;; sweep next (cell :: remaining)
      else
        d ← deref (Some cell);
        match d with
        | InputPort f => if decide (f = stdin) then mret tt else fclose f
        | OutputPort f => if decide (f = stdout) then mret tt else fclose f
        | _ => mret tt   (* strings and vectors free their buffer *)
        end ;;
        free_cell cell ;;
        sweep next remaining
  end.

Definition set_cells (l : list addr) : M unit :=
  modify (fun m =>
    let c := cont m in
    set_cont (mkCont (cont_env c) l (cont_escape c) (cont_allocated c)
                     (cont_input c) (cont_output c)) m).

Definition collect_garbage (fuel : nat) : M unit :=
  m ← get_machine;
  let cells_before := cont_allocated (cont m) in
  mark_environment fuel (Some (cont_env (cont m))) ;;
  m1 ← get_machine;
  remaining ← sweep (cont_cells (cont m1)) [];
  set_cells remaining ;;
  m2 ← get_machine;
  fprintf stdout ("GC: " ++ string_of_Z (cells_before - cont_allocated (cont m2))
                  ++ " cells collected. "
                  ++ string_of_Z (cont_allocated (cont m2))
                  ++ " remain allocated" ++ nl)%string.

(** ** Tokens and the token buffer *)

Inductive Token :=
| TOKEN_IDENTIFIER (identifier : string)
| TOKEN_BOOLEAN (boolean : bool)
| TOKEN_NUMBER (number : double)
| TOKEN_CHARACTER (character : ascii)
| TOKEN_STRING (string_ : string)
| TOKEN_LIST_START
| TOKEN_LIST_END
| TOKEN_VECTOR_START
| TOKEN_QUOTE
| TOKEN_BACKTICK
| TOKEN_COMMA
| TOKEN_COMMA_AT
| TOKEN_DOT.

(** [TokenList]: the character buffer up to [buffer_position], the tokens
    written so far, [next] and [length]. *)
Record TokenList := mkTokens {
  tok_buffer : list ascii;
  tok_tokens : list Token;
  tok_next : nat;
  tok_length : nat
}.

(** Writing [tokens[next]] and [next++]; the array has [length] slots. *)
Definition add_token (t : Token) (tl : TokenList) : M TokenList :=
  if (tok_next tl <? tok_length tl)%nat then
    mret (mkTokens (tok_buffer tl) (tok_tokens tl ++ [t]) (S (tok_next tl))
                   (tok_length tl))
  else crash.

Definition buffer_push (c : ascii) (tl : TokenList) : TokenList :=
  mkTokens (tok_buffer tl ++ [c]) (tok_tokens tl) (tok_next tl) (tok_length tl).

Definition buffer_copy_and_reset (tl : TokenList) : string * TokenList :=
  (string_of_list_ascii (tok_buffer tl),
   mkTokens [] (tok_tokens tl) (tok_next tl) (tok_length tl)).

Definition add_identifier (tl : TokenList) : M TokenList :=
  let '(s, tl') := buffer_copy_and_reset tl in add_token (TOKEN_IDENTIFIER s) tl'.

Definition add_string (tl : TokenList) : M TokenList :=
  let '(s, tl') := buffer_copy_and_reset tl in add_token (TOKEN_STRING s) tl'.

Definition TokenList_init (size : nat) : TokenList := mkTokens [] [] 0 size.

Definition start_parse (tl : TokenList) : TokenList :=
  mkTokens (tok_buffer tl) (tok_tokens tl) 0 (tok_next tl).

Definition peek (tl : TokenList) : option Token :=
  if (tok_next tl <? tok_length tl)%nat then tok_tokens tl !! tok_next tl
  else None.

Definition skip (tl : TokenList) : TokenList :=
  mkTokens (tok_buffer tl) (tok_tokens tl) (S (tok_next tl)) (tok_length tl).

(** ** The lexer *)

(** [Input], with the token list it points to. [in_data] is the text from
    the current position to the terminating NUL, which is not in the list. *)
Record Input := mkInput {
  in_line : Z;
  in_column : Z;
  in_data : list ascii;
  in_tokens : TokenList
}.

Definition Input_init (d : list ascii) (tl : TokenList) : Input :=
  mkInput 1 1 d tl.

Definition get (input : Input) : ascii :=
  match in_data input with [] => NUL | c :: _ => c end.

(** [Input::next]: asserts that the current character is not the
    terminator. *)
Definition next (input : Input) : M (ascii * Input) :=
  match in_data input with
  | [] => crash
  | c :: rest =>
      if char_eqb c NUL then crash
      else
        let input' :=
          if char_eqb c LF
          then mkInput (in_line input + 1) 1 rest (in_tokens input)
          else mkInput (in_line input) (in_column input + 1) rest
                       (in_tokens input) in
        mret (get input', input')
  end.

Definition with_tokens (input : Input) (tl : TokenList) : Input :=
  mkInput (in_line input) (in_column input) (in_data input) tl.

Definition add (t : Token) (input : Input) : M Input :=
  tl ← add_token t (in_tokens input); mret (with_tokens input tl).

Definition push (c : ascii) (input : Input) : Input :=
  with_tokens input (buffer_push c (in_tokens input)).

Definition syntax_error {A} (input : Input) (message : string) : M A :=
  signal_error ("Syntax error line " ++ string_of_Z (in_line input)
                ++ " column " ++ string_of_Z (in_column input) ++ ": "
                ++ message)%string.

Definition is_digit (c : ascii) : bool :=
  (char_code "0" <=? char_code c) && (char_code c <=? char_code "9").

Definition is_special_initial (c : ascii) : bool :=
  existsb (char_eqb c)
    ["!"; "$"; "%"; "&"; "*"; "/"; ":"; "<"; "="; ">"; "?"; "^"; "_"; "~"]%char.

(** [isalpha] in the C locale. *)
Definition is_letter (c : ascii) : bool :=
  ((char_code "A" <=? char_code c) && (char_code c <=? char_code "Z"))
  || ((char_code "a" <=? char_code c) && (char_code c <=? char_code "z")).

(** [isprint] in the C locale. *)
Definition isprint (c : ascii) : bool :=
  (32 <=? char_code c) && (char_code c <=? 126).

Definition is_initial (c : ascii) : bool := is_letter c || is_special_initial c.

Definition is_delimeter (c : ascii) : bool :=
  existsb (char_eqb c) [NUL; " "; LF; TAB; DQUOTE; "("; ")"; ";"]%char.

Definition is_special_subsequent (c : ascii) : bool :=
  existsb (char_eqb c) ["+"; "-"; "."; "@"]%char.

Definition is_subsequent (c : ascii) : bool :=
  is_initial c || is_digit c || is_special_subsequent c.

Definition is_peculiar_identifier (c : ascii) : bool :=
  char_eqb c "+" || char_eqb c "-".

(** The inner loop of [skip_whitespace], entered on [;] with [d] the
    character after it: [true] when it stops on a newline, [false] when the
    function returns at the end of the text. *)
Fixpoint skip_comment (fuel : nat) (d : ascii) (input : Input)
  : M (bool * Input) :=
  match fuel with
  | O => timeout
  | S n =>
      if char_eqb d LF then mret (true, input)
      else if char_eqb d NUL then mret (false, input)
      else '(d', input') ← next input; skip_comment n d' input'
  end.

Fixpoint skip_whitespace_loop (fuel : nat) (c : ascii) (input : Input)
  : M Input :=
  match fuel with
  | O => timeout
  | S n =>
      if char_eqb c NUL then mret input
      else if char_eqb c LF || char_eqb c " " || char_eqb c TAB then
        '(c', input') ← next input; skip_whitespace_loop n c' input'
      else if char_eqb c ";" then
        '(d, input1) ← next input;
        '(at_newline, input2) ← skip_comment n d input1;
        if (at_newline : bool) then
          '(c', input3) ← next input2; skip_whitespace_loop n c' input3
        else mret input2
      else mret input
  end.

Definition skip_whitespace (input : Input) : M Input :=
  skip_whitespace_loop (S (length (in_data input))) (get input) input.

(** One step of the [space] and [newline] checks of [read_character]. *)
Definition expect (wanted : ascii) (message : string) (input : Input)
  : M Input :=
  '(c, input') ← next input;
  if char_eqb c wanted then mret input' else syntax_error input' message.

Definition expect_delimeter (message : string) (input : Input) : M Input :=
  '(c, input') ← next input;
  if is_delimeter c then mret input' else syntax_error input' message.

Definition read_character (input : Input) : M Input :=
  let c := get input in
  let success (input : Input) : M Input :=
    input' ← expect_delimeter "delimeter expected" input;
    add (TOKEN_CHARACTER c) input' in
  if char_eqb c "s" then
    '(c1, input1) ← next input;
    if char_eqb c1 "p" then
      input2 ← expect "a" "space expected" input1;
      input3 ← expect "c" "space expected" input2;
      input4 ← expect "e" "space expected" input3;
      input5 ← expect_delimeter "space expected" input4;
      add (TOKEN_CHARACTER " ") input5
    else success input1
  else if char_eqb c "n" then
    '(c1, input1) ← next input;
    if char_eqb c1 "e" then
      input2 ← expect "w" "newline expected" input1;
      input3 ← expect "l" "newline expected" input2;
      input4 ← expect "i" "newline expected" input3;
      input5 ← expect "n" "newline expected" input4;
      input6 ← expect "e" "newline expected" input5;
      input7 ← expect_delimeter "newline expected" input6;
      add (TOKEN_CHARACTER LF) input7
    else success input1
  else success input.

Definition char_to_double (c : ascii) : M double :=
  assert (is_digit c) ;;
  mret (Double.of_Z (char_code c - char_code "0")).

Fixpoint read_number_loop (fuel : nat) (accum : double) (input : Input)
  : M Input :=
  match fuel with
  | O => timeout
  | S n =>
      '(c, input') ← next input;
      if is_digit c then
        d ← char_to_double c;
        read_number_loop n (Double.add (Double.mul accum (Double.of_Z 10)) d)
                         input'
      else add (TOKEN_NUMBER accum) input'
  end.

Definition read_number (input : Input) : M Input :=
  accum ← char_to_double (get input);
  read_number_loop (S (length (in_data input))) accum input.

Fixpoint read_string_loop (fuel : nat) (input : Input) : M Input :=
  match fuel with
  | O => timeout
  | S n =>
      '(c, input1) ← next input;
      if char_eqb c DQUOTE then
        '(_, input2) ← next input1;
        tl ← add_string (in_tokens input2);
        mret (with_tokens input2 tl)
      else if char_eqb c "\" then
        '(c', input2) ← next input1;
        if char_eqb c' DQUOTE || char_eqb c' "\"
        then read_string_loop n (push c' input2)
        else syntax_error input2 "malformed string"
      else if isprint c then read_string_loop n (push c input1)
      else syntax_error input1 "unexpected character in string"
  end.

Definition read_string (input : Input) : M Input :=
  assert (char_eqb (get input) DQUOTE) ;;
  read_string_loop (S (length (in_data input))) input.

Fixpoint read_identifier_loop (fuel : nat) (input : Input) : M Input :=
  match fuel with
  | O => timeout
  | S n =>
      '(c, input') ← next input;
      if is_delimeter c then mret input'
      else if is_subsequent c then read_identifier_loop n (push c input')
      else syntax_error input' "malformed identifier"
  end.

Definition read_identifier (input : Input) : M Input :=
  let c := get input in
  input' ←
    (if is_initial c then
       read_identifier_loop (S (length (in_data input))) (push c input)
     else if is_peculiar_identifier c then
       '(_, input1) ← next (push c input); mret input1
     else syntax_error input "malformed identifier");
  tl ← add_identifier (in_tokens input');
  mret (with_tokens input' tl).

Definition read_token (input0 : Input) : M Input :=
  input ← skip_whitespace input0;
  let c := get input in
  (** a one-character token: [input.next(); input.tokens->add_...] *)
  let basic (t : Token) : M Input :=
    '(_, input1) ← next input; add t input1 in
  if char_eqb c "(" then basic TOKEN_LIST_START
  else if char_eqb c ")" then basic TOKEN_LIST_END
  else if char_eqb c "'" then basic TOKEN_QUOTE
  else if char_eqb c "`" then basic TOKEN_BACKTICK
  else if char_eqb c "." then basic TOKEN_DOT
  else if char_eqb c "," then
    '(c1, input1) ← next input;
    if char_eqb c1 "@" then
      '(_, input2) ← next input1; add TOKEN_COMMA_AT input2
    else add TOKEN_COMMA input1
  else if char_eqb c "#" then
    '(c1, input1) ← next input;
    if char_eqb c1 "t" then
      '(_, input2) ← next input1; add (TOKEN_BOOLEAN true) input2
    else if char_eqb c1 "f" then
      '(_, input2) ← next input1; add (TOKEN_BOOLEAN false) input2
    else if char_eqb c1 "\" then
      '(_, input2) ← next input1; read_character input2
    else if char_eqb c1 "(" then
      '(_, input2) ← next input1; add TOKEN_VECTOR_START input2
    else syntax_error input1 "malformed identifier after #"
  else if char_eqb c DQUOTE then read_string input
  else if char_eqb c NUL then mret input
  else if is_digit c then read_number input
  else read_identifier input.

(** [while (input.get()) read_token(input);] *)
Fixpoint read_tokens (fuel : nat) (input : Input) : M Input :=
  match fuel with
  | O => timeout
  | S n =>
      if char_eqb (get input) NUL then mret input
      else input' ← read_token input; read_tokens n input'
  end.

Definition tokenize (text : string) (size : nat) : M TokenList :=
  let d := list_ascii_of_string text in
  input ← read_tokens (S (length d)) (Input_init d (TokenList_init size));
  mret (start_parse (in_tokens input)).

(** ** The parser *)

Definition make_vector (length : nat) (fill : ptr) : M addr :=
  make_cell (Vector (replicate length fill)).

Definition parse_simple_datum (tokens : TokenList) : M (ptr * TokenList) :=
  match peek tokens with
  | None => mret (None, tokens)
  | Some (TOKEN_BOOLEAN b) =>
      cell ← make_cell (Boolean b); mret (Some cell, skip tokens)
  | Some (TOKEN_CHARACTER c) =>
      cell ← make_cell (Character c); mret (Some cell, skip tokens)
  | Some (TOKEN_NUMBER d) =>
      cell ← make_number d; mret (Some cell, skip tokens)
  | Some (TOKEN_IDENTIFIER s) =>
      cell ← make_cell (Symbol s); mret (Some cell, skip tokens)
  | Some (TOKEN_STRING s) =>
      cell ← make_cell (String_ (buffer_of s)); mret (Some cell, skip tokens)
  | Some _ => mret (None, tokens)
  end.

Section Parser.

(** The recursive calls go through [parse_datum], tied below. *)
Variable parse_datum : TokenList -> M (ptr * TokenList).

(** The loop of [parse_vector]; the closing token is left in place. *)
Fixpoint parse_vector_loop (fuel : nat) (stack : list ptr)
         (tokens : TokenList) : M (list ptr * TokenList) :=
  match fuel with
  | O => timeout
  | S n =>
      match peek tokens with
      | None => signal_error "unexpected end of input"
      | Some TOKEN_LIST_END => mret (stack, tokens)
      | Some _ =>
          '(cell, tokens') ← parse_datum tokens;
          parse_vector_loop n (stack ++ [cell]) tokens'
      end
  end.

Definition parse_vector (fuel : nat) (tokens : TokenList)
  : M (ptr * TokenList) :=
  match peek tokens with
  | None => signal_error "unexpected end of input"
  | Some TOKEN_VECTOR_START =>
      '(stack, tokens') ← parse_vector_loop fuel [] (skip tokens);
      vector ← make_vector (length stack) None;
      store vector (Vector stack) ;;
      mret (Some vector, tokens')
  | Some _ => mret (None, tokens)
  end.

Definition parse_abreviation (tokens : TokenList) : M (ptr * TokenList) :=
  let expand (symbol : string) : M (ptr * TokenList) :=
    abreviation ← make_cell (Symbol symbol);
    '(datum, tokens') ← parse_datum (skip tokens);
    inner ← cons datum None;
    outer ← cons (Some abreviation) (Some inner);
    mret (Some outer, tokens') in
  match peek tokens with
  | None => signal_error "unexpected end of input"
  | Some TOKEN_QUOTE => expand "quote"%string
  | Some TOKEN_BACKTICK => expand "quasiquote"%string
  | Some TOKEN_COMMA => expand "unquote"%string
  | Some TOKEN_COMMA_AT => expand "unquote-splicing"%string
  | Some _ => mret (None, tokens)
  end.

(** The loop of [parse_list]: [list] is the last pair built so far. *)
Fixpoint parse_list_loop (fuel : nat) (list : addr) (tokens : TokenList)
  : M TokenList :=
  match fuel with
  | O => timeout
  | S n =>
      match peek tokens with
      | None => signal_error "Unexpected end of input."
      | Some TOKEN_DOT =>
          '(cell, tokens1) ← parse_datum (skip tokens);
          match cell with
          | None => signal_error "expecting a datum after a dot"
          | Some _ =>
              set_cdr (Some list) cell ;;
              match peek tokens1 with
              | None => crash
              | Some TOKEN_LIST_END => mret (skip tokens1)
              | Some _ => signal_error "expecting )"
              end
          end
      | Some TOKEN_LIST_END => mret (skip tokens)
      | Some _ =>
          '(car, tokens1) ← parse_datum tokens;
          match car with
          | None => signal_error "is this unexpected end of input? todo"
          | Some _ =>
              rest ← cons car None;
              set_cdr (Some list) (Some rest) ;;
              parse_list_loop n rest tokens1
          end
      end
  end.

Definition parse_list (fuel : nat) (tokens : TokenList)
  : M (ptr * TokenList) :=
  match peek tokens with
  | None => mret (None, tokens)
  | Some TOKEN_LIST_START =>
      '(cell, tokens1) ← parse_datum (skip tokens);
      list ← cons cell None;
      tokens2 ← parse_list_loop fuel list tokens1;
      mret (Some list, tokens2)
  | Some _ => parse_abreviation tokens
  end.

Definition parse_compound_datum (fuel : nat) (tokens : TokenList)
  : M (ptr * TokenList) :=
  '(cell, tokens') ← parse_list fuel tokens;
  match cell with
  | Some _ => mret (cell, tokens')
  | None => parse_vector fuel tokens'
  end.

End Parser.

Fixpoint parse_datum (fuel : nat) (tokens : TokenList) : M (ptr * TokenList) :=
  match fuel with
  | O => timeout
  | S n =>
      '(cell, tokens') ← parse_simple_datum tokens;
      match cell with
      | Some _ => mret (cell, tokens')
      | None => parse_compound_datum (parse_datum n) n tokens'
      end
  end.

(** ** Hashing: MurmurHash2 over the bytes of a name *)

Definition u32 (z : Z) : Z := z mod 2 ^ 32.

Definition murmur_m : Z := 0x5bd1e995.
Definition murmur_r : Z := 24.

Fixpoint MurmurHash2_loop (data : list Z) (h : Z) : Z :=
  match data with
  | b0 :: b1 :: b2 :: b3 :: rest =>
      (* a little-endian read of four bytes *)
      let k := b0 + b1 * 2 ^ 8 + b2 * 2 ^ 16 + b3 * 2 ^ 24 in
      let k := u32 (k * murmur_m) in
      let k := Z.lxor k (Z.shiftr k murmur_r) in
      let k := u32 (k * murmur_m) in
      let h := u32 (h * murmur_m) in
      MurmurHash2_loop rest (Z.lxor h k)
  | [b0; b1; b2] =>
      let h := Z.lxor h (Z.shiftl b2 16) in
      let h := Z.lxor h (Z.shiftl b1 8) in
      let h := Z.lxor h b0 in
      u32 (h * murmur_m)
  | [b0; b1] =>
      let h := Z.lxor h (Z.shiftl b1 8) in
      let h := Z.lxor h b0 in
      u32 (h * murmur_m)
  | [b0] => u32 (Z.lxor h b0 * murmur_m)
  | [] => h
  end.

Definition MurmurHash2 (key : string) : Z :=
  let data := map char_code (list_ascii_of_string key) in
  let seed := 0xdbc in
  let h := Z.lxor seed (Z.of_nat (length data)) in
  let h := MurmurHash2_loop data h in
  let h := Z.lxor h (Z.shiftr h 13) in
  let h := u32 (h * murmur_m) in
  Z.lxor h (Z.shiftr h 15).

(** ** Environments *)

(** The chain [env->data[index]] is searched front to back. *)
Fixpoint find_node (symbol : string) (bucket : list Node) : option ptr :=
  match bucket with
  | [] => None
  | node :: rest =>
      if String.eqb symbol (node_symbol node) then Some (node_value node)
      else find_node symbol rest
  end.

(** [node->value = value] on the first node of that name, if there is
    one. *)
Fixpoint update_node (symbol : string) (value : ptr) (bucket : list Node)
  : option (list Node) :=
  match bucket with
  | [] => None
  | node :: rest =>
      if String.eqb symbol (node_symbol node)
      then Some (mkNode (node_symbol node) value :: rest)
      else rest' ← update_node symbol value rest; Some (node :: rest')
  end.

Definition bucket_index (mask : Z) (hash : Z) : nat :=
  Z.to_nat (Z.land hash mask).

Definition put_env (e : eaddr) (f : Environment) : M unit :=
  modify (fun m => set_envs (<[e := f]> (envs m)) m).

(** [create_environment]: one bucket, so the mask is zero. *)
Definition create_environment (parent : option eaddr) : M eaddr := fun m =>
  let e := fresh (dom (envs m)) in
  (Ok e, set_envs (<[e := mkEnv parent [[]] 0]> (envs m)) m).

Fixpoint environment_get (fuel : nat) (env : eaddr) (symbol : ptr) : M ptr :=
  match fuel with
  | O => timeout
  | S n =>
      d ← deref symbol;
      match d with
      | Symbol str =>
          f ← deref_env (Some env);
          match env_data f !! bucket_index (env_mask f) (MurmurHash2 str) with
          | None => crash
          | Some bucket =>
              match find_node str bucket with
              | Some value => mret value
              | None =>
                  match env_parent f with
                  | Some parent => environment_get n parent symbol
                  | None =>
                      signal_error
                        ("reference to undefined identifier: " ++ str)%string
                  end
              end
          end
      | _ => crash
      end
  end.

Definition environment_define (env : eaddr) (symbol : string) (value : ptr)
  : M unit :=
  f ← deref_env (Some env);
  let index := bucket_index (env_mask f) (MurmurHash2 symbol) in
  match env_data f !! index with
  | None => crash
  | Some bucket =>
      let bucket' :=
        match update_node symbol value bucket with
        | Some b => b
        | None => mkNode symbol value :: bucket
        end in
      put_env env (mkEnv (env_parent f) (<[index := bucket']> (env_data f))
                         (env_mask f))
  end.

(** The [do ... while (env)] loop of [environment_set].  The result is
    [None] when the function returned from inside the loop, and [Some env]
    with the final value of the variable [env] when the loop ran out. *)
Fixpoint environment_set_loop (fuel : nat) (env : eaddr) (symbol : string)
         (value : ptr) : M (option (option eaddr)) :=
  match fuel with
  | O => timeout
  | S n =>
      f ← deref_env (Some env);
      let index := bucket_index (env_mask f) (MurmurHash2 symbol) in
      match env_data f !! index with
      | None => crash
      | Some bucket =>
          match update_node symbol value bucket with
          | Some bucket' =>
              put_env env (mkEnv (env_parent f)
                                 (<[index := bucket']> (env_data f))
                                 (env_mask f)) ;;
              mret None
          | None =>
              match env_parent f with
              | Some parent => environment_set_loop n parent symbol value
              | None => mret (Some (env_parent f))
              end
          end
      end
  end.

(** Reading [env->cont]. *)
Definition env_cont (env : option eaddr) : M unit :=
  deref_env env ;; mret tt.

Definition environment_set (fuel : nat) (env : eaddr) (symbol : string)
           (value : ptr) : M unit :=
  r ← environment_set_loop fuel env symbol value;
  match r with
  | None => mret tt
  | Some env' =>
      env_cont env' ;;
      signal_error ("No binding for " ++ symbol ++ " in any scope.")%string
  end.

(** ** Parameters of the built-in procedures *)

Definition bool_cell (b : bool) : ptr := Some (make_boolean b).

Definition has_type (d : Data) (t : CellType) : bool :=
  bool_decide (type_of d = t).

(** [make_procedure] reads the types of [formals] and [body] through the
    pointers. *)
Definition make_procedure (env : eaddr) (formals body : ptr) : M addr :=
  df ← deref formals;
  type_check TYPE_PAIR (type_of df) ;;
  db ← deref body;
  type_check TYPE_PAIR (type_of db) ;;
  make_cell (Procedure None formals body (Some env)).

(** The [for] loop of [nth_param_any_optional]: [steps] applications of
    [cdr], giving up at the first null. *)
Fixpoint nth_cell (steps : nat) (params : ptr) : M ptr :=
  match steps with
  | O => mret params
  | S k =>
      p ← cdr params;
      match p with
      | None => mret None
      | Some _ => nth_cell k p
      end
  end.

Section Builtins.

(** The built-ins call back into [eval], tied below. *)
Variable eval : eaddr -> ptr -> M ptr.

Definition type_q_helper (env : eaddr) (params : ptr) (type : CellType)
  : M ptr :=
  x ← car params;
  obj ← eval env x;
  d ← deref obj;
  mret (bool_cell (has_type d type)).

Definition nth_param_any_optional (env : eaddr) (params : ptr) (n : nat)
  : M ptr :=
  p ← nth_cell (Nat.pred n) params;
  match p with
  | None => mret None
  | Some _ => x ← car p; eval env x
  end.

Definition nth_param_any (env : eaddr) (params : ptr) (n : nat) : M ptr :=
  result ← nth_param_any_optional env params n;
  match result with
  | None =>
      signal_error ("Too few parameters passed ("
                    ++ string_of_Z (Z.of_nat n) ++ " expected)")%string
  | Some _ => mret result
  end.

Definition nth_param_optional (env : eaddr) (params : ptr) (n : nat)
           (type : CellType) : M ptr :=
  result ← nth_param_any_optional env params n;
  match result with
  | None => mret None
  | Some _ =>
      d ← deref result; type_check type (type_of d) ;; mret result
  end.

Definition nth_param (env : eaddr) (params : ptr) (n : nat)
           (type : CellType) : M ptr :=
  result ← nth_param_any env params n;
  d ← deref result;
  type_check type (type_of d) ;;
  mret result.

Definition nth_param_integer (env : eaddr) (params : ptr) (n : nat) : M Z :=
  param ← nth_param env params n TYPE_NUMBER;
  d ← deref param;
  match d with
  | Number x =>
      match Double.is_integer x, Double.to_int x with
      | Some true, Some k => mret k
      | Some false, _ => signal_error "Not an integer"
      | _, _ => crash
      end
  | _ => crash
  end.

Definition optional_second_param (env : eaddr) (params : ptr) : M ptr :=
  rest ← cdr params;
  match rest with
  | None => mret None
  | Some _ => x ← car rest; eval env x
  end.

(** ** Special forms *)

Definition atom_quote (env : eaddr) (params : ptr) : M ptr := car params.

Definition atom_if (env : eaddr) (params : ptr) : M ptr :=
  test ← nth_param_any env params 1;
  f ← is_false test;
  if (f : bool) then
    rest ← cdr params;
    alternate ← cdr rest;
    match alternate with
    | None => mret test
    | Some _ =>
        a ← car alternate;
        match a with
        | None => mret test
        | Some _ => eval env a
        end
    end
  else
    rest ← cdr params; c ← car rest; eval env c.

Definition atom_set_b (fuel : nat) (env : eaddr) (params : ptr) : M ptr :=
  variable ← car params;
  d ← deref variable;
  type_check TYPE_SYMBOL (type_of d) ;;
  rest ← cdr params;
  e ← car rest;
  expression ← eval env e;
  match d with
  | Symbol name =>
      environment_set fuel env name expression ;; mret expression
  | _ => crash
  end.

Fixpoint and_loop (fuel : nat) (env : eaddr) (cell : ptr) (last_result : ptr)
  : M ptr :=
  match fuel with
  | O => timeout
  | S n =>
      match cell with
      | None => mret last_result
      | Some _ =>
          x ← car cell;
          result ← eval env x;
          f ← is_false result;
          if (f : bool) then mret result
          else rest ← cdr cell; and_loop n env rest result
      end
  end.

Definition atom_and (fuel : nat) (env : eaddr) (params : ptr) : M ptr :=
  first ← car params;
  match first with
  | None =>
      signal_error "syntax error. at least 1 test exptected in (and ...)"
  | Some _ => and_loop fuel env params None
  end.

Fixpoint or_loop (fuel : nat) (env : eaddr) (cell : ptr) : M ptr :=
  match fuel with
  | O => timeout
  | S n =>
      match cell with
      | None => mret (bool_cell false)
      | Some _ =>
          x ← car cell;
          test ← eval env x;
          f ← is_false test;
          if (f : bool) then rest ← cdr cell; or_loop n env rest
          else mret test
      end
  end.

Definition atom_or (fuel : nat) (env : eaddr) (params : ptr) : M ptr :=
  first ← car params;
  match first with
  | None =>
      signal_error "syntax error. at least 1 test exptected in (or ...)"
  | Some _ => or_loop fuel env params
  end.

Fixpoint begin_loop (fuel : nat) (env : eaddr) (cell : ptr) (last : ptr)
  : M ptr :=
  match fuel with
  | O => timeout
  | S n =>
      match cell with
      | None => mret last
      | Some _ =>
          x ← car cell;
          r ← eval env x;
          rest ← cdr cell;
          begin_loop n env rest r
      end
  end.

Definition atom_begin (fuel : nat) (env : eaddr) (params : ptr) : M ptr :=
  begin_loop fuel env params None.

Definition atom_lambda (env : eaddr) (params : ptr) : M ptr :=
  formals ← car params;
  body ← cdr params;
  proc ← make_procedure env formals body;
  mret (Some proc).

Definition atom_define (env : eaddr) (params : ptr) : M ptr :=
  first ← car params;
  d ← deref first;
  '(variable, value) ←
    match d with
    | Symbol _ =>
        rest ← cdr params; e ← car rest; v ← eval env e;
        mret (first, v)
    | Pair variable formals =>
        body ← cdr params;
        proc ← make_procedure env formals body;
        mret (variable, Some proc)
    | _ => signal_error "symbol or pair expected as parameter 1 to define"
    end;
  assert (bool_decide (variable ≠ None) && bool_decide (value ≠ None)) ;;
  dv ← deref variable;
  type_check TYPE_SYMBOL (type_of dv) ;;
  match dv with
  | Symbol name =>
      environment_define env name value ;; mret (bool_cell false)
  | _ => crash
  end.

(** ** Equivalence predicates *)

Fixpoint all2M (f : ptr -> ptr -> M bool) (a b : list ptr) : M bool :=
  match a, b with
  | x :: a', y :: b' =>
      r ← f x y; if (r : bool) then all2M f a' b' else mret false
  | _, _ => mret true
  end.

Fixpoint eq_helper (fuel : nat) (obj1 obj2 : ptr)
         (recurse_strings recurse_compound : bool) : M bool :=
  match fuel with
  | O => timeout
  | S n =>
      d1 ← deref obj1;
      d2 ← deref obj2;
      if negb (has_type d2 (type_of d1)) then mret false
      else
        match d1, d2 with
        | Boolean a, Boolean b => mret (Bool.eqb a b)
        | Character a, Character b => mret (char_eqb a b)
        | Symbol a, Symbol b => mret (String.eqb a b)
        | Number a, Number b => mret (Double.eqb a b)
        | Pair _ _, Pair _ _ => pair_equal n obj1 obj2 recurse_compound
        | Vector a, Vector b =>
            (* [vector_equal] *)
            if bool_decide (obj1 = obj2) then mret true
            else if negb recurse_compound then mret false
            else if negb (length b =? length a)%nat then mret false
            else all2M (fun x y => eq_helper n x y true true) a b
        | String_ a, String_ b =>
            mret (bool_decide (obj1 = obj2)
                  || (recurse_strings
                      && bool_decide (c_str a = c_str b)))
        | _, _ => crash
        end
  end
with pair_equal (fuel : nat) (obj1 obj2 : ptr) (recursive : bool) : M bool :=
  match fuel with
  | O => timeout
  | S n =>
      if bool_decide (obj1 = obj2) then mret true
      else
        match obj1, obj2 with
        | Some _, Some _ =>
            if negb recursive then mret false
            else
              a1 ← car obj1;
              a2 ← car obj2;
              same ← eq_helper n a1 a2 true true;
              if (same : bool) then
                b1 ← cdr obj1; b2 ← cdr obj2; pair_equal n b1 b2 true
              else mret false
        | _, _ => mret false
        end
  end.

Definition atom_eqv_q (fuel : nat) (env : eaddr) (params : ptr) : M ptr :=
  obj1 ← nth_param_any env params 1;
  obj2 ← nth_param_any env params 2;
  r ← eq_helper fuel obj1 obj2 true false;
  mret (bool_cell r).

Definition atom_eq_q (fuel : nat) (env : eaddr) (params : ptr) : M ptr :=
  obj1 ← nth_param_any env params 1;
  obj2 ← nth_param_any env params 2;
  r ← eq_helper fuel obj1 obj2 false false;
  mret (bool_cell r).

Definition atom_equal_q (fuel : nat) (env : eaddr) (params : ptr) : M ptr :=
  obj1 ← nth_param_any env params 1;
  obj2 ← nth_param_any env params 2;
  r ← eq_helper fuel obj1 obj2 true true;
  mret (bool_cell r).

(** ** Numbers *)

Fixpoint plus_mul_loop (fuel : nat) (env : eaddr) (z : ptr) (is_add : bool)
         (result : double) : M double :=
  match fuel with
  | O => timeout
  | S k =>
      match z with
      | None => mret result
      | Some _ =>
          n ← car z;
          assert (bool_decide (n ≠ None)) ;;
          value ← eval env n;
          d ← deref value;
          type_check TYPE_NUMBER (type_of d) ;;
          match d with
          | Number x =>
              rest ← cdr z;
              plus_mul_loop k env rest is_add
                (if is_add then Double.add result x else Double.mul result x)
          | _ => crash
          end
      end
  end.

Definition plus_mul_helper (fuel : nat) (env : eaddr) (params : ptr)
           (is_add : bool) (identity : double) : M ptr :=
  result ← plus_mul_loop fuel env params is_add identity;
  cell ← make_number result;
  mret (Some cell).

Definition atom_plus (fuel : nat) (env : eaddr) (params : ptr) : M ptr :=
  plus_mul_helper fuel env params true (Double.of_Z 0).

Definition atom_mul (fuel : nat) (env : eaddr) (params : ptr) : M ptr :=
  plus_mul_helper fuel env params false (Double.of_Z 1).

(** ** Booleans, pairs and lists *)

Definition atom_boolean_q (env : eaddr) (params : ptr) : M ptr :=
  type_q_helper env params TYPE_BOOLEAN.

Definition atom_not (env : eaddr) (params : ptr) : M ptr :=
  x ← car params;
  obj ← eval env x;
  d ← deref obj;
  let is_truthy := match d with Boolean b => b | _ => true end in
  mret (bool_cell (negb is_truthy)).

Definition atom_pair_q (env : eaddr) (params : ptr) : M ptr :=
  type_q_helper env params TYPE_PAIR.

Definition atom_cons (env : eaddr) (params : ptr) : M ptr :=
  first ← nth_param_any env params 1;
  second ← nth_param_any env params 2;
  cell ← cons first second;
  mret (Some cell).

Definition atom_car (env : eaddr) (params : ptr) : M ptr :=
  list ← nth_param env params 1 TYPE_PAIR; car list.

Definition atom_cdr (env : eaddr) (params : ptr) : M ptr :=
  list ← nth_param env params 1 TYPE_PAIR; cdr list.

Definition set_car_cdr_helper (env : eaddr) (params : ptr) (is_car : bool)
  : M ptr :=
  pair ← nth_param env params 1 TYPE_PAIR;
  rest ← cdr params;
  e ← car rest;
  obj ← eval env e;
  (if is_car then set_car pair obj else set_cdr pair obj) ;;
  mret pair.

Definition atom_set_car_b (env : eaddr) (params : ptr) : M ptr :=
  set_car_cdr_helper env params true.

Definition atom_set_cdr_b (env : eaddr) (params : ptr) : M ptr :=
  set_car_cdr_helper env params false.

(** The test of [atom_null_q] on the payload of its argument. *)
Definition is_empty_pair (d : Data) : bool :=
  match d with Pair None None => true | _ => false end.

Definition atom_null_q (env : eaddr) (params : ptr) : M ptr :=
  obj ← nth_param_any env params 1;
  d ← deref obj;
  mret (bool_cell (is_empty_pair d)).

Definition atom_list_q (env : eaddr) (params : ptr) : M ptr :=
  obj ← nth_param_any env params 1;
  d ← deref obj;
  match d with
  | Pair _ (Some rest) =>
      dr ← deref (Some rest); mret (bool_cell (has_type dr TYPE_PAIR))
  | Pair _ None => mret (bool_cell true)
  | _ => mret (bool_cell false)
  end.

(** The [for (;;)] of [atom_list] has no exit. *)
Fixpoint list_loop (fuel : nat) (env : eaddr) (result : ptr) (params : ptr)
  : M ptr :=
  match fuel with
  | O => timeout
  | S n =>
      x ← car params;
      v ← eval env x;
      set_car result v ;;
      c ← cons None None;
      set_cdr result (Some c) ;;
      params' ← cdr params;
      list_loop n env result params'
  end.

Definition atom_list (fuel : nat) (env : eaddr) (params : ptr) : M ptr :=
  result ← cons None None;
  list_loop fuel env (Some result) params.

Fixpoint length_loop (fuel : nat) (list : ptr) (length : Z) : M Z :=
  match fuel with
  | O => timeout
  | S n =>
      match list with
      | None => mret length
      | Some _ =>
          d ← deref list;
          type_check TYPE_PAIR (type_of d) ;;
          match d with
          | Pair _ rest => length_loop n rest (length + 1)
          | _ => crash
          end
      end
  end.

Definition atom_length (fuel : nat) (env : eaddr) (params : ptr) : M ptr :=
  x ← car params;
  list ← eval env x;
  length ← length_loop fuel list 1;
  cell ← make_number (Double.of_Z length);
  mret (Some cell).

Definition duplicate (list : ptr) : M ptr :=
  match list with
  | None => mret None
  | Some _ =>
      d ← deref list;
      match d with
      | Pair a b => cell ← cons a b; mret (Some cell)
      | _ => crash
      end
  end.

Fixpoint append_walk (fuel : nat) (current : ptr) (b : ptr) : M unit :=
  match fuel with
  | O => timeout
  | S n =>
      rest ← cdr current;
      match rest with
      | None => set_cdr current b
      | Some _ => append_walk n rest b
      end
  end.

Definition append_destructive (fuel : nat) (a b : ptr) : M ptr :=
  match a with
  | None => mret b
  | Some _ => append_walk fuel a b ;; mret a
  end.

(** The loop of [atom_append] over the parameter number [n]. *)
Fixpoint append_loop (fuel : nat) (env : eaddr) (params : ptr) (n : nat)
         (result : ptr) : M ptr :=
  match fuel with
  | O => timeout
  | S k =>
      list ← nth_param_optional env params n TYPE_PAIR;
      match list with
      | None => mret result
      | Some _ =>
          copy ← duplicate list;
          result' ← append_destructive k result copy;
          append_loop k env params (S n) result'
      end
  end.

Definition atom_append (fuel : nat) (env : eaddr) (params : ptr) : M ptr :=
  append_loop fuel env params 1 None.

(** ** Strings *)

Definition atom_string_q (env : eaddr) (params : ptr) : M ptr :=
  type_q_helper env params TYPE_STRING.

Definition atom_string_length (env : eaddr) (params : ptr) : M ptr :=
  string ← nth_param env params 1 TYPE_STRING;
  d ← deref string;
  match d with
  | String_ buf => cell ← make_number (Double.of_Z (strlen buf));
                   mret (Some cell)
  | _ => crash
  end.

(** The body of [atom_string_ref] once both parameters are in hand: the
    bounds test as the source writes it, then the read of
    [string->data.string[k]]. *)
Definition string_ref (buf : list ascii) (k : Z) : M ptr :=
  if (k <? 0) || (k <? strlen buf) then
    signal_error "k is not a valid index of the given string"
  else
    match buf !! Z.to_nat k with
    | Some c => cell ← make_character c; mret (Some cell)
    | None => crash
    end.

Definition atom_string_ref (env : eaddr) (params : ptr) : M ptr :=
  string ← nth_param env params 1 TYPE_STRING;
  k ← nth_param_integer env params 2;
  d ← deref string;
  match d with
  | String_ buf => string_ref buf k
  | _ => crash
  end.

Definition atom_string_set (env : eaddr) (params : ptr) : M ptr :=
  string ← nth_param env params 1 TYPE_STRING;
  k ← nth_param_integer env params 2;
  c ← nth_param env params 3 TYPE_CHARACTER;
  d ← deref string;
  dc ← deref c;
  match d, dc, string with
  | String_ buf, Character ch, Some a =>
      if (k <? 0) || (strlen buf <=? k) then
        signal_error "invalid string index"
      else
        store a (String_ (<[Z.to_nat k := ch]> buf)) ;; mret string
  | _, _, _ => crash
  end.

(** ** Ports *)

Definition atom_input_port_q (env : eaddr) (params : ptr) : M ptr :=
  type_q_helper env params TYPE_INPUT_PORT.

Definition atom_output_port_q (env : eaddr) (params : ptr) : M ptr :=
  type_q_helper env params TYPE_OUTPUT_PORT.

(** The handle in the union of a port cell, whichever member is read. *)
Definition port_handle (d : Data) : M FILE :=
  match d with
  | InputPort f => mret f
  | OutputPort f => mret f
  | _ => crash
  end.

Definition atom_close_input_port (env : eaddr) (params : ptr) : M ptr :=
  port ← nth_param env params 1 TYPE_INPUT_PORT;
  d ← deref port;
  f ← port_handle d;
  fclose f ;;
  mret (bool_cell false).

Definition atom_close_output_port (env : eaddr) (params : ptr) : M ptr :=
  port ← nth_param env params 1 TYPE_OUTPUT_PORT;
  d ← deref port;
  f ← port_handle d;
  fclose f ;;
  mret (bool_cell false).

Definition atom_current_input_port (env : eaddr) (params : ptr) : M ptr :=
  m ← get_machine;
  cell ← make_input_port (cont_input (cont m));
  mret (Some cell).

Definition atom_current_output_port (env : eaddr) (params : ptr) : M ptr :=
  m ← get_machine;
  cell ← make_output_port (cont_output (cont m));
  mret (Some cell).

Definition get_output_port (env : eaddr) (params : ptr) (n : nat) : M FILE :=
  port ← nth_param_optional env params n TYPE_OUTPUT_PORT;
  match port with
  | Some _ => d ← deref port; port_handle d
  | None => m ← get_machine; mret (cont_output (cont m))
  end.

(** [atom_write] and [atom_display].  The order in which the two arguments
    of the call to [print] are evaluated is unspecified in C++: here the
    port comes first. *)
Definition atom_write (fuel : nat) (env : eaddr) (params : ptr) : M ptr :=
  output ← get_output_port env params 2;
  obj ← nth_param_any env params 1;
  print fuel output obj false ;;
  mret (bool_cell false).

Definition atom_display (fuel : nat) (env : eaddr) (params : ptr) : M ptr :=
  output ← get_output_port env params 2;
  obj ← nth_param_any env params 1;
  print fuel output obj true ;;
  mret (bool_cell false).

Definition atom_error (env : eaddr) (params : ptr) : M ptr :=
  message ← nth_param_any env params 1;
  d ← deref message;
  match d with
  | String_ buf => signal_error (string_of_list_ascii (c_str buf))
  | _ => signal_error "Error"
  end.

(** ** Application of a closure *)

(** The loop of [eval] that binds the formals in [new_env], evaluating the
    arguments in [env]. *)
Fixpoint bind_formals (fuel : nat) (env new_env : eaddr)
         (formals params : ptr) : M unit :=
  match fuel with
  | O => timeout
  | S n =>
      match formals with
      | None => mret tt
      | Some _ =>
          f ← car formals;
          match f with
          | None => rest ← cdr formals; bind_formals n env new_env rest params
          | Some _ =>
              df ← deref f;
              match df with
              | Symbol name =>
                  x ← car params;
                  value ← eval env x;
                  environment_define new_env name value ;;
                  params' ← cdr params;
                  rest ← cdr formals;
                  bind_formals n env new_env rest params'
              | _ => crash
              end
          end
      end
  end.

(** The loop over the body: the last statement is the tail call. *)
Fixpoint eval_body (fuel : nat) (new_env : eaddr) (statement : ptr)
  : M ptr :=
  match fuel with
  | O => timeout
  | S n =>
      match statement with
      | None => crash
      | Some _ =>
          rest ← cdr statement;
          x ← car statement;
          match rest with
          | None => eval new_env x
          | Some _ => eval new_env x ;; eval_body n new_env rest
          end
      end
  end.

(** The function a procedure cell points to. *)
Definition call (f : atom_function) (fuel : nat) (env : eaddr)
           (params : ptr) : M ptr :=
  match f with
  | fn_quote => atom_quote env params
  | fn_lambda => atom_lambda env params
  | fn_if => atom_if env params
  | fn_set_b => atom_set_b fuel env params
  | fn_and => atom_and fuel env params
  | fn_or => atom_or fuel env params
  | fn_begin => atom_begin fuel env params
  | fn_define => atom_define env params
  | fn_eqv_q => atom_eqv_q fuel env params
  | fn_eq_q => atom_eq_q fuel env params
  | fn_equal_q => atom_equal_q fuel env params
  | fn_plus => atom_plus fuel env params
  | fn_mul => atom_mul fuel env params
  | fn_not => atom_not env params
  | fn_boolean_q => atom_boolean_q env params
  | fn_pair_q => atom_pair_q env params
  | fn_cons => atom_cons env params
  | fn_car => atom_car env params
  | fn_cdr => atom_cdr env params
  | fn_set_car_b => atom_set_car_b env params
  | fn_set_cdr_b => atom_set_cdr_b env params
  | fn_null_q => atom_null_q env params
  | fn_list_q => atom_list_q env params
  | fn_list => atom_list fuel env params
  | fn_length => atom_length fuel env params
  | fn_append => atom_append fuel env params
  | fn_string_q => atom_string_q env params
  | fn_string_length => atom_string_length env params
  | fn_string_ref => atom_string_ref env params
  | fn_string_set => atom_string_set env params
  | fn_close_input_port => atom_close_input_port env params
  | fn_close_output_port => atom_close_output_port env params
  | fn_input_port_q => atom_input_port_q env params
  | fn_output_port_q => atom_output_port_q env params
  | fn_current_input_port => atom_current_input_port env params
  | fn_current_output_port => atom_current_output_port env params
  | fn_write => atom_write fuel env params
  | fn_display => atom_display fuel env params
  | fn_error => atom_error env params
  end.

End Builtins.

(** ** The evaluator *)

Fixpoint eval (fuel : nat) (env : eaddr) (cell : ptr) : M ptr :=
  match fuel with
  | O => timeout
  | S n =>
      d ← deref cell;
      match d with
      | Boolean _ | Number _ | String_ _ | Character _ | Vector _ => mret cell
      | Symbol _ => environment_get n env cell
      | Pair symbol params =>
          match symbol with
          | None => signal_error "missing procedure in expression"
          | Some _ =>
              ds ← deref symbol;
              type_check TYPE_SYMBOL (type_of ds) ;;
              let name := match ds with Symbol s => s | _ => EmptyString end in
              function ← environment_get n env symbol;
              match function with
              | None => signal_error ("Undefined symbol '" ++ name ++ "'")%string
              | Some _ =>
                  df ← deref function;
                  match df with
                  | Procedure (Some f) _ _ _ => call (eval n) f n env params
                  | Procedure None formals body penv =>
                      env_cont penv ;;
                      new_env ← create_environment penv;
                      bind_formals (eval n) n env new_env formals params ;;
                      eval_body (eval n) n new_env body
                  | _ => signal_error (name ++ " is not a function")%string
                  end
              end
          end
      | _ => crash
      end
  end.

(** ** The interpreter handle and the top-level driver *)

Definition add_builtin (env : eaddr) (name : string) (function : atom_function)
  : M unit :=
  cell ← make_cell (Procedure (Some function) None None None);
  environment_define env name (Some cell).

(** The built-ins of the model: 39 of the 89 procedures that
    [atom_api_open] adds, in its order.  The others, [load] and the file
    ports among them, are not bound here: a program that calls one of them
    is not covered, and the numbers of cells that a collection prints are
    those of this list. *)
Definition builtins : list (string * atom_function) :=
  [("quote", fn_quote); ("lambda", fn_lambda); ("if", fn_if);
   ("set!", fn_set_b); ("and", fn_and); ("or", fn_or); ("begin", fn_begin);
   ("define", fn_define);
   ("eqv?", fn_eqv_q); ("eq?", fn_eq_q); ("equal?", fn_equal_q);
   ("+", fn_plus); ("*", fn_mul);
   ("not", fn_not); ("boolean?", fn_boolean_q);
   ("pair?", fn_pair_q); ("cons", fn_cons); ("car", fn_car); ("cdr", fn_cdr);
   ("set-car!", fn_set_car_b); ("set-cdr!", fn_set_cdr_b);
   ("null?", fn_null_q); ("list?", fn_list_q); ("list", fn_list);
   ("length", fn_length); ("append", fn_append);
   ("string?", fn_string_q); ("string-length", fn_string_length);
   ("string-ref", fn_string_ref); ("string-set!", fn_string_set);
   ("close-input-port", fn_close_input_port);
   ("close-output-port", fn_close_output_port);
   ("input-port?", fn_input_port_q); ("output-port?", fn_output_port_q);
   ("current-input-port", fn_current_input_port);
   ("current-output-port", fn_current_output_port);
   ("write", fn_write); ("display", fn_display);
   ("error", fn_error)]%string.

(** Memory before [atom_api_open]: the two static cells. *)
Definition static_heap : gmap addr Cell :=
  <[cell_true := mkCell (Boolean true) false]>
    (<[cell_false := mkCell (Boolean false) false]> ∅).

Definition boot : Machine :=
  mkMachine static_heap ∅ (mkCont 1%positive [] 0 0 stdin stdout) [] [].

Definition atom_api_open : M unit :=
  env ← create_environment None;
  modify (set_cont (mkCont env [] 0 0 stdin stdout)) ;;
  forM_ builtins (fun b => add_builtin env (fst b) (snd b)).

(** The machine [atom_api_open] returns. *)
Definition opened_machine : Machine := snd (atom_api_open boot).

Definition set_escape (n : nat) : M unit :=
  modify (fun m =>
    let c := cont m in
    set_cont (mkCont (cont_env c) (cont_cells c) n (cont_allocated c)
                     (cont_input c) (cont_output c)) m).

(** [setjmp]: a [longjmp] out of [body] resumes in [handler]. *)
Definition catch {A} (body : M A) (handler : M A) : M A := fun m =>
  match body m with
  | (Error _, m') => handler m'
  | r => r
  end.

(** The read-eval-print loop of [atom_api_load]. *)
Fixpoint load_loop (fuel : nat) (env : eaddr) (tokens : TokenList) : M unit :=
  match fuel with
  | O => timeout
  | S n =>
      '(cell, tokens') ← parse_datum n tokens;
      match cell with
      | None => print n stdout cell false
      | Some _ =>
          fprintf stdout "parsed> " ;;
          print n stdout cell false ;;
          result ← eval n env cell;
          print n stdout result false ;;
          load_loop n env tokens'
      end
  end.

Definition atom_api_load (fuel : nat) (data : string) : M unit :=
  m ← get_machine;
  let env := cont_env (cont m) in
  let prev := cont_escape (cont m) in
  catch
    (set_escape (S prev) ;;
     tokens ← tokenize data 1000;
     load_loop fuel env tokens)
    (fprintf stdout ("Recovering from an error" ++ nl)%string) ;;
  collect_garbage fuel ;;
  set_escape prev.

(** What a run wrote to one stream. *)
Definition output_of (f : FILE) (m : Machine) : string :=
  String.concat "" (map snd (filter (fun w => bool_decide (fst w = f)) (written m))).

(** ** More built-in procedures

    Built-ins of [atom_api_open] that the table [builtins] above leaves
    out, each as the C function is written, over the [eval] they call. *)

(** The largest [int]. *)
Definition INT_MAX : Z := 2 ^ 31 - 1.

(** The [double] operators the functions below use. *)
Definition double_ltb : double -> double -> bool := SFltb.
Definition double_leb : double -> double -> bool := SFleb.

(** The comparators of the [comparison_helper] template: [Equal], [Less],
    [Greater], [LessEq], [GreaterEq]. *)
Inductive Compare := Equal | Less | Greater | LessEq | GreaterEq.

Definition compare (c : Compare) (a b : double) : bool :=
  match c with
  | Equal => Double.eqb a b
  | Less => double_ltb a b
  | Greater => double_ltb b a
  | LessEq => double_leb a b
  | GreaterEq => double_leb b a
  end.

(** [valid_vector_index]. *)
Definition valid_vector_index (data : list ptr) (k : Z) : bool :=
  (0 <=? k) && (k <? Z.of_nat (length data)).

(** [vector->data.vector.data[i] = v]. *)
Definition vector_store (vector : addr) (i : nat) (v : ptr) : M unit :=
  d ← deref (Some vector);
  match d with
  | Vector data =>
      if (i <? length data)%nat then store vector (Vector (<[i := v]> data))
      else crash
  | _ => crash
  end.

(** The first loop of [atom_list_to_vector], as of [atom_vector]: the
    number of pairs from [p] to the null pointer. *)
Fixpoint count_loop (fuel : nat) (p : ptr) (length : nat) : M nat :=
  match fuel with
  | O => timeout
  | S n =>
      match p with
      | None => mret length
      | Some _ => rest ← cdr p; count_loop n rest (S length)
      end
  end.

(** The second loop of [atom_list_to_vector]. *)
Fixpoint list_to_vector_loop (fuel : nat) (vector : addr) (cell : ptr)
         (i : nat) : M unit :=
  match fuel with
  | O => timeout
  | S n =>
      match cell with
      | None => mret tt
      | Some _ =>
          x ← car cell;
          vector_store vector i x ;;
          rest ← cdr cell;
          list_to_vector_loop n vector rest (S i)
      end
  end.

(** The loop of [atom_vector_to_list], over the elements from the last to
    the first. *)
Fixpoint vector_to_list_loop (elements : list ptr) (list : ptr) : M ptr :=
  match elements with
  | [] => mret list
  | x :: rest => c ← cons x list; vector_to_list_loop rest (Some c)
  end.

Section MoreBuiltins.

Variable eval : eaddr -> ptr -> M ptr.

(** *** Conditionals and binding constructs *)

(** The inner loop of [atom_cond] over the expressions of the selected
    clause. *)
Fixpoint cond_body (fuel : nat) (env : eaddr) (expr : ptr) (last_result : ptr)
  : M ptr :=
  match fuel with
  | O => timeout
  | S n =>
      match expr with
      | None => mret last_result
      | Some _ =>
          x ← car expr;
          result ← eval env x;
          rest ← cdr expr;
          cond_body n env rest result
      end
  end.

Fixpoint cond_loop (fuel : nat) (env : eaddr) (clause : ptr) : M ptr :=
  match fuel with
  | O => timeout
  | S n =>
      match clause with
      | None => mret (bool_cell false)
      | Some _ =>
          test ← car clause;
          t ← car test;
          dt ← deref t;
          skipped ←
            match dt with
            | Symbol "else" => mret false
            | _ => result ← eval env t; is_false result
            end;
          if (skipped : bool) then
            rest ← cdr clause; cond_loop n env rest
          else
            exprs ← cdr test; cond_body n env exprs None
      end
  end.

Definition atom_cond (fuel : nat) (env : eaddr) (params : ptr) : M ptr :=
  cond_loop fuel env params.

(** The loop of [let_helper] over the bindings. *)
Fixpoint let_bindings (fuel : nat) (target child : eaddr) (b : ptr) : M unit :=
  match fuel with
  | O => timeout
  | S n =>
      match b with
      | None => mret tt
      | Some _ =>
          pair ← car b;
          symbol ← car pair;
          d ← deref symbol;
          type_check TYPE_SYMBOL (type_of d) ;;
          rest ← cdr pair;
          e ← car rest;
          init ← eval target e;
          match d with
          | Symbol name =>
              environment_define child name init ;;
              next ← cdr b;
              let_bindings n target child next
          | _ => crash
          end
      end
  end.

Definition let_helper (fuel : nat) (env : eaddr) (params : ptr) (star : bool)
  : M ptr :=
  bindings ← car params;
  body ← cdr params;
  match body with
  | None => signal_error "No expression in body"
  | Some _ =>
      child ← create_environment (Some env);
      let target := if star then child else env in
      let_bindings fuel target child bindings ;;
      begin_loop eval fuel child body None
  end.

Definition atom_let (fuel : nat) (env : eaddr) (params : ptr) : M ptr :=
  let_helper fuel env params false.

Definition atom_let_s (fuel : nat) (env : eaddr) (params : ptr) : M ptr :=
  let_helper fuel env params true.

(** *** Numerical comparison *)

(** The [for (;;)] of [comparison_helper], entered with the cell [a] of the
    previous number. *)
Fixpoint comparison_loop (fuel : nat) (c : Compare) (env : eaddr)
         (params : ptr) (a : ptr) : M ptr :=
  match fuel with
  | O => timeout
  | S n =>
      params' ← cdr params;
      b ← nth_param eval env params' 1 TYPE_NUMBER;
      da ← deref a;
      db ← deref b;
      match da, db with
      | Number x, Number y =>
          if negb (compare c x y) then mret (bool_cell false)
          else
            rest ← cdr params';
            match rest with
            | None => mret (bool_cell true)
            | Some _ => comparison_loop n c env params' b
            end
      | _, _ => crash
      end
  end.

Definition comparison_helper (fuel : nat) (c : Compare) (env : eaddr)
           (params : ptr) : M ptr :=
  a ← nth_param eval env params 1 TYPE_NUMBER;
  comparison_loop fuel c env params a.

Definition atom_comapre_equal (fuel : nat) (env : eaddr) (params : ptr)
  : M ptr := comparison_helper fuel Equal env params.
Definition atom_compare_less (fuel : nat) (env : eaddr) (params : ptr)
  : M ptr := comparison_helper fuel Less env params.
Definition atom_compare_greater (fuel : nat) (env : eaddr) (params : ptr)
  : M ptr := comparison_helper fuel Greater env params.
Definition atom_compare_less_equal (fuel : nat) (env : eaddr) (params : ptr)
  : M ptr := comparison_helper fuel LessEq env params.
Definition atom_compare_greater_equal (fuel : nat) (env : eaddr) (params : ptr)
  : M ptr := comparison_helper fuel GreaterEq env params.

(** *** Symbols and strings *)

Definition atom_symbol_to_string (env : eaddr) (params : ptr) : M ptr :=
  symbol ← nth_param eval env params 1 TYPE_SYMBOL;
  d ← deref symbol;
  match d with
  | Symbol data =>
      result ← make_cell (String_ (c_str (list_ascii_of_string data) ++ [NUL]));
      mret (Some result)
  | _ => crash
  end.

Definition atom_string_to_symbol (env : eaddr) (params : ptr) : M ptr :=
  symbol ← nth_param eval env params 1 TYPE_STRING;
  d ← deref symbol;
  match d with
  | String_ data =>
      result ← make_cell (Symbol (string_of_list_ascii (c_str data)));
      mret (Some result)
  | _ => crash
  end.

(** [malloc(k + 1)] adds on [int]: at [INT_MAX] the sum overflows, which is
    undefined. *)
Definition atom_make_string (env : eaddr) (params : ptr) : M ptr :=
  k ← nth_param_integer eval env params 1;
  second ← optional_second_param eval env params;
  fill ←
    match second with
    | None => mret NUL
    | Some _ =>
        d ← deref second;
        type_check TYPE_CHARACTER (type_of d) ;;
        match d with Character c => mret c | _ => crash end
    end;
  if k <? 0 then signal_error "positive integer length required"
  else if INT_MAX <? k + 1 then crash
  else
    result ← make_cell (String_ (replicate (Z.to_nat k) fill ++ [NUL]));
    mret (Some result).

(** *** Vectors *)

Definition atom_vector_ref (env : eaddr) (params : ptr) : M ptr :=
  v ← nth_param eval env params 1 TYPE_VECTOR;
  k ← nth_param_integer eval env params 2;
  d ← deref v;
  match d with
  | Vector data =>
      if negb (valid_vector_index data k) then
        signal_error "Invalid vector index"
      else
        match data !! Z.to_nat k with
        | Some (Some result) => mret (Some result)
        | Some None => signal_error "Cannot access unitialized vector"
        | None => crash
        end
  | _ => crash
  end.

Definition atom_vector_set_b (env : eaddr) (params : ptr) : M ptr :=
  vector ← nth_param eval env params 1 TYPE_VECTOR;
  k ← nth_param_integer eval env params 2;
  obj ← nth_param_any eval env params 3;
  d ← deref vector;
  match d, vector with
  | Vector data, Some a =>
      if negb (valid_vector_index data k) then
        signal_error "Invalid vector index k"
      else
        store a (Vector (<[Z.to_nat k := obj]> data)) ;; mret obj
  | _, _ => crash
  end.

Definition atom_vector_to_list (env : eaddr) (params : ptr) : M ptr :=
  vector ← nth_param eval env params 1 TYPE_VECTOR;
  d ← deref vector;
  match d with
  | Vector data => vector_to_list_loop (rev data) None
  | _ => crash
  end.

Definition atom_list_to_vector (fuel : nat) (env : eaddr) (params : ptr)
  : M ptr :=
  list ← nth_param eval env params 1 TYPE_PAIR;
  length ← count_loop fuel list 0;
  vector ← make_vector length None;
  list_to_vector_loop fuel vector list 0 ;;
  mret (Some vector).

End MoreBuiltins.

(** * Vocabulary of the properties *)

(** ** Reading, writing and running *)

(** The reader on a text: the first datum of its token stream. *)
Definition read (fuel : nat) (text : string) : M ptr :=
  tokens ← tokenize text 1000;
  '(datum, _) ← parse_datum fuel tokens;
  mret datum.

(** Read a datum, write it as [write] does, read the text back and compare
    the two with the comparator of [equal?]. *)
Definition round_trip (fuel : nat) (text : string) : M (string * bool) :=
  d ← read fuel text;
  s ← print_rec fuel d false true;
  d' ← read fuel s;
  same ← eq_helper fuel d d' true true;
  mret (s, same).

(** The interpreter after [atom_api_open], with an escape point installed
    as inside [atom_api_load]. *)
Definition ready : Machine := snd (set_escape 1 opened_machine).

Definition root : eaddr := cont_env (cont ready).

(** Read one expression and evaluate it in the top-level environment. *)
Definition eval_text (fuel : nat) (text : string) : M ptr :=
  d ← read fuel text; eval fuel root d.

(** A whole [atom_api_load] on a fresh interpreter: the outcome, what went
    to [stdout] and to [stderr], and the handles closed. *)
Definition run (text : string) : Outcome unit * string * string * list FILE :=
  let r := atom_api_load 200 text opened_machine in
  (fst r, output_of stdout (snd r), output_of stderr (snd r), closed (snd r)).

(** A string literal of the language. *)
Definition quoted (s : string) : string :=
  String DQUOTE (s ++ String DQUOTE EmptyString).

(** ** Outcomes *)

(** A computation that has no normal return. *)
Definition never_ok {A} (c : M A) : Prop := forall m v m', c m <> (Ok v, m').

(** A computation that ends in [signal_error]. *)
Definition signals {A} (c : M A) (m : Machine) : Prop :=
  exists msg m', c m = (Error msg, m').

(** ** Cells and lists in memory *)

(** The payload a pointer leads to. *)
Definition points_to (m : Machine) (a : addr) (d : Data) : Prop :=
  cell_data <$> heap m !! a = Some d.

(** The machine after [make_cell d] and after a store through [a]. *)
Definition alloc (d : Data) (m : Machine) : Machine := snd (make_cell d m).
Definition write (a : addr) (d : Data) (m : Machine) : Machine :=
  snd (store a d m).

(** [lseg m p cells q]: from [p], the pairs at the addresses of [cells],
    with the given cars, lead to [q]. *)
Fixpoint lseg (m : Machine) (p : ptr) (cells : list (addr * ptr)) (q : ptr)
  : Prop :=
  match cells with
  | [] => p = q
  | (a, x) :: rest =>
      p = Some a /\ exists next, points_to m a (Pair x next) /\ lseg m next rest q
  end.

(** A proper list: a chain of pairs ended by the null pointer. *)
Definition proper_list (m : Machine) (p : ptr) (cells : list (addr * ptr))
  : Prop :=
  lseg m p cells None.

(** ** Bindings along a chain of frames *)

Definition bucket_of (f : Environment) (symbol : string) : option (list Node) :=
  env_data f !! bucket_index (env_mask f) (MurmurHash2 symbol).

(** [unbound E s e n]: none of the [n] frames from [e] up to the root has a
    node for [s]. *)
Inductive unbound (E : gmap eaddr Environment) (symbol : string)
  : eaddr -> nat -> Prop :=
| unbound_root e f bucket :
    E !! e = Some f -> bucket_of f symbol = Some bucket ->
    find_node symbol bucket = None -> env_parent f = None ->
    unbound E symbol e 1
| unbound_frame e f bucket parent n :
    E !! e = Some f -> bucket_of f symbol = Some bucket ->
    find_node symbol bucket = None -> env_parent f = Some parent ->
    unbound E symbol parent n ->
    unbound E symbol e (S n).

(** [nearest E s e n e']: [e'] is the first of the frames from [e] with a
    node for [s], the [n]th on the chain. *)
Inductive nearest (E : gmap eaddr Environment) (symbol : string)
  : eaddr -> nat -> eaddr -> Prop :=
| nearest_here e f bucket v :
    E !! e = Some f -> bucket_of f symbol = Some bucket ->
    find_node symbol bucket = Some v ->
    nearest E symbol e 1 e
| nearest_above e f bucket parent n e' :
    E !! e = Some f -> bucket_of f symbol = Some bucket ->
    find_node symbol bucket = None -> env_parent f = Some parent ->
    nearest E symbol parent n e' ->
    nearest E symbol e (S n) e'.

(** The frame after [node->value = value] on its node for [symbol]. *)
Definition assign (f : Environment) (symbol : string) (value : ptr)
  : Environment :=
  match bucket_of f symbol with
  | Some bucket =>
      match update_node symbol value bucket with
      | Some bucket' =>
          mkEnv (env_parent f)
                (<[bucket_index (env_mask f) (MurmurHash2 symbol) := bucket']>
                   (env_data f))
                (env_mask f)
      | None => f
      end
  | None => f
  end.

(** ** Changes of the memory of cells *)

(** The two static cells hold their booleans and are not on the list of
    allocated cells. *)
Definition statics_ok (m : Machine) : Prop :=
  points_to m cell_true (Boolean true) /\
  points_to m cell_false (Boolean false) /\
  (cell_true ∉ cont_cells (cont m)) /\
  (cell_false ∉ cont_cells (cont m)).

(** The streams of the continuation are the standard ones, and no port in
    memory holds the standard stream of the other direction. *)
Definition streams_ok (m : Machine) : Prop :=
  cont_input (cont m) = stdin /\
  cont_output (cont m) = stdout /\
  (forall a f, points_to m a (InputPort f) -> f <> stdout) /\
  (forall a f, points_to m a (OutputPort f) -> f <> stdin).

(** The payloads a run may allocate.  A port is made on the stream of the
    continuation; the built-in procedures of [call] allocate no boolean. *)
Definition standard_port (m : Machine) (d : Data) : Prop :=
  match d with
  | InputPort f => f = cont_input (cont m)
  | OutputPort f => f = cont_output (cont m)
  | _ => True
  end.

Definition evaluated (m : Machine) (d : Data) : Prop :=
  type_of d <> TYPE_BOOLEAN /\ standard_port m d.

(** The payloads that are stored into a cell after its allocation. *)
Definition mutable (d : Data) : Prop :=
  match d with
  | Pair _ _ | String_ _ | Vector _ => True
  | _ => False
  end.

(** The handles the collector leaves open, and those it may close. *)
Definition standard (f : FILE) : Prop := f = stdin \/ f = stdout.
Definition collectable (f : FILE) : Prop := f <> stdin /\ f <> stdout.

(** The handles that a sweep of the machine may give to [fclose] are among
    [closes]. *)
Definition closes_ports (closes : FILE -> Prop) (m : Machine) : Prop :=
  forall a f,
    (points_to m a (InputPort f) -> f <> stdin -> closes f) /\
    (points_to m a (OutputPort f) -> f <> stdout -> closes f).

(** What the changes of the frames, of the escape point and of the text
    written leave alone. *)
Definition same_store (m m' : Machine) : Prop :=
  heap m' = heap m /\
  cont_cells (cont m') = cont_cells (cont m) /\
  cont_input (cont m') = cont_input (cont m) /\
  cont_output (cont m') = cont_output (cont m) /\
  closed m' = closed m.

(** One change of the machine: an allocation, a store that keeps the type
    of a pair, a string or a vector, an update of a mark bit, the release of
    an allocated cell, a new list of allocated cells taken from the old one,
    a call of [fclose]; or a change that leaves all of these alone. *)
Inductive step (allowed : Machine -> Data -> Prop) (closes : FILE -> Prop)
  : Machine -> Machine -> Prop :=
| step_alloc m d : allowed m d -> step allowed closes m (alloc d m)
| step_write m a d d0 :
    points_to m a d0 -> type_of d0 = type_of d -> mutable d ->
    step allowed closes m (write a d m)
| step_mark m a b : step allowed closes m (snd (set_mark a b m))
| step_free m a :
    a ∈ cont_cells (cont m) -> step allowed closes m (snd (free_cell a m))
| step_cells m l :
    l ⊆ cont_cells (cont m) -> step allowed closes m (snd (set_cells l m))
| step_close m f : closes f -> step allowed closes m (snd (fclose f m))
| step_other m m' : same_store m m' -> step allowed closes m m'.

(** A computation whose effect on the machine is a sequence of such
    changes, whatever its outcome. *)
Definition traced (allowed : Machine -> Data -> Prop) (closes : FILE -> Prop)
    {A} (c : M A) : Prop :=
  forall m, rtc (step allowed closes) m (snd (c m)).

(** The machines the interpreter can be in between two loads. *)
Inductive reachable : Machine -> Prop :=
| reachable_open : reachable opened_machine
| reachable_load fuel data m :
    reachable m -> reachable (snd (atom_api_load fuel data m)).

(** ** Machines of the examples *)

(** After [(define xs '(1 2 3))] and [(define ys '(4 5))], with the
    expression [(append xs ys)] read but not evaluated. *)
Definition m_lists : Machine :=
  snd (eval_text 30 "(define ys '(4 5))"
         (snd (eval_text 30 "(define xs '(1 2 3))" ready))).
Definition m_append : Machine := snd (read 30 "(append xs ys)" m_lists).

(** The same with [xs] a list of one pair: after [(define xs '(1))] and
    [(define ys '(4 5))]. *)
Definition m_append_short : Machine :=
  snd (read 30 "(append xs ys)"
         (snd (eval_text 30 "(define ys '(4 5))"
                 (snd (eval_text 30 "(define xs '(1))" ready))))).

(** The expressions [(length '(1 2 3))], [(null? '())] and
    [(close-output-port (current-output-port))], read but not evaluated. *)
Definition m_length : Machine := snd (read 30 "(length '(1 2 3))" ready).
Definition m_null : Machine := snd (read 30 "(null? '())" ready).
Definition m_close : Machine :=
  snd (read 30 "(close-output-port (current-output-port))" ready).

(** ** Computations that only read *)

(** A computation that leaves the machine as it was, whatever its
    outcome. *)
Definition read_only {A} (c : M A) : Prop := forall m, snd (c m) = m.

(** ** Marks and links between cells *)

(** The mark bit of the cell at an address. *)
Definition marked (m : Machine) (a : addr) : bool :=
  match heap m !! a with Some c => cell_mark c | None => false end.

(** [m'] is [m] with some more mark bits set. *)
Definition marks_more (m m' : Machine) : Prop :=
  envs m' = envs m /\ cont m' = cont m /\ closed m' = closed m
  /\ written m' = written m
  /\ forall a, cell_data <$> heap m' !! a = cell_data <$> heap m !! a
               /\ (marked m a = true -> marked m' a = true).

(** The values of the nodes of the frame [e] that [mark_environment]
    visits: those of the chains [0] to [mask]. *)
Definition frame_value (m : Machine) (e : eaddr) (x : addr) : Prop :=
  exists f i bucket node,
    envs m !! e = Some f /\ (i < Z.to_nat (env_mask f + 1))%nat
    /\ env_data f !! i = Some bucket /\ node ∈ bucket
    /\ node_value node = Some x.

(** The cells that [mark] goes to from a cell: the car and the cdr of a
    pair, the elements of a vector, the formals and the body of a closure
    and the values bound in the frame of the closure (not in the parents of
    that frame). *)
Inductive linked (m : Machine) : addr -> addr -> Prop :=
| linked_car a x y : points_to m a (Pair (Some x) y) -> linked m a x
| linked_cdr a x y : points_to m a (Pair x (Some y)) -> linked m a y
| linked_element a data x :
    points_to m a (Vector data) -> Some x ∈ data -> linked m a x
| linked_formals a x body e :
    points_to m a (Procedure None (Some x) body e) -> linked m a x
| linked_body a formals x e :
    points_to m a (Procedure None formals (Some x) e) -> linked m a x
| linked_frame a formals body e x :
    points_to m a (Procedure None formals body (Some e)) ->
    frame_value m e x -> linked m a x.

(** The cells the collector treats as in use: those that links lead to
    from the values bound in the frame of the continuation. *)
Definition live (m : Machine) (a : addr) : Prop :=
  exists r, frame_value m (cont_env (cont m)) r /\ rtc (linked m) r a.

(** Every cell that a marked cell links to is marked. *)
Definition marks_closed (m : Machine) : Prop :=
  forall a x, marked m a = true -> linked m a x -> marked m x = true.

(** A computation that only sets mark bits, whatever its outcome. *)
Definition only_marks {A} (c : M A) : Prop :=
  forall m, marks_more m (snd (c m)).

(** From [m] to [m'] mark bits were set, and every cell marked on the way
    has the cells it links to marked in [m']. *)
Definition marks_through (m m' : Machine) : Prop :=
  marks_more m m'
  /\ forall a x, marked m a = false -> marked m' a = true -> linked m a x ->
                 marked m' x = true.

(** The cells of [m] that are not marked are among [cells]. *)
Definition unmarked_in (cells : gset addr) (m : Machine) : Prop :=
  forall a c, heap m !! a = Some c -> cell_mark c = false -> a ∈ cells.

(** A computation that does not run out of fuel on the machines of [P],
    and stays among them. *)
Definition stops_on {A} (P : Machine -> Prop) (c : M A) : Prop :=
  forall m, P m -> fst (c m) <> Timeout /\ P (snd (c m)).

(** A machine with no marked cell, as the collector leaves the cells it
    keeps. *)
Definition unmarked (m : Machine) : Prop :=
  map_Forall (fun _ c => cell_mark c = false) (heap m).

(** Machines of the examples for the collector: two numbers of which the
    first is marked, and a pair that is its own car and cdr. *)
Definition m_one_marked : Machine :=
  snd (mark 5 (Some 3%positive)
         (alloc (Number (Double.of_Z 2)) (alloc (Number (Double.of_Z 1)) boot))).
Definition m_cycle : Machine :=
  write 3 (Pair (Some 3%positive) (Some 3%positive)) (alloc (Pair None None) boot).

(** ** Arguments of a call *)

(** [in_order ev env P m list results m']: the expressions of the proper
    list at [list] are evaluated one after the other, the first in [m],
    each of the others in the machine that the one before it left, and the
    last leaves [m'].  The cdr of a pair is read after the evaluation of its
    car.  [results] has, for each expression, the expression and what [P]
    reads off its value in the machine that its evaluation left. *)
Inductive in_order {B} (ev : eaddr -> ptr -> M ptr) (env : eaddr)
          (P : Machine -> ptr -> B -> Prop)
  : Machine -> ptr -> list (ptr * B) -> Machine -> Prop :=
| in_order_nil m : in_order ev env P m None [] m
| in_order_cons m a x next v m1 b next1 rest m2 :
    points_to m a (Pair x next) ->
    ev env x m = (Ok v, m1) ->
    P m1 v b ->
    cdr (Some a) m1 = (Ok next1, m1) ->
    in_order ev env P m1 next1 rest m2 ->
    in_order ev env P m (Some a) ((x, b) :: rest) m2.

(** What is read off a value: the value itself. *)
Definition the_value (m : Machine) (v : ptr) (b : ptr) : Prop := b = v.

(** The value of the last of the expressions, the null pointer when there
    is none. *)
Definition last_value (results : list (ptr * ptr)) : ptr :=
  match last results with
  | Some r => snd r
  | None => None
  end.

(** The parameter list [params] is a proper list of the pairs [cells],
    and its expressions evaluate to [values], each in the machine [m],
    which it leaves as it is (a literal, a variable, a quotation). *)
Definition arguments (ev : eaddr -> ptr -> M ptr) (env : eaddr) (m : Machine)
           (params : ptr) (cells : list (addr * ptr)) (values : list ptr)
  : Prop :=
  proper_list m params cells
  /\ Forall2 (fun cell v => ev env (snd cell) m = (Ok v, m)) cells values.

(** A number cell that holds the integer [k]. *)
Definition integer_cell (m : Machine) (a : addr) (k : Z) : Prop :=
  exists x, points_to m a (Number x)
            /\ Double.is_integer x = Some true /\ Double.to_int x = Some k.

(** A number cell. *)
Definition number_cell (m : Machine) (p : ptr) (x : double) : Prop :=
  exists a, p = Some a /\ points_to m a (Number x).

(** The machine of the examples for the vectors: [v] is bound to the
    vector [#(1 2 3)], and four calls are read but not evaluated. *)
Definition m_vectors : Machine :=
  snd (read 30 "((vector-set! v 1 7) (vector-ref v 1) (vector->list v) (list->vector xs))"
         (snd (eval_text 30 "(define v #(1 2 3))" m_lists))).

(** [holds_along c x ys]: the comparison [c] holds between each number and
    the next in [x :: ys]. *)
Fixpoint holds_along (c : Compare) (x : double) (ys : list double) : bool :=
  match ys with
  | [] => true
  | y :: rest => compare c x y && holds_along c y rest
  end.

(** The machines of the examples for the numbers: [(< 1 2 3)],
    [(+ 1 2 3)] and [(+ (+ 1 2) 3)], read but not evaluated. *)
Definition m_less : Machine := snd (read 30 "(< 1 2 3)" ready).
Definition m_sum : Machine := snd (read 30 "(+ 1 2 3)" ready).
Definition m_nested : Machine := snd (read 30 "(+ (+ 1 2) 3)" ready).

(** The fill of [make-string]: NUL without a second argument, else the
    character of the second argument. *)
Definition fill_of (m : Machine) (more : list ptr) (c : ascii) : Prop :=
  (more = [] /\ c = NUL)
  \/ exists a, more = [Some a] /\ points_to m a (Character c).

(** The machines of the examples for symbols and strings: a call of
    [symbol->string] read but not evaluated; then, with its result bound
    to [s], a call of [string->symbol]; and two calls of [make-string],
    the second with the largest [int]. *)
Definition m_symbol : Machine := snd (read 30 "(symbol->string 'abc)" ready).
Definition m_string : Machine :=
  snd (read 30 "(string->symbol s)"
         (snd (environment_define root "s" (Some (fresh (dom (heap m_symbol))))
                 (alloc (String_ (buffer_of "abc")) m_symbol)))).
Definition m_make_string : Machine := snd (read 30 "(make-string 3)" ready).
Definition m_make_string_max : Machine :=
  snd (read 30 "(make-string 2147483647)" ready).

(** ** Clauses of [cond] *)

(** A clause whose test is not the symbol [else] and evaluates to the
    boolean [#f], in a machine it leaves as it is. *)
Definition refused (ev : eaddr -> ptr -> M ptr) (env : eaddr) (m : Machine)
           (clause : addr * ptr) : Prop :=
  exists test t exprs d r,
    snd clause = Some test /\ points_to m test (Pair (Some t) exprs)
    /\ points_to m t d /\ d <> Symbol "else"
    /\ ev env (Some t) m = (Ok (Some r), m) /\ points_to m r (Boolean false).

(** The clause at [c] has the expressions [exprs], and its test is the
    symbol [else] or evaluates to something else than [#f]. *)
Definition selected (ev : eaddr -> ptr -> M ptr) (env : eaddr) (m : Machine)
           (c : addr) (exprs : ptr) : Prop :=
  exists test t next d,
    points_to m c (Pair (Some test) next)
    /\ points_to m test (Pair (Some t) exprs) /\ points_to m t d
    /\ (d = Symbol "else"
        \/ exists r dr, ev env (Some t) m = (Ok (Some r), m)
                        /\ points_to m r dr /\ dr <> Boolean false).

(** The machines of the examples for the special forms and for calls:
    expressions read but not evaluated, the last after the definition of
    a procedure [f] of one parameter. *)
Definition m_cond : Machine :=
  snd (read 30 "(cond (#f 1) (else (+ 1 1) 3))" ready).
Definition m_let : Machine := snd (read 30 "(let () 1)" ready).
Definition m_applied : Machine := snd (read 30 "((lambda (x) x) 1)" ready).
Definition m_port : Machine := snd (read 30 "(close-input-port 5)" ready).
Definition m_call : Machine :=
  snd (read 30 "(f)" (snd (eval_text 30 "(define f (lambda (x) x))" ready))).

(** ** Procedures that return a boolean *)

(** Built-in procedures whose value, where they return one, comes from
    [make_boolean]: the type predicates, [not], [null?], [list?], the three
    equivalences, the five numerical comparisons, [define], the two
    procedures that close a port, [write] and [display]. *)
Definition boolean_procedures (ev : eaddr -> ptr -> M ptr) (fuel : nat)
  : list (eaddr -> ptr -> M ptr) :=
  [atom_boolean_q ev; atom_pair_q ev; atom_string_q ev;
   atom_input_port_q ev; atom_output_port_q ev;
   atom_not ev; atom_null_q ev; atom_list_q ev;
   atom_eqv_q ev fuel; atom_eq_q ev fuel; atom_equal_q ev fuel;
   atom_comapre_equal ev fuel; atom_compare_less ev fuel;
   atom_compare_greater ev fuel; atom_compare_less_equal ev fuel;
   atom_compare_greater_equal ev fuel;
   atom_define ev; atom_close_input_port ev; atom_close_output_port ev;
   atom_write ev fuel; atom_display ev fuel].

(** A computation whose value, where it returns one, is one of the two
    static boolean cells. *)
Definition returns_boolean (c : M ptr) : Prop :=
  forall m p m', c m = (Ok p, m') -> exists b, p = bool_cell b.

(** ** The line that a collection prints *)

Definition gc_line (collected remaining : Z) : string :=
  ("GC: " ++ string_of_Z collected ++ " cells collected. "
   ++ string_of_Z remaining ++ " remain allocated" ++ nl)%string.

(** The machine of the example for [not]: a call read but not
    evaluated. *)
Definition m_not : Machine := snd (read 30 "(not 1)" ready).

(** * Properties *)

(** ** Reasoning in the monad *)

Lemma bind_unfold {A B} (x : M A) (f : A -> M B) m :
  (x ≫= f) m = match x m with
               | (Ok a, m') => f a m'
               | (Error msg, m') => (Error msg, m')
               | (Crash, m') => (Crash, m')
               | (Timeout, m') => (Timeout, m')
               end.
Proof. reflexivity. Qed.

Lemma bind_ok {A B} (x : M A) (f : A -> M B) m a m' :
  x m = (Ok a, m') -> (x ≫= f) m = f a m'.
Proof. intros H. rewrite bind_unfold, H. reflexivity. Qed.

Lemma ret_unfold {A} (a : A) m : (mret a : M A) m = (Ok a, m).
Proof. reflexivity. Qed.

Lemma never_ok_bind {A B} (x : M A) (f : A -> M B) :
  (forall a, never_ok (f a)) -> never_ok (x ≫= f).
Proof.
  intros Hf m v m'. rewrite bind_unfold.
  destruct (x m) as [[a | msg | | ] m1]; try discriminate.
  apply Hf.
Qed.

(** ** Reads and writes through pointers *)

Lemma deref_points_to m a d :
  points_to m a d -> deref (Some a) m = (Ok d, m).
Proof.
  unfold points_to, deref. destruct (heap m !! a) as [c |]; simpl; [| discriminate].
  intros [= <-]. reflexivity.
Qed.

Lemma deref_same_machine p m : snd (deref p m) = m.
Proof.
  unfold deref. destruct p as [a |]; [| reflexivity].
  destruct (heap m !! a); reflexivity.
Qed.

Lemma deref_ok_points_to p m d m' :
  deref p m = (Ok d, m') -> exists a, p = Some a /\ points_to m a d /\ m' = m.
Proof.
  unfold deref, points_to. destruct p as [a |]; [| discriminate].
  destruct (heap m !! a) as [c |] eqn:E; [| discriminate].
  intros [= <- <-]. exists a. rewrite E. auto.
Qed.

Lemma car_points_to m a x y :
  points_to m a (Pair x y) -> car (Some a) m = (Ok x, m).
Proof.
  intros H. unfold car. rewrite (bind_ok _ _ _ _ _ (deref_points_to _ _ _ H)).
  reflexivity.
Qed.

Lemma cdr_points_to m a x y :
  points_to m a (Pair x y) -> cdr (Some a) m = (Ok y, m).
Proof.
  intros H. unfold cdr. rewrite (bind_ok _ _ _ _ _ (deref_points_to _ _ _ H)).
  reflexivity.
Qed.

Lemma fresh_unallocated m : heap m !! fresh (dom (heap m)) = None.
Proof. apply not_elem_of_dom, is_fresh. Qed.

Lemma points_to_allocated m a d : points_to m a d -> a <> fresh (dom (heap m)).
Proof.
  unfold points_to. intros H ->. rewrite fresh_unallocated in H. discriminate.
Qed.

Lemma points_to_alloc_old m d a d' :
  points_to m a d' -> points_to (alloc d m) a d'.
Proof.
  intros H. pose proof (points_to_allocated _ _ _ H) as Hne.
  unfold points_to, alloc, make_cell in *. simpl.
  rewrite lookup_insert_ne by congruence. exact H.
Qed.

Lemma points_to_alloc_new m d : points_to (alloc d m) (fresh (dom (heap m))) d.
Proof.
  unfold points_to, alloc, make_cell. simpl. rewrite lookup_insert_eq. reflexivity.
Qed.

Lemma store_write m a d d0 :
  points_to m a d0 -> store a d m = (Ok tt, write a d m).
Proof.
  unfold points_to, write, store. destruct (heap m !! a); [reflexivity | discriminate].
Qed.

Lemma points_to_write_same m a d d0 :
  points_to m a d0 -> points_to (write a d m) a d.
Proof.
  unfold points_to, write, store. destruct (heap m !! a); [| discriminate].
  intros _. simpl. rewrite lookup_insert_eq. reflexivity.
Qed.

Lemma points_to_write_other m a d b d' :
  a <> b -> points_to m b d' -> points_to (write a d m) b d'.
Proof.
  unfold points_to, write, store. intros Hne H.
  destruct (heap m !! a); [| exact H]. simpl.
  rewrite lookup_insert_ne by exact Hne. exact H.
Qed.

Lemma set_cdr_write m l x old b :
  points_to m l (Pair x old) -> set_cdr (Some l) b m = (Ok tt, write l (Pair x b) m).
Proof.
  intros H. unfold set_cdr.
  rewrite (bind_ok _ _ _ _ _ (deref_points_to _ _ _ H)).
  apply (store_write _ _ _ _ H).
Qed.

(** ** Parameters of a built-in *)

Section Parameters.

Variable ev : eaddr -> ptr -> M ptr.
Variable env : eaddr.

Lemma nth_param_any_optional_first p arg rest m v m1 :
  points_to m p (Pair (Some arg) rest) ->
  ev env (Some arg) m = (Ok v, m1) ->
  nth_param_any_optional ev env (Some p) 1 m = (Ok v, m1).
Proof.
  intros Hp Hev. unfold nth_param_any_optional. simpl.
  rewrite bind_unfold, ret_unfold.
  rewrite (bind_ok _ _ _ _ _ (car_points_to _ _ _ _ Hp)). exact Hev.
Qed.

Lemma nth_param_any_first p arg rest m v m1 :
  points_to m p (Pair (Some arg) rest) ->
  ev env (Some arg) m = (Ok (Some v), m1) ->
  nth_param_any ev env (Some p) 1 m = (Ok (Some v), m1).
Proof.
  intros Hp Hev. unfold nth_param_any.
  rewrite (bind_ok _ _ _ _ _ (nth_param_any_optional_first _ _ _ _ _ _ Hp Hev)).
  reflexivity.
Qed.

Lemma nth_param_first p arg rest m v m1 d :
  points_to m p (Pair (Some arg) rest) ->
  ev env (Some arg) m = (Ok (Some v), m1) ->
  points_to m1 v d ->
  nth_param ev env (Some p) 1 (type_of d) m = (Ok (Some v), m1).
Proof.
  intros Hp Hev Hv. unfold nth_param.
  rewrite (bind_ok _ _ _ _ _ (nth_param_any_first _ _ _ _ _ _ Hp Hev)).
  rewrite (bind_ok _ _ _ _ _ (deref_points_to _ _ _ Hv)).
  unfold type_check. rewrite decide_True by reflexivity. reflexivity.
Qed.

Variable type : CellType.

Lemma nth_param_optional_first m p arg rest v m1 d :
  points_to m p (Pair (Some arg) rest) ->
  ev env (Some arg) m = (Ok (Some v), m1) ->
  points_to m1 v d -> type_of d = type ->
  nth_param_optional ev env (Some p) 1 type m = (Ok (Some v), m1).
Proof.
  intros Hp Hev Hv Ht. unfold nth_param_optional.
  rewrite (bind_ok _ _ _ _ _ (nth_param_any_optional_first _ _ _ _ _ _ Hp Hev)).
  rewrite (bind_ok _ _ _ _ _ (deref_points_to _ _ _ Hv)).
  unfold type_check. rewrite decide_True by exact Ht. reflexivity.
Qed.

Lemma nth_param_optional_second m p a0 p2 arg rest v m1 d :
  points_to m p (Pair a0 (Some p2)) ->
  points_to m p2 (Pair (Some arg) rest) ->
  ev env (Some arg) m = (Ok (Some v), m1) ->
  points_to m1 v d -> type_of d = type ->
  nth_param_optional ev env (Some p) 2 type m = (Ok (Some v), m1).
Proof.
  intros Hp Hp2 Hev Hv Ht. unfold nth_param_optional, nth_param_any_optional. simpl.
  rewrite bind_unfold, bind_unfold.
  rewrite (bind_ok _ _ _ _ _ (cdr_points_to _ _ _ _ Hp)). rewrite ret_unfold.
  rewrite (bind_ok _ _ _ _ _ (car_points_to _ _ _ _ Hp2)), Hev.
  rewrite (bind_ok _ _ _ _ _ (deref_points_to _ _ _ Hv)).
  unfold type_check. rewrite decide_True by exact Ht. reflexivity.
Qed.

Lemma nth_param_optional_no_third m p a0 p2 a1 :
  points_to m p (Pair a0 (Some p2)) ->
  points_to m p2 (Pair a1 None) ->
  nth_param_optional ev env (Some p) 3 type m = (Ok None, m).
Proof.
  intros Hp Hp2. unfold nth_param_optional, nth_param_any_optional. simpl.
  rewrite bind_unfold, bind_unfold.
  rewrite (bind_ok _ _ _ _ _ (cdr_points_to _ _ _ _ Hp)).
  rewrite (bind_ok _ _ _ _ _ (cdr_points_to _ _ _ _ Hp2)). reflexivity.
Qed.

End Parameters.

(** ** Lists in memory *)

Lemma lseg_app m p c1 c2 q r :
  lseg m p c1 q -> lseg m q c2 r -> lseg m p (c1 ++ c2) r.
Proof.
  revert p. induction c1 as [| [a x] rest IH]; intros p; simpl.
  - intros ->. auto.
  - intros (-> & next & Ha & Hrest) H2. split; [reflexivity |].
    exists next. split; [exact Ha |]. apply IH; assumption.
Qed.

Lemma lseg_split m p c1 c2 r :
  lseg m p (c1 ++ c2) r -> exists q, lseg m p c1 q /\ lseg m q c2 r.
Proof.
  revert p. induction c1 as [| [a x] rest IH]; intros p; simpl.
  - intros H. exists p. auto.
  - intros (-> & next & Ha & Hrest). destruct (IH _ Hrest) as (q & H1 & H2).
    exists q. split; [| exact H2]. split; [reflexivity |]. exists next. auto.
Qed.

(** A pointer is the head of at most one proper list. *)
Lemma lseg_functional m p c1 c2 :
  lseg m p c1 None -> lseg m p c2 None -> c1 = c2.
Proof.
  revert p c2. induction c1 as [| [a x] rest IH]; intros p [| [b y] rest2]; simpl.
  - reflexivity.
  - intros -> (H & _). discriminate.
  - intros (-> & _) H. discriminate.
  - intros (-> & n1 & Ha & H1) ([= <-] & n2 & Hb & H2).
    unfold points_to in *. rewrite Ha in Hb. injection Hb as <- <-.
    f_equal. eapply IH; eassumption.
Qed.

(** No pair occurs twice in a proper list. *)
Lemma proper_list_NoDup m p cells :
  proper_list m p cells -> NoDup (map fst cells).
Proof.
  unfold proper_list. revert p.
  induction cells as [| [a x] rest IH]; intros p; simpl.
  - intros _. constructor.
  - intros (-> & next & Ha & Hrest). constructor; [| eapply IH; eassumption].
    intros Hin. apply list_elem_of_fmap in Hin as ([a' x'] & Heq & Hin).
    simpl in Heq. subst a'.
    apply list_elem_of_split in Hin as (r1 & r2 & ->).
    destruct (lseg_split _ _ _ _ _ Hrest) as (q & _ & H2).
    assert (H1 : lseg m (Some a) ((a, x) :: r1 ++ (a, x') :: r2) None).
    { simpl. split; [reflexivity |]. exists next. auto. }
    assert (Hq : q = Some a) by (simpl in H2; tauto). subst q.
    assert (Hl := f_equal (@length _) (lseg_functional _ _ _ _ H1 H2)).
    simpl in Hl. rewrite length_app in Hl. simpl in Hl. lia.
Qed.

Lemma lseg_alloc m d p cells q : lseg m p cells q -> lseg (alloc d m) p cells q.
Proof.
  revert p. induction cells as [| [a x] rest IH]; intros p; simpl; [auto |].
  intros (-> & next & Ha & Hrest). split; [reflexivity |]. exists next.
  split; [apply points_to_alloc_old, Ha | apply IH, Hrest].
Qed.

Lemma lseg_write m l d p cells q :
  l ∉ map fst cells -> lseg m p cells q -> lseg (write l d m) p cells q.
Proof.
  revert p. induction cells as [| [a x] rest IH]; intros p; simpl; [auto |].
  intros Hl (-> & next & Ha & Hrest). rewrite not_elem_of_cons in Hl.
  destruct Hl as [Hne Hl]. split; [reflexivity |]. exists next.
  split; [apply points_to_write_other; auto | apply IH; auto].
Qed.

(** ** The empty list (C1) *)

Lemma parse_simple_datum_none tokens t m :
  peek tokens = Some t ->
  match t with
  | TOKEN_LIST_START | TOKEN_LIST_END | TOKEN_VECTOR_START | TOKEN_QUOTE
  | TOKEN_BACKTICK | TOKEN_COMMA | TOKEN_COMMA_AT | TOKEN_DOT => True
  | _ => False
  end ->
  parse_simple_datum tokens m = (Ok (None, tokens), m).
Proof.
  intros Hp Ht. unfold parse_simple_datum. rewrite Hp.
  destruct t; try contradiction; reflexivity.
Qed.

(** On a closing parenthesis [parse_datum] returns null and consumes
    nothing. *)
Lemma parse_datum_list_end fuel tokens m :
  peek tokens = Some TOKEN_LIST_END ->
  parse_datum (S fuel) tokens m = (Ok (None, tokens), m).
Proof.
  intros Hp. simpl.
  rewrite (bind_ok _ _ _ _ _ (parse_simple_datum_none _ _ _ Hp I)).
  unfold parse_compound_datum, parse_list. rewrite Hp.
  unfold parse_abreviation. rewrite Hp. rewrite bind_unfold, ret_unfold.
  unfold parse_vector. rewrite Hp. reflexivity.
Qed.

(** A list that closes after its first datum is one new pair: its car is
    what [parse_datum] returned, its cdr is null. *)
Lemma parse_list_closed fuel tokens m cell tokens1 m1 :
  peek tokens = Some TOKEN_LIST_START ->
  parse_datum (S fuel) (skip tokens) m = (Ok (cell, tokens1), m1) ->
  peek tokens1 = Some TOKEN_LIST_END ->
  parse_datum (S (S fuel)) tokens m
  = (Ok (Some (fresh (dom (heap m1))), skip tokens1), alloc (Pair cell None) m1).
Proof.
  intros Hstart Hdatum Hend.
  change (parse_datum (S (S fuel)) tokens)
    with ('(cell, tokens') ← parse_simple_datum tokens;
          match cell with
          | Some _ => mret (cell, tokens')
          | None => parse_compound_datum (parse_datum (S fuel)) (S fuel) tokens'
          end).
  rewrite (bind_ok _ _ _ _ _ (parse_simple_datum_none _ _ _ Hstart I)).
  unfold parse_compound_datum, parse_list. rewrite Hstart.
  rewrite bind_unfold, bind_unfold, Hdatum.
  rewrite bind_unfold. unfold cons at 1. unfold make_cell at 1.
  cbn [parse_list_loop]. rewrite Hend. reflexivity.
Qed.

(** C1, as the claim states it, fails: the reader turns the text [()] into
    a pointer to a freshly allocated pair, not into the null pointer;
    [null?] answers true on that pair, and on an argument whose value is the
    null pointer it signals an error. *)
Lemma reading_empty_list_counterexample :
  fst (read 30 "()" ready) = Ok (Some 42%positive)
  /\ points_to (snd (read 30 "()" ready)) 42%positive (Pair None None)
  /\ fst (read 30 "()" ready) <> Ok None
  /\ fst (eval_text 30 "(null? '())" ready) = Ok (bool_cell true)
  /\ fst (eval_text 30 "(null? (cdr '(1)))" ready)
     = Error "Too few parameters passed (1 expected)".
Proof.
  split; [vm_compute; reflexivity |].
  split; [vm_compute; reflexivity |].
  split; [vm_compute; discriminate |].
  split; vm_compute; reflexivity.
Qed.

(** C1 (amended): the null pointer ends a list, as the cdr of its last
    pair, but the literal [()] is read as a newly allocated pair whose car
    and cdr are both null, and [null?] returns true exactly when the value
    of its argument is a pair whose car and cdr are both null; when that
    value is the null pointer it signals
    "Too few parameters passed (1 expected)". *)
Theorem empty_list_is_a_pair :
  (forall fuel tokens m,
      peek tokens = Some TOKEN_LIST_START ->
      peek (skip tokens) = Some TOKEN_LIST_END ->
      parse_datum (S (S fuel)) tokens m
      = (Ok (Some (fresh (dom (heap m))), skip (skip tokens)),
         alloc (Pair None None) m)) /\
  (forall fuel tokens m x tokens1 m1,
      peek tokens = Some TOKEN_LIST_START ->
      parse_datum (S fuel) (skip tokens) m = (Ok (Some x, tokens1), m1) ->
      peek tokens1 = Some TOKEN_LIST_END ->
      parse_datum (S (S fuel)) tokens m
      = (Ok (Some (fresh (dom (heap m1))), skip tokens1),
         alloc (Pair (Some x) None) m1)) /\
  (forall ev env p arg rest m v m1,
      points_to m p (Pair (Some arg) rest) ->
      ev env (Some arg) m = (Ok v, m1) ->
      atom_null_q ev env (Some p) m
      = match v with
        | None => signal_error "Too few parameters passed (1 expected)" m1
        | Some a =>
            match cell_data <$> heap m1 !! a with
            | Some d => (Ok (bool_cell (is_empty_pair d)), m1)
            | None => (Crash, m1)
            end
        end) /\
  (forall d, is_empty_pair d = true <-> d = Pair None None).
Proof.
  split; [| split; [| split]].
  - intros fuel tokens m Hstart Hend.
    apply (parse_list_closed fuel tokens m None (skip tokens) m Hstart);
      [| exact Hend].
    apply parse_datum_list_end, Hend.
  - intros fuel tokens m x tokens1 m1. apply parse_list_closed.
  - intros ev env p arg rest m v m1 Hp Hev.
    unfold atom_null_q, nth_param_any.
    rewrite bind_unfold, bind_unfold.
    rewrite (nth_param_any_optional_first _ _ _ _ _ _ _ _ Hp Hev).
    destruct v as [a |];
      [| unfold signal_error; destruct (cont_escape (cont m1)); reflexivity].
    rewrite ret_unfold, bind_unfold.
    unfold deref. destruct (heap m1 !! a); reflexivity.
  - intros d. split.
    + destruct d as [| | | | [a |] [b |] | | | | |]; simpl; congruence.
    + intros ->. reflexivity.
Qed.

Lemma empty_list_is_a_pair_witness :
  parse_datum 2 (mkTokens [] [TOKEN_LIST_START; TOKEN_LIST_END] 0 2) ready
  = (Ok (Some (fresh (dom (heap ready))),
         skip (skip (mkTokens [] [TOKEN_LIST_START; TOKEN_LIST_END] 0 2))),
     alloc (Pair None None) ready)
  /\ parse_datum 2
       (mkTokens [] [TOKEN_LIST_START; TOKEN_BOOLEAN true; TOKEN_LIST_END] 0 3)
       ready
     = (Ok (Some (fresh (dom (heap (alloc (Boolean true) ready)))),
            skip (skip (skip (mkTokens []
                                [TOKEN_LIST_START; TOKEN_BOOLEAN true;
                                 TOKEN_LIST_END] 0 3)))),
        alloc (Pair (Some (fresh (dom (heap ready)))) None)
              (alloc (Boolean true) ready))
  /\ points_to m_null 48%positive (Pair (Some 47%positive) None)
  /\ eval 30 root (Some 47%positive) m_null = (Ok (Some 45%positive), m_null)
  /\ atom_null_q (eval 30) root (Some 48%positive) m_null
     = (Ok (bool_cell true), m_null).
Proof.
  assert (Hp : points_to m_null 48%positive (Pair (Some 47%positive) None))
    by (vm_compute; reflexivity).
  assert (Hev : eval 30 root (Some 47%positive) m_null
                = (Ok (Some 45%positive), m_null))
    by (vm_compute; reflexivity).
  split; [| split; [| split; [exact Hp | split; [exact Hev |]]]].
  - apply (proj1 empty_list_is_a_pair); reflexivity.
  - apply (proj1 (proj2 empty_list_is_a_pair) O); reflexivity.
  - rewrite (proj1 (proj2 (proj2 empty_list_is_a_pair)) _ _ _ _ _ _ _ _ Hp Hev).
    vm_compute. reflexivity.
Defined.

(** ** Writing and reading back (C2) *)

(** C2: [write] is not read back as the datum written.  The vector
    [#((1 2) 3)] is written as [#(1 2 3)], because [print_rec] prints the
    elements of a vector without the parentheses of a list, and the number
    1000000 is written as [1e+06], which the lexer reads as the number 1
    followed by an identifier; in both cases the datum read back is not
    [equal?] to the one written. *)
Theorem write_is_not_read_back :
  fst (round_trip 100 "#((1 2) 3)" ready) = Ok ("#(1 2 3)"%string, false) /\
  fst (round_trip 100 "1000000" ready) = Ok ("1e+06"%string, false).
Proof. split; vm_compute; reflexivity. Qed.

(** Data for which the round trip does hold. *)
Example round_trip_list :
  fst (round_trip 100 "(a (b #t) #\x 12)" ready)
  = Ok ("(a (b #t) #\x 12)"%string, true).
Proof. vm_compute. reflexivity. Qed.

(** ** [list] (C3) *)

Lemma list_loop_never_ok ev fuel env result params :
  never_ok (list_loop ev fuel env result params).
Proof.
  revert params. induction fuel as [| n IH]; intros params; simpl.
  - intros m v m'. discriminate.
  - do 6 (apply never_ok_bind; intros ?). apply IH.
Qed.

(** C3: [atom_list] has no normal return, whatever its arguments: its loop
    has no exit, and once the argument list is used up it reads through the
    null pointer.  The run of [(list 1 2)] prints the expression and ends
    there, in undefined behaviour. *)
Theorem atom_list_never_returns :
  (forall ev fuel env params m v m',
      atom_list ev fuel env params m <> (Ok v, m')) /\
  run "(list 1 2)" = (Crash, ("parsed> (list 1 2)" ++ nl)%string, ""%string, []).
Proof.
  split.
  - intros ev fuel env params. unfold atom_list.
    apply never_ok_bind. intros a. apply list_loop_never_ok.
  - vm_compute. reflexivity.
Qed.

(** ** [string-ref] (C4) *)

(** C4: the bounds test of [string-ref] is inverted.  With an escape point
    installed it signals its error exactly when [k < length s], so for every
    valid index; beyond the length it reads the buffer at [k]. *)
Theorem string_ref_bounds_inverted (buf : list ascii) (k : Z) (m : Machine) :
  cont_escape (cont m) <> O ->
  (signals (string_ref buf k) m <-> k < strlen buf).
Proof.
  intros Hesc. unfold signals, string_ref.
  destruct (k <? 0) eqn:Hneg; simpl.
  - split.
    + intros _. apply Z.ltb_lt in Hneg. unfold strlen. lia.
    + intros _. unfold signal_error.
      destruct (cont_escape (cont m)); [congruence |]. eauto.
  - destruct (k <? strlen buf) eqn:Hlt.
    + split; [intros _; now apply Z.ltb_lt |].
      intros _. unfold signal_error.
      destruct (cont_escape (cont m)); [congruence |]. eauto.
    + split; [| intros H; apply Z.ltb_ge in Hlt; lia].
      intros (msg & m' & H).
      destruct (buf !! Z.to_nat k); [| discriminate].
      rewrite bind_unfold in H. unfold make_character, make_cell in H.
      discriminate.
Qed.

Lemma string_ref_bounds_inverted_witness :
  cont_escape (cont ready) <> O /\
  (signals (string_ref (buffer_of "abc") 1) ready
   <-> 1 < strlen (buffer_of "abc")).
Proof.
  split.
  - vm_compute. discriminate.
  - apply string_ref_bounds_inverted. vm_compute. discriminate.
Defined.

(** The valid index 1 of ["abc"] is refused, the index 3 returns the
    terminator of the buffer. *)
Example string_ref_runs :
  fst (eval_text 30 ("(string-ref " ++ quoted "abc" ++ " 1)") ready)
  = Error "k is not a valid index of the given string"
  /\ exists a m',
      eval_text 30 ("(string-ref " ++ quoted "abc" ++ " 3)") ready = (Ok (Some a), m')
      /\ points_to m' a (Character NUL).
Proof.
  split; [vm_compute; reflexivity |].
  eexists _, _. split; vm_compute; reflexivity.
Qed.

(** [string-set!] has the test the right way round. *)
Example string_set_runs :
  exists a m',
    eval_text 30 ("(string-set! " ++ quoted "abc" ++ " 1 #\x)") ready
    = (Ok (Some a), m')
    /\ points_to m' a (String_ (buffer_of "axc")).
Proof. eexists _, _. split; vm_compute; reflexivity. Qed.

(** ** [and] (C6) *)

(** The loop of [and], operand by operand: a false value ends it, with the
    operands that follow not evaluated; any other value is kept as the last
    one and the loop goes on from the cdr; at the end of the operands the
    last value is returned. *)
Lemma and_loop_false ev n env a x rest last m r m1 :
  points_to m a (Pair x rest) -> ev env x m = (Ok (Some r), m1) ->
  points_to m1 r (Boolean false) ->
  and_loop ev (S n) env (Some a) last m = (Ok (Some r), m1).
Proof.
  intros Ha Hev Hr. simpl.
  rewrite (bind_ok _ _ _ _ _ (car_points_to _ _ _ _ Ha)).
  rewrite (bind_ok _ _ _ _ _ Hev). unfold is_false.
  rewrite bind_unfold, bind_unfold, (deref_points_to _ _ _ Hr). reflexivity.
Qed.

Lemma and_loop_true ev n env a x rest last m r d m1 x' rest' :
  points_to m a (Pair x rest) -> ev env x m = (Ok (Some r), m1) ->
  points_to m1 r d -> d <> Boolean false ->
  points_to m1 a (Pair x' rest') ->
  and_loop ev (S n) env (Some a) last m = and_loop ev n env rest' (Some r) m1.
Proof.
  intros Ha Hev Hr Hd Ha1. simpl.
  rewrite (bind_ok _ _ _ _ _ (car_points_to _ _ _ _ Ha)).
  rewrite (bind_ok _ _ _ _ _ Hev). unfold is_false.
  rewrite bind_unfold, bind_unfold, (deref_points_to _ _ _ Hr), ret_unfold.
  assert (Hf : match d with Boolean false => true | _ => false end = false)
    by (destruct d as [[] | | | | | | | | |]; try reflexivity; destruct Hd;
        reflexivity).
  rewrite Hf. rewrite (bind_ok _ _ _ _ _ (cdr_points_to _ _ _ _ Ha1)).
  reflexivity.
Qed.

(** C6: [and] without operands does not return true.  The parameter list
    the reader builds for [(and)] is the null pointer, which [atom_and]
    reads through; on the pair that stands for [()] its guard signals a
    syntax error.  With operands, [and] is its loop from the first operand:
    it evaluates them from left to right, returns the first false value
    without evaluating the rest, and otherwise the last value. *)
Theorem and_without_operands :
  (forall ev fuel env m, atom_and ev fuel env None m = (Crash, m)) /\
  (forall ev fuel env p m,
      points_to m p (Pair None None) ->
      atom_and ev fuel env (Some p) m =
      signal_error "syntax error. at least 1 test exptected in (and ...)" m) /\
  run "(and)" = (Crash, ("parsed> (and)" ++ nl)%string, ""%string, []) /\
  (forall ev fuel env p x rest m,
      points_to m p (Pair (Some x) rest) ->
      atom_and ev fuel env (Some p) m = and_loop ev fuel env (Some p) None m) /\
  (forall ev n env a x rest last m r m1,
      points_to m a (Pair x rest) -> ev env x m = (Ok (Some r), m1) ->
      points_to m1 r (Boolean false) ->
      and_loop ev (S n) env (Some a) last m = (Ok (Some r), m1)) /\
  (forall ev n env a x rest last m r d m1 x' rest',
      points_to m a (Pair x rest) -> ev env x m = (Ok (Some r), m1) ->
      points_to m1 r d -> d <> Boolean false ->
      points_to m1 a (Pair x' rest') ->
      and_loop ev (S n) env (Some a) last m
      = and_loop ev n env rest' (Some r) m1) /\
  (forall ev n env last m, and_loop ev (S n) env None last m = (Ok last, m)).
Proof.
  split; [| split; [| split; [| split; [| split; [| split]]]]].
  - reflexivity.
  - intros ev fuel env p m Hp. unfold atom_and.
    rewrite (bind_ok _ _ _ _ _ (car_points_to _ _ _ _ Hp)). reflexivity.
  - vm_compute. reflexivity.
  - intros ev fuel env p x rest m Hp. unfold atom_and.
    rewrite (bind_ok _ _ _ _ _ (car_points_to _ _ _ _ Hp)). reflexivity.
  - exact and_loop_false.
  - exact and_loop_true.
  - reflexivity.
Qed.

Lemma and_without_operands_witness :
  (points_to (alloc (Pair None None) ready) (fresh (dom (heap ready)))
             (Pair None None) /\
   atom_and (eval 10) 10 root (Some (fresh (dom (heap ready))))
            (alloc (Pair None None) ready) =
   signal_error "syntax error. at least 1 test exptected in (and ...)"
                (alloc (Pair None None) ready)) /\
  and_loop (eval 30) 1 root (Some 45%positive) None
           (snd (read 30 "(and #f 2)" ready))
  = (Ok (Some 44%positive), snd (read 30 "(and #f 2)" ready)).
Proof.
  split; [split |].
  - apply points_to_alloc_new.
  - apply (proj1 (proj2 and_without_operands)). apply points_to_alloc_new.
  - apply (proj1 (proj2 (proj2 (proj2 (proj2 and_without_operands))))
             (eval 30) O root 45%positive (Some 44%positive)
             (Some 47%positive)).
    + vm_compute. reflexivity.
    + vm_compute. reflexivity.
    + vm_compute. reflexivity.
Defined.

(** With operands, [and] stops at the first false value and otherwise
    returns the last value. *)
Example and_runs :
  exists collected remaining,
  run "(and 1 2 #f (car 5)) (and 1 2)"
  = (Ok tt,
     ("parsed> (and 1 2 #f (car 5))" ++ nl ++ "#f" ++ nl
      ++ "parsed> (and 1 2)" ++ nl ++ "2" ++ nl
      ++ "Recovering from an error" ++ nl
      ++ gc_line collected remaining)%string,
     ("Error: unexpected end of input" ++ nl)%string, []).
Proof. exists 19, 39. vm_compute. reflexivity. Qed.

(** ** [set!] (C5) *)

Lemma update_node_none symbol value bucket :
  find_node symbol bucket = None -> update_node symbol value bucket = None.
Proof.
  induction bucket as [| node rest IH]; simpl; [reflexivity |].
  destruct (String.eqb symbol (node_symbol node)); [discriminate |].
  intros H. rewrite (IH H). reflexivity.
Qed.

Lemma update_node_some symbol value bucket v :
  find_node symbol bucket = Some v ->
  exists bucket', update_node symbol value bucket = Some bucket'
                  /\ find_node symbol bucket' = Some value.
Proof.
  induction bucket as [| node rest IH]; simpl; [discriminate |].
  destruct (String.eqb symbol (node_symbol node)) eqn:E.
  - intros _. eexists. split; [reflexivity |]. simpl. rewrite E. reflexivity.
  - intros H. destruct (IH H) as (b & -> & Hb). eexists. split; [reflexivity |].
    simpl. rewrite E. exact Hb.
Qed.

Lemma deref_env_lookup m e f :
  envs m !! e = Some f -> deref_env (Some e) m = (Ok f, m).
Proof. intros H. unfold deref_env. rewrite H. reflexivity. Qed.

(** When no frame binds the name, the loop runs out of frames: it ends with
    the variable [env] null and the machine untouched. *)
Lemma environment_set_loop_unbound fuel env symbol value m depth :
  unbound (envs m) symbol env depth -> (depth <= fuel)%nat ->
  environment_set_loop fuel env symbol value m = (Ok (Some None), m).
Proof.
  intros H. revert fuel.
  induction H as [e f bucket Hf Hb Hfind Hpar
                 | e f bucket parent n Hf Hb Hfind Hpar Hrest IH];
    intros fuel Hfuel; (destruct fuel as [| k]; [lia |]); simpl;
    rewrite (bind_ok _ _ _ _ _ (deref_env_lookup _ _ _ Hf));
    unfold bucket_of in Hb; rewrite Hb, (update_node_none _ _ _ Hfind), Hpar.
  - reflexivity.
  - apply IH. lia.
Qed.

Lemma environment_set_loop_nearest fuel env symbol value m depth e' :
  nearest (envs m) symbol env depth e' -> (depth <= fuel)%nat ->
  exists f', envs m !! e' = Some f' /\
  environment_set_loop fuel env symbol value m
  = (Ok None, set_envs (<[e' := assign f' symbol value]> (envs m)) m).
Proof.
  intros H. revert fuel.
  induction H as [e f bucket v Hf Hb Hfind
                 | e f bucket parent n e' Hf Hb Hfind Hpar Hrest IH];
    intros fuel Hfuel; (destruct fuel as [| k]; [lia |]); simpl;
    rewrite (bind_ok _ _ _ _ _ (deref_env_lookup _ _ _ Hf)).
  - exists f. split; [exact Hf |].
    destruct (update_node_some symbol value bucket v Hfind) as (b' & Hb' & _).
    unfold assign. rewrite Hb. unfold bucket_of in Hb. rewrite Hb, Hb'.
    reflexivity.
  - unfold bucket_of in Hb. rewrite Hb, (update_node_none _ _ _ Hfind), Hpar.
    apply IH. lia.
Qed.

(** C5: on a name that no frame of the chain binds, [environment_set] does
    not reach [signal_error]: its loop ends with [env] null, and the
    argument [env->cont] of the call reads through that null pointer, so the
    outcome is undefined behaviour and no error is signalled.  When a frame
    binds the name, the node of the nearest such frame is assigned and
    nothing else changes. *)
Theorem set_of_unbound_name_crashes fuel env symbol value m depth :
  (depth <= fuel)%nat ->
  (unbound (envs m) symbol env depth ->
   environment_set fuel env symbol value m = (Crash, m)) /\
  (forall e', nearest (envs m) symbol env depth e' ->
     exists f', envs m !! e' = Some f' /\
     environment_set fuel env symbol value m
     = (Ok tt, set_envs (<[e' := assign f' symbol value]> (envs m)) m)).
Proof.
  intros Hfuel. split.
  - intros H. unfold environment_set.
    rewrite (bind_ok _ _ _ _ _ (environment_set_loop_unbound _ _ _ _ _ _ H Hfuel)).
    reflexivity.
  - intros e' H. unfold environment_set.
    destruct (environment_set_loop_nearest fuel env symbol value m depth e' H Hfuel)
      as (f' & Hf' & Hloop).
    exists f'. split; [exact Hf' |].
    rewrite (bind_ok _ _ _ _ _ Hloop). reflexivity.
Qed.

Lemma set_of_unbound_name_crashes_witness :
  (1 <= 5)%nat /\
  unbound (envs ready) "x" root 1 /\
  environment_set 5 root "x" (bool_cell true) ready = (Crash, ready).
Proof.
  assert (H : unbound (envs ready) "x" root 1).
  { eapply unbound_root.
    - vm_compute. reflexivity.
    - vm_compute. reflexivity.
    - vm_compute. reflexivity.
    - vm_compute. reflexivity. }
  split; [lia | split; [exact H |]].
  apply (proj1 (set_of_unbound_name_crashes 5 root "x" (bool_cell true) ready 1
                  ltac:(lia)) H).
Defined.

(** The special form on an unbound and on a bound name. *)
Example set_runs :
  run "(set! x 1)" = (Crash, ("parsed> (set! x 1)" ++ nl)%string, ""%string, [])
  /\ exists a m',
      eval_text 30 "x"
        (snd (eval_text 30 "(set! x 2)"
                (snd (eval_text 30 "(define x 1)" ready))))
      = (Ok (Some a), m')
      /\ points_to m' a (Number (Double.of_Z 2)).
Proof.
  split; [vm_compute; reflexivity |].
  eexists _, _. split; vm_compute; reflexivity.
Qed.

(** ** [length] (C7) *)

Lemma length_loop_proper fuel m p cells acc :
  proper_list m p cells -> (length cells < fuel)%nat ->
  length_loop fuel p acc m = (Ok (acc + Z.of_nat (length cells)), m).
Proof.
  unfold proper_list. revert fuel p acc.
  induction cells as [| [a x] rest IH]; intros fuel p acc; simpl;
    intros Hl Hk; (destruct fuel as [| k]; [lia |]).
  - subst p. simpl. rewrite Z.add_0_r. reflexivity.
  - destruct Hl as (-> & next & Ha & Hrest). simpl.
    rewrite (bind_ok _ _ _ _ _ (deref_points_to _ _ _ Ha)). simpl.
    rewrite bind_unfold. unfold type_check. simpl.
    rewrite (IH k next (acc + 1) Hrest) by lia.
    f_equal. f_equal. lia.
Qed.

(** C7: [length] counts one too many.  On an argument whose value is a
    proper list of [n] pairs it returns a new number cell holding [n + 1],
    because the counter starts at one. *)
Theorem length_counts_one_too_many ev fuel env params arg rest m list m1 cells :
  points_to m params (Pair (Some arg) rest) ->
  ev env (Some arg) m = (Ok list, m1) ->
  proper_list m1 list cells ->
  (length cells < fuel)%nat ->
  atom_length ev fuel env (Some params) m
  = (Ok (Some (fresh (dom (heap m1)))),
     alloc (Number (Double.of_Z (Z.of_nat (length cells) + 1))) m1).
Proof.
  intros Hp Hev Hl Hfuel. unfold atom_length.
  rewrite (bind_ok _ _ _ _ _ (car_points_to _ _ _ _ Hp)).
  rewrite (bind_ok _ _ _ _ _ Hev).
  rewrite (bind_ok _ _ _ _ _ (length_loop_proper _ _ _ _ 1 Hl Hfuel)).
  rewrite Z.add_comm. reflexivity.
Qed.

Lemma length_counts_one_too_many_witness :
  atom_length (eval 30) 30 root (Some 53%positive) m_length
  = (Ok (Some (fresh (dom (heap m_length)))),
     alloc (Number (Double.of_Z 4)) m_length).
Proof.
  apply (length_counts_one_too_many (eval 30) 30 root 53%positive 52%positive None
           m_length (Some 46%positive) m_length
           [(46%positive, Some 45%positive); (48%positive, Some 47%positive);
            (50%positive, Some 49%positive)]).
  - vm_compute. reflexivity.
  - vm_compute. reflexivity.
  - unfold proper_list. simpl.
    repeat (split; [reflexivity |]; eexists; split; [vm_compute; reflexivity |]).
    reflexivity.
  - simpl. lia.
Defined.

(** The length of a list of three elements is printed as 4, and the two
    sides of [(length (append xs ys)) = (+ (length xs) (length ys))] as 6
    and 7. *)
Example length_runs :
  exists collected remaining,
  run "(length '(1 2 3)) (length (append '(1 2 3) '(4 5))) (+ (length '(1 2 3)) (length '(4 5)))"
  = (Ok tt,
     ("parsed> (length (quote (1 2 3)))" ++ nl ++ "4" ++ nl
      ++ "parsed> (length (append (quote (1 2 3)) (quote (4 5))))" ++ nl
      ++ "6" ++ nl
      ++ "parsed> (+ (length (quote (1 2 3))) (length (quote (4 5))))" ++ nl
      ++ "7" ++ nl
      ++ "Recovering from an error" ++ nl
      ++ gc_line collected remaining)%string,
     ("Error: unexpected end of input" ++ nl)%string, []).
Proof. exists 68, 39. vm_compute. reflexivity. Qed.

(** ** [append] (C10) *)

Lemma append_walk_last fuel m a front l v b :
  lseg m (Some a) (front ++ [(l, v)]) None -> (length front < fuel)%nat ->
  append_walk fuel (Some a) b m = (Ok tt, write l (Pair v b) m).
Proof.
  revert fuel a. induction front as [| [a' x] rest IH]; intros fuel a Hl Hk;
    (destruct fuel as [| k]; [simpl in Hk; lia |]); simpl in Hl |- *.
  - destruct Hl as ([= ->] & next & Ha & ->).
    rewrite (bind_ok _ _ _ _ _ (cdr_points_to _ _ _ _ Ha)).
    apply (set_cdr_write _ _ _ _ _ Ha).
  - destruct Hl as ([= ->] & next & Ha & Hrest).
    rewrite (bind_ok _ _ _ _ _ (cdr_points_to _ _ _ _ Ha)).
    assert (Hnext : exists a2, next = Some a2).
    { destruct rest as [| [a2 x2] r]; simpl in Hrest; destruct Hrest as [-> _]; eauto. }
    destruct Hnext as (a2 & ->). apply IH; [exact Hrest | simpl in Hk; lia].
Qed.

Lemma duplicate_pair m a x y :
  points_to m a (Pair x y) ->
  duplicate (Some a) m = (Ok (Some (fresh (dom (heap m)))), alloc (Pair x y) m).
Proof.
  intros H. unfold duplicate.
  rewrite (bind_ok _ _ _ _ _ (deref_points_to _ _ _ H)). reflexivity.
Qed.

Lemma append_loop_step ev k env params n result :
  append_loop ev (S k) env params n result =
  (list ← nth_param_optional ev env params n TYPE_PAIR;
   match list with
   | None => mret result
   | Some _ =>
       copy ← duplicate list;
       result' ← append_destructive k result copy;
       append_loop ev k env params (S n) result'
   end).
Proof. reflexivity. Qed.

Lemma lseg_kept m m' p cells q :
  (forall a d, points_to m a d -> points_to m' a d) ->
  lseg m p cells q -> lseg m' p cells q.
Proof.
  intros Hkept. revert p.
  induction cells as [| [a x] rest IH]; intros p; simpl; [auto |].
  intros (-> & next & Ha & Hrest). split; [reflexivity |]. exists next.
  split; [apply Hkept, Ha | apply IH, Hrest].
Qed.

(** The call [(append e1 e2)] of two argument expressions that evaluate, in
    machines that they leave as they are, to the pairs [x1] and [y1]: the
    two heads are copied, and the walk from the copy [dx] of [x1] ends in
    the machine [m3]. *)
Lemma append_of_two ev k env m p p2 e1 e2 x1 v1 nx y1 w1 ny m3 :
  let dx := fresh (dom (heap m)) in
  let m1 := alloc (Pair v1 nx) m in
  let dy := fresh (dom (heap m1)) in
  let m2 := alloc (Pair w1 ny) m1 in
  points_to m p (Pair (Some e1) (Some p2)) ->
  points_to m p2 (Pair (Some e2) None) ->
  points_to m x1 (Pair v1 nx) ->
  points_to m y1 (Pair w1 ny) ->
  ev env (Some e1) m = (Ok (Some x1), m) ->
  ev env (Some e2) m1 = (Ok (Some y1), m1) ->
  append_walk (S k) (Some dx) (Some dy) m2 = (Ok tt, m3) ->
  points_to m3 p (Pair (Some e1) (Some p2)) ->
  points_to m3 p2 (Pair (Some e2) None) ->
  atom_append ev (S (S (S k))) env (Some p) m = (Ok (Some dx), m3).
Proof.
  intros dx m1 dy m2 Hp Hp2 Hx1 Hy1 Hev1 Hev2 Hwalk Hp3 Hp23.
  assert (Hp1 : points_to m1 p (Pair (Some e1) (Some p2)))
    by apply points_to_alloc_old, Hp.
  assert (Hp21 : points_to m1 p2 (Pair (Some e2) None))
    by apply points_to_alloc_old, Hp2.
  assert (Hy11 : points_to m1 y1 (Pair w1 ny))
    by apply points_to_alloc_old, Hy1.
  unfold atom_append.
  rewrite append_loop_step.
  rewrite (bind_ok _ _ _ _ _
             (nth_param_optional_first ev env TYPE_PAIR _ _ _ _ _ _ _ Hp Hev1 Hx1 eq_refl)).
  rewrite (bind_ok _ _ _ _ _ (duplicate_pair _ _ _ _ Hx1)).
  simpl append_destructive. rewrite bind_unfold, ret_unfold.
  fold dx. fold m1.
  rewrite append_loop_step.
  rewrite (bind_ok _ _ _ _ _
             (nth_param_optional_second ev env TYPE_PAIR m1 _ _ _ _ _ _ _ _
                Hp1 Hp21 Hev2 Hy11 eq_refl)).
  rewrite (bind_ok _ _ _ _ _ (duplicate_pair _ _ _ _ Hy11)).
  fold dy. fold m2.
  unfold append_destructive.
  rewrite bind_unfold, bind_unfold, Hwalk. rewrite ret_unfold.
  rewrite append_loop_step.
  rewrite (bind_ok _ _ _ _ _
             (nth_param_optional_no_third ev env TYPE_PAIR m3 p _ p2 _ Hp3 Hp23)).
  reflexivity.
Qed.

(** C10, as the claim states it, fails for a first list of one pair: the
    only pair of [xs] is the head, the cdr that is overwritten is the one of
    its copy, and after the call [xs] still prints as [(1)]. *)
Lemma append_leaves_single_pair_list :
  exists collected remaining,
  run "(define xs '(1)) (define ys '(4 5)) (append xs ys) xs"
  = (Ok tt,
     ("parsed> (define xs (quote (1)))" ++ nl ++ "#f" ++ nl
      ++ "parsed> (define ys (quote (4 5)))" ++ nl ++ "#f" ++ nl
      ++ "parsed> (append xs ys)" ++ nl ++ "(1 4 5)" ++ nl
      ++ "parsed> xs" ++ nl ++ "(1)" ++ nl
      ++ "Recovering from an error" ++ nl
      ++ gc_line collected remaining)%string,
     ("Error: unexpected end of input" ++ nl)%string, []).
Proof. exists 25, 45. vm_compute. reflexivity. Qed.

(** C10 (amended): let the two arguments of [(append xs ys)] be expressions
    whose evaluation changes nothing (variables, quotations), the first
    with the value [x1], the head pair of a proper list, the second with
    the value [y1], the head pair of a proper list [ys].  The call
    allocates two cells, the copy [dx] of the pair [x1] and the copy [dy]
    of the pair [y1], and returns [dx].

    Where [x1] is the only pair of its list, the cdr that is overwritten is
    the one of the copy [dx]: every cell that was there is as before, the
    caller's list is still the list of its one element, and the list from
    [dx] is the concatenation.

    Where the list has more pairs, the last of them [xn], and [xn] is no
    pair of [ys] after [y1], and none of the two pairs of the argument list
    of the call, the cdr of [xn], the last pair of the caller's list, is
    overwritten with [dy]; every other cell that was there is as before, so
    that the caller's list is now the proper list of its elements followed
    by those of [ys]. *)
Theorem append_overwrites_caller_list
        ev fuel env m p p2 e1 e2 x1 v1 nx xs y1 w1 ny ys :
  let dx := fresh (dom (heap m)) in
  let m1 := alloc (Pair v1 nx) m in
  let dy := fresh (dom (heap m1)) in
  let m2 := alloc (Pair w1 ny) m1 in
  points_to m p (Pair (Some e1) (Some p2)) ->
  points_to m p2 (Pair (Some e2) None) ->
  points_to m x1 (Pair v1 nx) ->
  proper_list m nx xs ->
  points_to m y1 (Pair w1 ny) ->
  proper_list m ny ys ->
  ev env (Some e1) m = (Ok (Some x1), m) ->
  ev env (Some e2) m1 = (Ok (Some y1), m1) ->
  (length xs + 3 <= fuel)%nat ->
  (xs = [] ->
   let m3 := write dx (Pair v1 (Some dy)) m2 in
   atom_append ev fuel env (Some p) m = (Ok (Some dx), m3)
   /\ (forall a d, points_to m a d -> points_to m3 a d)
   /\ proper_list m3 (Some x1) [(x1, v1)]
   /\ proper_list m3 (Some dx) ((dx, v1) :: (dy, w1) :: ys))
  /\ (forall front xn vn,
         xs = front ++ [(xn, vn)] ->
         xn ∉ map fst ys -> xn <> p -> xn <> p2 ->
         let m3 := write xn (Pair vn (Some dy)) m2 in
         atom_append ev fuel env (Some p) m = (Ok (Some dx), m3)
         /\ points_to m3 dx (Pair v1 nx)
         /\ points_to m3 dy (Pair w1 ny)
         /\ points_to m3 xn (Pair vn (Some dy))
         /\ (forall a d, a <> xn -> points_to m a d -> points_to m3 a d)
         /\ proper_list m3 (Some x1)
              ((x1, v1) :: front ++ [(xn, vn)] ++ (dy, w1) :: ys)).
Proof.
  intros dx m1 dy m2 Hp Hp2 Hx1 Hxs Hy1 Hys Hev1 Hev2 Hfuel.
  assert (Hdx1 : points_to m1 dx (Pair v1 nx)) by apply points_to_alloc_new.
  assert (Hdx2 : points_to m2 dx (Pair v1 nx)) by apply points_to_alloc_old, Hdx1.
  assert (Hdy2 : points_to m2 dy (Pair w1 ny)) by apply points_to_alloc_new.
  assert (Hold : forall a d, points_to m a d -> points_to m2 a d)
    by (intros a d Ha; do 2 apply points_to_alloc_old; exact Ha).
  assert (Hdx_dy : dx <> dy) by apply (points_to_allocated _ _ _ Hdx1).
  destruct fuel as [| [| [| k]]]; try lia.
  split.
  - (* the list of one pair *)
    intros -> m3. unfold proper_list in Hxs. cbn [lseg] in Hxs. subst nx.
    assert (Hkept : forall a d, points_to m a d -> points_to m3 a d).
    { intros a d Ha. apply points_to_write_other; [| apply Hold, Ha].
      intros <-. exact (points_to_allocated _ _ _ Ha eq_refl). }
    split; [| split; [| split]].
    + apply (append_of_two ev k env m p p2 e1 e2 x1 v1 None y1 w1 ny m3
               Hp Hp2 Hx1 Hy1 Hev1 Hev2); [| apply Hkept, Hp | apply Hkept, Hp2].
      cbn [append_walk].
      rewrite (bind_ok _ _ _ _ _ (cdr_points_to _ _ _ _ Hdx2)).
      apply (set_cdr_write _ _ _ _ _ Hdx2).
    + exact Hkept.
    + unfold proper_list. cbn [lseg]. split; [reflexivity |].
      exists None. split; [apply Hkept, Hx1 | reflexivity].
    + unfold proper_list. cbn [lseg]. split; [reflexivity |].
      exists (Some dy). split; [apply (points_to_write_same _ _ _ _ Hdx2) |].
      split; [reflexivity |]. exists ny.
      split; [apply points_to_write_other; [exact Hdx_dy | exact Hdy2] |].
      apply (lseg_kept m); [exact Hkept | exact Hys].
  - (* the list of more pairs *)
    intros front xn vn -> Hxn_ys Hxn_p Hxn_p2 m3.
    (* the proper list from x1 has no repeated pair *)
    assert (Hall : proper_list m (Some x1) ((x1, v1) :: front ++ [(xn, vn)])).
    { simpl. split; [reflexivity |]. exists nx. auto. }
    pose proof (proper_list_NoDup _ _ _ Hall) as Hnd. simpl in Hnd.
    apply NoDup_cons in Hnd as [Hx1_notin Hnd].
    rewrite fmap_app in Hnd, Hx1_notin. simpl in Hnd, Hx1_notin.
    apply NoDup_app in Hnd as (_ & Hfront_xn & _).
    assert (Hxn_front : xn ∉ map fst front).
    { intros Hin. apply (Hfront_xn _ Hin). left. }
    assert (Hx1_xn : xn <> x1).
    { intros ->. apply Hx1_notin. apply elem_of_app. right. left. }
    (* the last pair of xs *)
    destruct (lseg_split _ _ _ _ _ Hxs) as (q & Hfront & Hlast).
    simpl in Hlast. destruct Hlast as (-> & nn & Hxn & ->).
    assert (Hxn2 : points_to m2 xn (Pair vn None)) by apply Hold, Hxn.
    assert (Hxn_dx : xn <> dx) by (apply (points_to_allocated _ _ _ Hxn)).
    assert (Hxn_dy : xn <> dy).
    { apply (points_to_allocated m1 _ (Pair vn None)). apply points_to_alloc_old, Hxn. }
    assert (Hkept : forall a d, a <> xn -> points_to m a d -> points_to m3 a d).
    { intros a d Hne Ha. apply points_to_write_other; [congruence | apply Hold, Ha]. }
    split; [| split; [| split; [| split; [| split]]]].
    + apply (append_of_two ev k env m p p2 e1 e2 x1 v1 nx y1 w1 ny m3
               Hp Hp2 Hx1 Hy1 Hev1 Hev2);
        [| apply Hkept; [congruence | exact Hp]
         | apply Hkept; [congruence | exact Hp2]].
      apply (append_walk_last (S k) m2 dx ((dx, v1) :: front) xn vn (Some dy)).
      * simpl. split; [reflexivity |]. exists nx.
        split; [exact Hdx2 |]. do 2 apply lseg_alloc. exact Hxs.
      * rewrite length_app in Hfuel. simpl in Hfuel |- *. lia.
    + apply points_to_write_other; [exact Hxn_dx | exact Hdx2].
    + apply points_to_write_other; [exact Hxn_dy | exact Hdy2].
    + apply (points_to_write_same _ _ _ _ Hxn2).
    + exact Hkept.
    + unfold proper_list.
      change ((x1, v1) :: front ++ [(xn, vn)] ++ (dy, w1) :: ys)
        with (((x1, v1) :: front) ++ ((xn, vn) :: (dy, w1) :: ys)).
      apply lseg_app with (q := Some xn).
      * apply lseg_write.
        { simpl. rewrite not_elem_of_cons. auto. }
        do 2 apply lseg_alloc. simpl. split; [reflexivity |]. exists nx. auto.
      * simpl. split; [reflexivity |]. exists (Some dy).
        split; [apply (points_to_write_same _ _ _ _ Hxn2) |].
        split; [reflexivity |]. exists ny.
        split; [apply points_to_write_other; [exact Hxn_dy | exact Hdy2] |].
        apply lseg_write; [exact Hxn_ys |]. do 2 apply lseg_alloc. exact Hys.
Qed.

Lemma append_overwrites_caller_list_witness :
  (fst (atom_append (eval 30) 30 root (Some 71%positive) m_append)
   = Ok (Some 74%positive)
   /\ proper_list (snd (atom_append (eval 30) 30 root (Some 71%positive) m_append))
        (Some 48%positive)
        [(48%positive, Some 47%positive); (50%positive, Some 49%positive);
         (52%positive, Some 51%positive); (75%positive, Some 61%positive);
         (64%positive, Some 63%positive)])
  /\ (fst (atom_append (eval 30) 30 root (Some 67%positive) m_append_short)
      = Ok (Some 70%positive)
      /\ proper_list
           (snd (atom_append (eval 30) 30 root (Some 67%positive) m_append_short))
           (Some 48%positive) [(48%positive, Some 47%positive)]
      /\ proper_list
           (snd (atom_append (eval 30) 30 root (Some 67%positive) m_append_short))
           (Some 70%positive)
           [(70%positive, Some 47%positive); (71%positive, Some 57%positive);
            (60%positive, Some 59%positive)]).
Proof.
  split.
  - pose proof (append_overwrites_caller_list (eval 30) 30 root m_append
                  71%positive 73%positive 70%positive 72%positive
                  48%positive (Some 47%positive) (Some 50%positive)
                  [(50%positive, Some 49%positive); (52%positive, Some 51%positive)]
                  62%positive (Some 61%positive) (Some 64%positive)
                  [(64%positive, Some 63%positive)]) as H.
    cbv zeta in H.
    destruct H as [_ H].
    + vm_compute. reflexivity.
    + vm_compute. reflexivity.
    + vm_compute. reflexivity.
    + unfold proper_list. simpl.
      split; [reflexivity |]. eexists. split; [vm_compute; reflexivity |].
      split; [reflexivity |]. eexists. split; [vm_compute; reflexivity |].
      reflexivity.
    + vm_compute. reflexivity.
    + unfold proper_list. simpl.
      split; [reflexivity |]. eexists. split; [vm_compute; reflexivity |].
      reflexivity.
    + vm_compute. reflexivity.
    + vm_compute. reflexivity.
    + simpl. lia.
    + destruct (H [(50%positive, Some 49%positive)] 52%positive (Some 51%positive))
        as (Hrun & _ & _ & _ & _ & Hlist).
      * reflexivity.
      * simpl. rewrite list_elem_of_singleton. discriminate.
      * discriminate.
      * discriminate.
      * rewrite Hrun. cbn [fst snd]. cbn [app] in Hlist. split.
        -- vm_compute. reflexivity.
        -- replace 75%positive
             with (fresh (dom (heap (alloc (Pair (Some 47%positive) (Some 50%positive))
                                           m_append))))
             by (vm_compute; reflexivity).
           exact Hlist.
  - pose proof (append_overwrites_caller_list (eval 30) 30 root m_append_short
                  67%positive 69%positive 66%positive 68%positive
                  48%positive (Some 47%positive) None []
                  58%positive (Some 57%positive) (Some 60%positive)
                  [(60%positive, Some 59%positive)]) as H.
    cbv zeta in H.
    destruct H as [H _].
    + vm_compute. reflexivity.
    + vm_compute. reflexivity.
    + vm_compute. reflexivity.
    + reflexivity.
    + vm_compute. reflexivity.
    + unfold proper_list. simpl.
      split; [reflexivity |]. eexists. split; [vm_compute; reflexivity |].
      reflexivity.
    + vm_compute. reflexivity.
    + vm_compute. reflexivity.
    + simpl. lia.
    + destruct (H eq_refl) as (Hrun & _ & Hxs & Hres).
      rewrite Hrun. cbn [fst snd]. split; [| split].
      * vm_compute. reflexivity.
      * exact Hxs.
      * replace 70%positive with (fresh (dom (heap m_append_short)))
          by (vm_compute; reflexivity).
        replace 71%positive
          with (fresh (dom (heap (alloc (Pair (Some 47%positive) None)
                                        m_append_short))))
          by (vm_compute; reflexivity).
        exact Hres.
Defined.

(** The same on a program: after [(append xs ys)] the variable [xs] prints
    as the concatenation. *)
Example append_runs :
  exists collected remaining,
  run "(define xs '(1 2 3)) (define ys '(4 5)) (append xs ys) xs ys"
  = (Ok tt,
     ("parsed> (define xs (quote (1 2 3)))" ++ nl ++ "#f" ++ nl
      ++ "parsed> (define ys (quote (4 5)))" ++ nl ++ "#f" ++ nl
      ++ "parsed> (append xs ys)" ++ nl ++ "(1 2 3 4 5)" ++ nl
      ++ "parsed> xs" ++ nl ++ "(1 2 3 4 5)" ++ nl
      ++ "parsed> ys" ++ nl ++ "(4 5)" ++ nl
      ++ "Recovering from an error" ++ nl
      ++ gc_line collected remaining)%string,
     ("Error: unexpected end of input" ++ nl)%string, []).
Proof. exists 25, 50. vm_compute. reflexivity. Qed.

(** ** Changes of the memory of cells *)

(** Every function of the interpreter changes the machine by the steps of
    [step] only: the proofs go through the definitions, one lemma for each
    loop.  What a run can do to the static cells and to the standard
    streams is then read off the steps. *)

(** Where a cell of the machine after a step comes from. *)
Lemma step_points_to allowed closes m m' a d :
  step allowed closes m m' -> points_to m' a d ->
  points_to m a d \/ allowed m d \/ mutable d.
Proof.
  intros Hs.
  destruct Hs as [m d' Hd | m x d' d0 Hx Hty Hd | m x f | m x Hx | m l Hl
                 | m f Hf | m m' Hsame];
    unfold points_to in *.
  - unfold alloc, make_cell. simpl.
    destruct (decide (a = fresh (dom (heap m)))) as [-> | Hne].
    + rewrite lookup_insert_eq. simpl. intros [= ->]. auto.
    + rewrite lookup_insert_ne by congruence. auto.
  - unfold write, store. destruct (heap m !! x) as [c |]; simpl; [| auto].
    destruct (decide (a = x)) as [-> | Hne].
    + rewrite lookup_insert_eq. simpl. intros [= ->]. auto.
    + rewrite lookup_insert_ne by congruence. auto.
  - unfold set_mark. destruct (heap m !! x) as [c |] eqn:Hc; simpl; [| auto].
    destruct (decide (a = x)) as [-> | Hne].
    + rewrite lookup_insert_eq, Hc. simpl. auto.
    + rewrite lookup_insert_ne by congruence. auto.
  - unfold free_cell, modify. simpl.
    destruct (decide (a = x)) as [-> | Hne].
    + rewrite lookup_delete_eq. discriminate.
    + rewrite lookup_delete_ne by congruence. auto.
  - unfold set_cells, modify. simpl. auto.
  - unfold fclose. destruct (bool_decide _); simpl; auto.
  - destruct Hsame as (-> & _). auto.
Qed.

Lemma step_streams allowed closes m m' :
  step allowed closes m m' ->
  cont_input (cont m') = cont_input (cont m)
  /\ cont_output (cont m') = cont_output (cont m).
Proof.
  intros Hs.
  destruct Hs as [m d' Hd | m x d' d0 Hx Hty Hd | m x f | m x Hx | m l Hl
                 | m f Hf | m m' Hsame].
  - split; reflexivity.
  - unfold write, store. destruct (heap m !! x); split; reflexivity.
  - unfold set_mark. destruct (heap m !! x); split; reflexivity.
  - split; reflexivity.
  - split; reflexivity.
  - unfold fclose. destruct (bool_decide _); split; reflexivity.
  - destruct Hsame as (_ & _ & -> & -> & _). split; reflexivity.
Qed.

(** The static cells stay. *)
Lemma statics_ok_not_mutable m a d :
  statics_ok m -> points_to m a d -> type_of d <> TYPE_BOOLEAN ->
  a <> cell_true /\ a <> cell_false.
Proof.
  unfold points_to. intros (Ht & Hf & _) Ha Hd.
  split; intros ->.
  - rewrite Ht in Ha. injection Ha as <-. apply Hd. reflexivity.
  - rewrite Hf in Ha. injection Ha as <-. apply Hd. reflexivity.
Qed.

Lemma step_statics_ok allowed closes m m' :
  step allowed closes m m' -> statics_ok m -> statics_ok m'.
Proof.
  intros Hs H. pose proof H as (Ht & Hf & Hct & Hcf).
  destruct Hs as [m d _ | m a d d0 Ha Hty Hd | m a b | m a Ha | m l Hl
                 | m f _ | m m' Hsame].
  - pose proof (points_to_allocated _ _ _ Ht) as Hnt.
    pose proof (points_to_allocated _ _ _ Hf) as Hnf.
    unfold statics_ok, points_to, alloc, make_cell in *. simpl.
    rewrite !lookup_insert_ne by congruence.
    rewrite !not_elem_of_cons. auto.
  - assert (Hb : type_of d0 <> TYPE_BOOLEAN)
      by (rewrite Hty; destruct d; try discriminate; destruct Hd).
    destruct (statics_ok_not_mutable m a d0 H Ha Hb) as [Hnt Hnf].
    unfold statics_ok, points_to, write, store in *.
    destruct (heap m !! a); simpl; [| auto].
    rewrite !lookup_insert_ne by congruence. auto.
  - unfold statics_ok, points_to, set_mark in *.
    destruct (heap m !! a) as [c |] eqn:Hc; simpl; [| auto].
    repeat split; auto.
    + destruct (decide (a = cell_true)) as [-> | Hne].
      * rewrite lookup_insert_eq. rewrite Hc in Ht. exact Ht.
      * rewrite lookup_insert_ne by exact Hne. exact Ht.
    + destruct (decide (a = cell_false)) as [-> | Hne].
      * rewrite lookup_insert_eq. rewrite Hc in Hf. exact Hf.
      * rewrite lookup_insert_ne by exact Hne. exact Hf.
  - unfold statics_ok, points_to, free_cell, modify in *. simpl.
    rewrite !lookup_delete_ne by congruence. auto.
  - unfold statics_ok, points_to, set_cells, modify in *. simpl.
    repeat split; auto.
  - unfold fclose. destruct (bool_decide _); exact H.
  - destruct Hsame as (Hh & Hc & _).
    unfold statics_ok, points_to in *. rewrite Hh, Hc. auto.
Qed.

Lemma steps_statics_ok allowed closes m m' :
  rtc (step allowed closes) m m' -> statics_ok m -> statics_ok m'.
Proof. induction 1; eauto using step_statics_ok. Qed.

(** The ports stay on the streams of their direction. *)
Lemma step_streams_ok allowed closes m m' :
  (forall m d, allowed m d -> standard_port m d) ->
  step allowed closes m m' -> streams_ok m -> streams_ok m'.
Proof.
  intros Hallowed Hs (Hin & Hout & Hip & Hop).
  destruct (step_streams _ _ _ _ Hs) as [Hi Ho].
  split; [congruence |]. split; [congruence |]. split.
  - intros a f Ha.
    destruct (step_points_to _ _ _ _ _ _ Hs Ha) as [Hm | [Hd | []]];
      [exact (Hip a f Hm) |].
    apply Hallowed in Hd. simpl in Hd. rewrite Hd, Hin. discriminate.
  - intros a f Ha.
    destruct (step_points_to _ _ _ _ _ _ Hs Ha) as [Hm | [Hd | []]];
      [exact (Hop a f Hm) |].
    apply Hallowed in Hd. simpl in Hd. rewrite Hd, Hout. discriminate.
Qed.

Lemma steps_streams_ok allowed closes m m' :
  (forall m d, allowed m d -> standard_port m d) ->
  rtc (step allowed closes) m m' -> streams_ok m -> streams_ok m'.
Proof. induction 2; eauto using step_streams_ok. Qed.

(** A handle is closed by a call of [fclose]. *)
Lemma steps_closed allowed closes m m' f :
  rtc (step allowed closes) m m' ->
  f ∈ closed m' -> f ∈ closed m \/ closes f.
Proof.
  induction 1 as [| m0 m1 m2 Hs _ IH]; [auto |]. intros Hf.
  destruct (IH Hf) as [Hm1 | Hc]; [| auto]. revert Hm1. clear IH Hf.
  destruct Hs as [s d' Hd | s x d' d0 Hx Hty Hd | s x b | s x Hx | s l Hl
                 | s g Hg | s s' Hsame].
  - auto.
  - unfold write, store. destruct (heap s !! x); auto.
  - unfold set_mark. destruct (heap s !! x); auto.
  - auto.
  - auto.
  - unfold fclose. destruct (bool_decide _); simpl; [auto |].
    rewrite elem_of_app, list_elem_of_singleton. intros [Hm | ->]; auto.
  - destruct Hsame as (_ & _ & _ & _ & ->). auto.
Qed.

(** A run that allocates nothing and stores nothing brings no port into
    being. *)
Lemma steps_port_before closes m m' a d :
  rtc (step (fun _ _ => False) closes) m m' ->
  ~ mutable d -> points_to m' a d -> points_to m a d.
Proof.
  intros Hs Hd. induction Hs as [| m0 m1 m2 Hs _ IH]; [auto |]. intros Ha.
  destruct (step_points_to _ _ _ _ _ _ Hs (IH Ha)) as [Hm | [[] | Hmut]];
    [exact Hm | destruct (Hd Hmut)].
Qed.

Lemma steps_closes_ports closes closes' m m' :
  rtc (step (fun _ _ => False) closes') m m' ->
  closes_ports closes m -> closes_ports closes m'.
Proof.
  intros Hs H a f. destruct (H a f) as [Hi Ho]. split; intros Ha.
  - apply Hi. apply (steps_port_before _ _ _ _ _ Hs); [intros [] | exact Ha].
  - apply Ho. apply (steps_port_before _ _ _ _ _ Hs); [intros [] | exact Ha].
Qed.

(** The primitive computations *)

Section TracedPrimitives.

Variable allowed : Machine -> Data -> Prop.
Variable closes : FILE -> Prop.

Lemma traced_ret {A} (a : A) : traced allowed closes (mret a : M A).
Proof. intros m. apply rtc_refl. Qed.

Lemma traced_bind {A B} (x : M A) (f : A -> M B) :
  traced allowed closes x -> (forall a, traced allowed closes (f a)) ->
  traced allowed closes (x ≫= f).
Proof.
  intros Hx Hf m. rewrite bind_unfold. specialize (Hx m).
  destruct (x m) as [[a | msg | |] m1]; simpl in *; auto.
  etrans; [exact Hx | apply Hf].
Qed.

(** The rest of a computation, from the machine that its first part
    leaves. *)
Lemma traced_bind_from {A B} (x : M A) (f : A -> M B) m :
  rtc (step allowed closes) m (snd (x m)) ->
  (forall a, fst (x m) = Ok a ->
             rtc (step allowed closes) (snd (x m)) (snd (f a (snd (x m))))) ->
  rtc (step allowed closes) m (snd ((x ≫= f) m)).
Proof.
  intros Hx Hf. rewrite bind_unfold.
  destruct (x m) as [[a | msg | |] m1]; simpl in *; auto.
  etrans; [exact Hx | apply Hf; reflexivity].
Qed.

Lemma traced_other {A} (c : M A) :
  (forall m, same_store m (snd (c m))) -> traced allowed closes c.
Proof. intros H m. apply rtc_once, step_other, H. Qed.

Lemma traced_crash {A} : traced allowed closes (@crash A).
Proof. apply traced_other. intros m. repeat split. Qed.

Lemma traced_timeout {A} : traced allowed closes (@timeout A).
Proof. apply traced_other. intros m. repeat split. Qed.

Lemma traced_get_machine : traced allowed closes get_machine.
Proof. apply traced_other. intros m. repeat split. Qed.

Lemma traced_fprintf f s : traced allowed closes (fprintf f s).
Proof.
  apply traced_other. intros m. unfold fprintf.
  destruct (bool_decide (f ∈ closed m)); repeat split.
Qed.

Lemma traced_fclose f : closes f -> traced allowed closes (fclose f).
Proof. intros Hf m. apply rtc_once, step_close, Hf. Qed.

Lemma traced_signal_error {A} msg : traced allowed closes (@signal_error A msg).
Proof.
  apply traced_other. intros m. unfold signal_error.
  destruct (cont_escape (cont m)); repeat split.
Qed.

Lemma traced_deref p : traced allowed closes (deref p).
Proof. intros m. rewrite deref_same_machine. apply rtc_refl. Qed.

Lemma traced_deref_env e : traced allowed closes (deref_env e).
Proof.
  apply traced_other. intros m. unfold deref_env.
  destruct e as [a |]; [| repeat split].
  destruct (envs m !! a); repeat split.
Qed.

Lemma traced_get_mark a : traced allowed closes (get_mark a).
Proof.
  apply traced_other. intros m. unfold get_mark.
  destruct (heap m !! a); repeat split.
Qed.

Lemma traced_put_env e f : traced allowed closes (put_env e f).
Proof. apply traced_other. intros m. repeat split. Qed.

Lemma traced_create_environment p :
  traced allowed closes (create_environment p).
Proof. apply traced_other. intros m. repeat split. Qed.

Lemma traced_set_escape n : traced allowed closes (set_escape n).
Proof. apply traced_other. intros m. repeat split. Qed.

Lemma traced_set_mark a b : traced allowed closes (set_mark a b).
Proof. intros m. apply rtc_once, step_mark. Qed.

Lemma traced_make_cell d :
  (forall m, allowed m d) -> traced allowed closes (make_cell d).
Proof.
  intros H m. apply rtc_once. apply (step_alloc allowed closes m d (H m)).
Qed.

(** A store that keeps the type of the cell, after the read that finds
    it. *)
Lemma traced_store_same_type a d m d0 :
  points_to m a d0 -> type_of d0 = type_of d -> mutable d ->
  rtc (step allowed closes) m (snd (store a d m)).
Proof.
  intros Ha Ht Hd. apply rtc_once.
  apply (step_write allowed closes m a d d0 Ha Ht Hd).
Qed.

Lemma traced_set_car l x : traced allowed closes (set_car l x).
Proof.
  intros m. unfold set_car. rewrite bind_unfold.
  destruct (deref l m) as [[d | | |] m1] eqn:Hd;
    try (rewrite <- (deref_same_machine l m), Hd; apply rtc_refl).
  apply deref_ok_points_to in Hd as (a & -> & Ha & ->).
  destruct d; try apply rtc_refl.
  apply (traced_store_same_type _ _ _ _ Ha); [reflexivity | exact I].
Qed.

Lemma traced_set_cdr l x : traced allowed closes (set_cdr l x).
Proof.
  intros m. unfold set_cdr. rewrite bind_unfold.
  destruct (deref l m) as [[d | | |] m1] eqn:Hd;
    try (rewrite <- (deref_same_machine l m), Hd; apply rtc_refl).
  apply deref_ok_points_to in Hd as (a & -> & Ha & ->).
  destruct d; try apply rtc_refl.
  apply (traced_store_same_type _ _ _ _ Ha); [reflexivity | exact I].
Qed.

Lemma traced_forM_ {A} (l : list A) (f : A -> M unit) :
  (forall x, traced allowed closes (f x)) -> traced allowed closes (forM_ l f).
Proof.
  intros Hf. induction l; simpl; [apply traced_ret |].
  apply traced_bind; auto.
Qed.

Lemma traced_mapM {A B} (f : A -> M B) (l : list A) :
  (forall x, traced allowed closes (f x)) -> traced allowed closes (mapM f l).
Proof.
  intros Hf. induction l; simpl; [apply traced_ret |].
  apply traced_bind; [auto |]. intros y.
  apply traced_bind; [auto |]. intros ys. apply traced_ret.
Qed.

Lemma traced_all2M f a b :
  (forall x y, traced allowed closes (f x y)) ->
  traced allowed closes (all2M f a b).
Proof.
  intros Hf. revert b. induction a as [| x a IH]; intros [| y b]; simpl;
    try apply traced_ret.
  apply traced_bind; [apply Hf |]. intros []; [apply IH | apply traced_ret].
Qed.

Lemma traced_catch {A} (body handler : M A) :
  traced allowed closes body -> traced allowed closes handler ->
  traced allowed closes (catch body handler).
Proof.
  intros Hb Hh m. unfold catch. specialize (Hb m).
  destruct (body m) as [[a | msg | |] m1]; simpl in *; auto.
  etrans; [exact Hb | apply Hh].
Qed.

End TracedPrimitives.

Create HintDb traced discriminated.
#[local] Hint Resolve traced_ret traced_crash traced_timeout traced_get_machine
  traced_fprintf traced_fclose traced_signal_error traced_deref traced_deref_env
  traced_get_mark traced_put_env traced_create_environment traced_set_escape
  traced_set_mark traced_set_car traced_set_cdr traced_make_cell : traced.
#[local] Hint Extern 1 (evaluated _ _) => split; [discriminate | exact I] : traced.

#[local] Hint Unfold assert type_check
  make_number make_character car cdr cons is_false print
  mark_environment_with mark_environment
  add_token add_identifier add_string next add syntax_error skip_whitespace
  expect expect_delimeter read_character char_to_double read_number
  read_string read_identifier read_token tokenize
  make_vector parse_simple_datum parse_abreviation parse_list
  parse_compound_datum
  environment_define env_cont environment_set
  make_procedure type_q_helper nth_param_any_optional nth_param_any
  nth_param_optional nth_param nth_param_integer optional_second_param
  atom_quote atom_if atom_set_b atom_and atom_or atom_begin atom_lambda
  atom_define atom_eqv_q atom_eq_q atom_equal_q plus_mul_helper atom_plus
  atom_mul atom_boolean_q atom_not atom_pair_q atom_cons atom_car atom_cdr
  set_car_cdr_helper atom_set_car_b atom_set_cdr_b atom_null_q atom_list_q
  atom_list atom_length duplicate append_destructive atom_append
  atom_string_q atom_string_length string_ref atom_string_ref port_handle
  atom_input_port_q atom_output_port_q atom_close_input_port
  atom_close_output_port get_output_port atom_write atom_display atom_error
  : traced.

(** One step of a proof that follows the definition of a computation. *)
Ltac traced_step :=
  first
    [ solve [auto 5 with traced]
    | match goal with
      | |- traced _ _ (_ ≫= _) => apply traced_bind; [| intros ?]
      | |- traced _ _ (forM_ _ _) => apply traced_forM_; intros ?; cbv beta
      | |- traced _ _ (mapM _ _) => apply traced_mapM; intros ?; cbv beta
      | |- traced _ _ (match ?x with _ => _ end) => destruct x
      | |- traced _ _ (if ?x then _ else _) => destruct x
      end
    | progress cbv zeta
    | progress autounfold with traced ].

Ltac traced_auto := repeat traced_step.

(** The interpreter, for any set of payloads that has those of the
    evaluator, and with any handle closed by [fclose]. *)

Section TracedInterpreter.

Variable allowed : Machine -> Data -> Prop.
Variable closes : FILE -> Prop.
Hypothesis allowed_evaluated : forall m d, evaluated m d -> allowed m d.
Hypothesis closes_any : forall f, closes f.

Lemma traced_print_rec fuel cell human is_car :
  traced allowed closes (print_rec fuel cell human is_car).
Proof.
  revert cell human is_car. induction fuel; intros; simpl; traced_auto.
Qed.
#[local] Hint Resolve traced_print_rec : traced.

Lemma traced_mark fuel cell : traced allowed closes (mark fuel cell).
Proof. revert cell. induction fuel; intros; simpl; traced_auto. Qed.
#[local] Hint Resolve traced_mark : traced.

Lemma traced_mark_environment fuel env :
  traced allowed closes (mark_environment fuel env).
Proof. traced_auto. Qed.

(** The lexer *)

Lemma traced_skip_comment fuel d input :
  traced allowed closes (skip_comment fuel d input).
Proof. revert d input. induction fuel; intros; simpl; traced_auto. Qed.
#[local] Hint Resolve traced_skip_comment : traced.

Lemma traced_skip_whitespace_loop fuel c input :
  traced allowed closes (skip_whitespace_loop fuel c input).
Proof. revert c input. induction fuel; intros; simpl; traced_auto. Qed.
#[local] Hint Resolve traced_skip_whitespace_loop : traced.

Lemma traced_read_number_loop fuel accum input :
  traced allowed closes (read_number_loop fuel accum input).
Proof. revert accum input. induction fuel; intros; simpl; traced_auto. Qed.
#[local] Hint Resolve traced_read_number_loop : traced.

Lemma traced_read_string_loop fuel input :
  traced allowed closes (read_string_loop fuel input).
Proof. revert input. induction fuel; intros; simpl; traced_auto. Qed.
#[local] Hint Resolve traced_read_string_loop : traced.

Lemma traced_read_identifier_loop fuel input :
  traced allowed closes (read_identifier_loop fuel input).
Proof. revert input. induction fuel; intros; simpl; traced_auto. Qed.
#[local] Hint Resolve traced_read_identifier_loop : traced.

Lemma traced_read_token input : traced allowed closes (read_token input).
Proof. traced_auto. Qed.
#[local] Hint Resolve traced_read_token : traced.

Lemma traced_read_tokens fuel input :
  traced allowed closes (read_tokens fuel input).
Proof. revert input. induction fuel; intros; simpl; traced_auto. Qed.
#[local] Hint Resolve traced_read_tokens : traced.

Lemma traced_tokenize text size : traced allowed closes (tokenize text size).
Proof. traced_auto. Qed.

(** Environments *)

Lemma traced_environment_get fuel env symbol :
  traced allowed closes (environment_get fuel env symbol).
Proof. revert env. induction fuel; intros; simpl; traced_auto. Qed.

Lemma traced_environment_set_loop fuel env symbol value :
  traced allowed closes (environment_set_loop fuel env symbol value).
Proof. revert env. induction fuel; intros; simpl; traced_auto. Qed.
#[local] Hint Resolve traced_environment_get traced_environment_set_loop : traced.

(** The built-in procedures *)

Lemma traced_nth_cell steps params :
  traced allowed closes (nth_cell steps params).
Proof. revert params. induction steps; intros; simpl; traced_auto. Qed.

Lemma traced_eq_helper_pair_equal fuel :
  (forall o1 o2 rs rc, traced allowed closes (eq_helper fuel o1 o2 rs rc)) /\
  (forall o1 o2 r, traced allowed closes (pair_equal fuel o1 o2 r)).
Proof.
  induction fuel as [| n [IHe IHp]]; split; intros; simpl; traced_auto.
  apply traced_all2M. intros. apply IHe.
Qed.

Lemma traced_eq_helper fuel o1 o2 rs rc :
  traced allowed closes (eq_helper fuel o1 o2 rs rc).
Proof. apply traced_eq_helper_pair_equal. Qed.

Lemma traced_length_loop fuel list length :
  traced allowed closes (length_loop fuel list length).
Proof. revert list length. induction fuel; intros; simpl; traced_auto. Qed.

Lemma traced_append_walk fuel current b :
  traced allowed closes (append_walk fuel current b).
Proof. revert current. induction fuel; intros; simpl; traced_auto. Qed.

(** A port is made on the stream that the continuation holds at the
    call. *)
Lemma traced_atom_current_input_port env params :
  traced allowed closes (atom_current_input_port env params).
Proof.
  intros m. unfold atom_current_input_port.
  apply traced_bind_from; [apply rtc_refl |]. intros m0 [= <-].
  change (snd (get_machine m)) with m.
  apply traced_bind_from; [| intros; apply rtc_refl].
  apply rtc_once. apply (step_alloc allowed closes m).
  apply allowed_evaluated. split; [discriminate | reflexivity].
Qed.

Lemma traced_atom_current_output_port env params :
  traced allowed closes (atom_current_output_port env params).
Proof.
  intros m. unfold atom_current_output_port.
  apply traced_bind_from; [apply rtc_refl |]. intros m0 [= <-].
  change (snd (get_machine m)) with m.
  apply traced_bind_from; [| intros; apply rtc_refl].
  apply rtc_once. apply (step_alloc allowed closes m).
  apply allowed_evaluated. split; [discriminate | reflexivity].
Qed.

#[local] Hint Resolve traced_nth_cell traced_eq_helper traced_length_loop
  traced_append_walk traced_atom_current_input_port
  traced_atom_current_output_port : traced.

Section TracedBuiltins.

Variable ev : eaddr -> ptr -> M ptr.
Hypothesis traced_ev : forall env cell, traced allowed closes (ev env cell).

Lemma traced_and_loop fuel env cell last :
  traced allowed closes (and_loop ev fuel env cell last).
Proof. revert cell last. induction fuel; intros; simpl; traced_auto. Qed.

Lemma traced_or_loop fuel env cell :
  traced allowed closes (or_loop ev fuel env cell).
Proof. revert cell. induction fuel; intros; simpl; traced_auto. Qed.

Lemma traced_begin_loop fuel env cell last :
  traced allowed closes (begin_loop ev fuel env cell last).
Proof. revert cell last. induction fuel; intros; simpl; traced_auto. Qed.

Lemma traced_plus_mul_loop fuel env z is_add result :
  traced allowed closes (plus_mul_loop ev fuel env z is_add result).
Proof. revert z result. induction fuel; intros; simpl; traced_auto. Qed.

Lemma traced_list_loop fuel env result params :
  traced allowed closes (list_loop ev fuel env result params).
Proof. revert params. induction fuel; intros; simpl; traced_auto. Qed.

Lemma traced_append_loop fuel env params n result :
  traced allowed closes (append_loop ev fuel env params n result).
Proof. revert n result. induction fuel; intros; simpl; traced_auto. Qed.

Lemma traced_bind_formals fuel env new_env formals params :
  traced allowed closes (bind_formals ev fuel env new_env formals params).
Proof. revert formals params. induction fuel; intros; simpl; traced_auto. Qed.

Lemma traced_eval_body fuel new_env statement :
  traced allowed closes (eval_body ev fuel new_env statement).
Proof. revert statement. induction fuel; intros; simpl; traced_auto. Qed.

(** [string-set!] stores a string through a pointer to a string. *)
Lemma traced_atom_string_set env params :
  traced allowed closes (atom_string_set ev env params).
Proof.
  unfold atom_string_set.
  apply traced_bind; [traced_auto |]. intros string.
  apply traced_bind; [traced_auto |]. intros k.
  apply traced_bind; [traced_auto |]. intros c.
  intros m. rewrite bind_unfold.
  destruct (deref string m) as [[d | | |] m1] eqn:Hd;
    try (rewrite <- (deref_same_machine string m), Hd; apply rtc_refl).
  apply deref_ok_points_to in Hd as (a & -> & Ha & ->).
  rewrite bind_unfold.
  destruct (deref c m) as [[dc | | |] m1] eqn:Hc;
    try (rewrite <- (deref_same_machine c m), Hc; apply rtc_refl).
  apply deref_ok_points_to in Hc as (a' & -> & _ & ->).
  destruct d; try apply rtc_refl. destruct dc; try apply rtc_refl.
  destruct (_ || _); [apply traced_signal_error |].
  rewrite bind_unfold.
  match goal with
  | |- context [store a ?d m] =>
      pose proof (traced_store_same_type allowed closes a d m _ Ha eq_refl I)
        as H2
  end.
  destruct (store _ _ _) as [[[] | | |] m2]; exact H2.
Qed.

#[local] Hint Resolve traced_and_loop traced_or_loop traced_begin_loop
  traced_plus_mul_loop traced_list_loop traced_append_loop
  traced_atom_string_set : traced.

Lemma traced_call f fuel env params :
  traced allowed closes (call ev f fuel env params).
Proof. destruct f; cbn [call]; traced_auto. Qed.

End TracedBuiltins.

Lemma traced_eval fuel env cell : traced allowed closes (eval fuel env cell).
Proof.
  revert env cell. induction fuel; intros; simpl; traced_auto;
    auto using traced_call, traced_bind_formals, traced_eval_body.
Qed.

(** The reader, which allocates a boolean cell for a boolean token. *)

Section TracedReader.

Hypothesis allowed_boolean : forall m b, allowed m (Boolean b).

Section TracedParser.

Variable parse : TokenList -> M (ptr * TokenList).
Hypothesis traced_parse : forall tokens, traced allowed closes (parse tokens).

Lemma traced_parse_vector_loop fuel stack tokens :
  traced allowed closes (parse_vector_loop parse fuel stack tokens).
Proof. revert stack tokens. induction fuel; intros; simpl; traced_auto. Qed.

(** The fresh vector cell is filled in place. *)
Lemma traced_fill_vector {A} n (stack : list ptr) (k : addr -> M A) :
  (forall a, traced allowed closes (k a)) ->
  traced allowed closes
    (vector ← make_vector n None; store vector (Vector stack) ;; k vector).
Proof.
  intros Hk m. unfold make_vector.
  apply traced_bind_from.
  { apply traced_make_cell. intros m0. apply allowed_evaluated.
    split; [discriminate | exact I]. }
  intros a [= <-].
  change (snd (make_cell (Vector (replicate n None)) m))
    with (alloc (Vector (replicate n None)) m).
  pose proof (points_to_alloc_new m (Vector (replicate n None))) as Hnew.
  apply traced_bind_from; [| intros [] _; apply Hk].
  apply (traced_store_same_type allowed closes _ _ _ _ Hnew);
    [reflexivity | exact I].
Qed.

Lemma traced_parse_vector fuel tokens :
  traced allowed closes (parse_vector parse fuel tokens).
Proof.
  unfold parse_vector.
  destruct (peek tokens) as [t |]; [| apply traced_signal_error].
  destruct t; try apply traced_ret.
  apply traced_bind; [apply traced_parse_vector_loop |]. intros [stack tokens'].
  apply traced_fill_vector. intros a. apply traced_ret.
Qed.

Lemma traced_parse_list_loop fuel list tokens :
  traced allowed closes (parse_list_loop parse fuel list tokens).
Proof. revert list tokens. induction fuel; intros; simpl; traced_auto. Qed.

End TracedParser.

Lemma traced_parse_datum fuel tokens :
  traced allowed closes (parse_datum fuel tokens).
Proof.
  revert tokens. induction fuel; intros; simpl; traced_auto;
    auto using traced_parse_list_loop, traced_parse_vector.
Qed.

End TracedReader.

End TracedInterpreter.

(** The collector *)

Section TracedCollector.

Variable allowed : Machine -> Data -> Prop.
Variable closes : FILE -> Prop.

(** The sweep frees cells of the list of allocated cells only, what it
    returns is taken from its two lists, and the handles it closes are
    those of the ports it frees that are not on their standard stream. *)
Lemma traced_sweep cells remaining m :
  cells ⊆ cont_cells (cont m) -> closes_ports closes m ->
  rtc (step allowed closes) m (snd (sweep cells remaining m))
  /\ (forall l, fst (sweep cells remaining m) = Ok l ->
                l ⊆ cells ++ remaining
                /\ cont_cells (cont (snd (sweep cells remaining m)))
                   = cont_cells (cont m)).
Proof.
  revert remaining m.
  induction cells as [| cell rest IH]; intros remaining m Hsub Hports; simpl.
  - split; [apply rtc_refl |]. intros l [= <-]. auto.
  - assert (Hcell : cell ∈ cont_cells (cont m)) by (apply Hsub; left).
    assert (Hrest : rest ⊆ cont_cells (cont m))
      by (intros x Hx; apply Hsub; right; exact Hx).
    rewrite bind_unfold. unfold get_mark.
    destruct (heap m !! cell) as [c |] eqn:Hc;
      [| split; [apply rtc_refl | discriminate]].
    destruct (cell_mark c).
    + rewrite bind_unfold.
      pose proof (traced_set_mark allowed closes cell false m) as H1.
      pose proof (steps_closes_ports closes closes m _
                    (traced_set_mark _ closes cell false m) Hports) as Hports1.
      assert (Hc1 : cont_cells (cont (snd (set_mark cell false m)))
                    = cont_cells (cont m)).
      { unfold set_mark. rewrite Hc. reflexivity. }
      destruct (set_mark cell false m) as [[[] | | |] m1];
        simpl in H1, Hc1, Hports1;
        try (split; [exact H1 | discriminate]).
      destruct (IH (cell :: remaining) m1) as [H2 Hl];
        [rewrite Hc1; exact Hrest | exact Hports1 |].
      split; [etrans; [exact H1 | exact H2] |].
      intros l Hfst. destruct (Hl l Hfst) as [Hl1 Hl2]. split.
      * intros x Hx. apply Hl1 in Hx. revert Hx.
        repeat (rewrite elem_of_app || rewrite elem_of_cons). tauto.
      * rewrite Hl2. exact Hc1.
    + rewrite bind_unfold. unfold deref. rewrite Hc. cbv iota beta.
      rewrite bind_unfold.
      assert (Hdata : points_to m cell (cell_data c))
        by (unfold points_to; rewrite Hc; reflexivity).
      set (finalize := match cell_data c with
                       | InputPort f => if decide (f = stdin) then mret tt else fclose f
                       | OutputPort f => if decide (f = stdout) then mret tt else fclose f
                       | _ => mret tt
                       end).
      assert (Hfin : traced allowed closes finalize).
      { subst finalize.
        destruct (cell_data c) as [| | | | | | | | f | f];
          try apply traced_ret;
          (destruct (decide _) as [| Hne]; [apply traced_ret |]);
          apply traced_fclose; destruct (Hports cell f) as [Hi Ho]; auto. }
      assert (Hsame : heap (snd (finalize m)) = heap m
                      /\ cont_cells (cont (snd (finalize m)))
                         = cont_cells (cont m)).
      { subst finalize.
        destruct (cell_data c) as [| | | | | | | | f | f];
          try (split; reflexivity);
          (destruct (decide _); [split; reflexivity |]);
          unfold fclose; destruct (bool_decide _); split; reflexivity. }
      specialize (Hfin m). destruct Hsame as [Hh1 Hc1].
      assert (Hports1 : closes_ports closes (snd (finalize m))).
      { intros a f. unfold points_to. rewrite Hh1. apply Hports. }
      destruct (finalize m) as [[[] | | |] m1];
        simpl in Hfin, Hh1, Hc1, Hports1;
        try (split; [exact Hfin | discriminate]).
      rewrite bind_unfold.
      change (free_cell cell m1) with (Ok tt, snd (free_cell cell m1)).
      cbv iota beta.
      assert (H2 : forall al cl, step al cl m1 (snd (free_cell cell m1)))
        by (intros; apply step_free; rewrite Hc1; exact Hcell).
      destruct (IH remaining (snd (free_cell cell m1))) as [H3 Hl].
      { simpl. rewrite Hc1. exact Hrest. }
      { apply (steps_closes_ports closes closes m1); [| exact Hports1].
        apply rtc_once, H2. }
      split; [etrans; [exact Hfin |]; eapply rtc_l; [apply H2 | exact H3] |].
      intros l Hfst. destruct (Hl l Hfst) as [Hl1 Hl2]. split.
      * intros x Hx. apply Hl1 in Hx. revert Hx.
        repeat (rewrite elem_of_app || rewrite elem_of_cons). tauto.
      * rewrite Hl2. simpl. exact Hc1.
Qed.

Lemma collect_garbage_steps fuel m :
  closes_ports closes m ->
  rtc (step allowed closes) m (snd (collect_garbage fuel m)).
Proof.
  intros Hports. unfold collect_garbage.
  apply traced_bind_from; [apply rtc_refl |]. intros m0 _.
  change (snd (get_machine m)) with m.
  apply traced_bind_from; [apply traced_mark_environment |]. intros [] _.
  pose proof (steps_closes_ports closes closes m _
                (traced_mark_environment _ closes fuel
                   (Some (cont_env (cont m0))) m) Hports) as Hports1.
  revert Hports1.
  generalize (snd (mark_environment fuel (Some (cont_env (cont m0))) m)).
  clear m Hports. intros m Hports.
  apply traced_bind_from; [apply rtc_refl |]. intros m1 [= <-].
  change (snd (get_machine m)) with m.
  destruct (traced_sweep (cont_cells (cont m)) [] m) as [H1 Hl];
    [intros x Hx; exact Hx | exact Hports |].
  apply traced_bind_from; [exact H1 |]. intros l Hfst.
  destruct (Hl l Hfst) as [Hl1 Hl2]. rewrite app_nil_r in Hl1.
  revert Hl2. generalize (snd (sweep (cont_cells (cont m)) [] m)).
  intros m2 Hl2.
  apply traced_bind_from.
  { apply rtc_once, step_cells. rewrite Hl2. exact Hl1. }
  intros [] _.
  apply traced_bind_from; [apply rtc_refl |]. intros m3 _.
  apply traced_fprintf.
Qed.

End TracedCollector.

Lemma traced_collect_garbage allowed closes fuel :
  (forall f, closes f) -> traced allowed closes (collect_garbage fuel).
Proof.
  intros Hany m. apply collect_garbage_steps. intros a f. split; auto.
Qed.

(** The driver *)

Section TracedDriver.

Variable allowed : Machine -> Data -> Prop.
Variable closes : FILE -> Prop.
Hypothesis allowed_evaluated : forall m d, evaluated m d -> allowed m d.
Hypothesis allowed_boolean : forall m b, allowed m (Boolean b).
Hypothesis closes_any : forall f, closes f.

Lemma traced_load_loop fuel env tokens :
  traced allowed closes (load_loop fuel env tokens).
Proof.
  pose proof (traced_parse_datum allowed closes allowed_evaluated allowed_boolean).
  pose proof (traced_eval allowed closes allowed_evaluated closes_any).
  pose proof (traced_print_rec allowed closes).
  revert tokens. induction fuel; intros; simpl; traced_auto.
Qed.

Lemma traced_atom_api_load fuel data :
  traced allowed closes (atom_api_load fuel data).
Proof.
  unfold atom_api_load.
  apply traced_bind; [apply traced_get_machine |]. intros m.
  apply traced_bind.
  - apply traced_catch; [| apply traced_fprintf].
    apply traced_bind; [apply traced_set_escape |]. intros _.
    apply traced_bind; [apply traced_tokenize |]. intros tokens.
    apply traced_load_loop.
  - intros _.
    apply traced_bind; [apply traced_collect_garbage, closes_any |].
    intros _. apply traced_set_escape.
Qed.

End TracedDriver.

(** What the collector and a load do to the static cells and to the
    standard streams. *)

Lemma evaluated_standard_port m d : evaluated m d -> standard_port m d.
Proof. intros [_ H]. exact H. Qed.

Lemma load_steps fuel data m :
  rtc (step standard_port (fun _ => True)) m (snd (atom_api_load fuel data m)).
Proof.
  apply traced_atom_api_load.
  - apply evaluated_standard_port.
  - intros m0 b. exact I.
  - intros f. exact I.
Qed.

Lemma statics_ok_opened : statics_ok opened_machine.
Proof.
  assert (Ht : bool_decide (cell_true ∉ cont_cells (cont opened_machine)) = true)
    by (vm_compute; reflexivity).
  assert (Hf : bool_decide (cell_false ∉ cont_cells (cont opened_machine)) = true)
    by (vm_compute; reflexivity).
  apply bool_decide_eq_true in Ht, Hf.
  split; [vm_compute; reflexivity |].
  split; [vm_compute; reflexivity |].
  split; assumption.
Qed.

Lemma collect_garbage_statics_ok fuel m :
  statics_ok m -> statics_ok (snd (collect_garbage fuel m)).
Proof.
  apply (steps_statics_ok standard_port (fun _ => True)).
  apply traced_collect_garbage. intros f. exact I.
Qed.

(** ** The static boolean cells (C8) *)

(** Where the static cells are returned. *)
Lemma returns_boolean_ret b : returns_boolean (mret (bool_cell b)).
Proof. intros m p m' [= <- _]. exists b. reflexivity. Qed.

Lemma returns_boolean_bind {A} (x : M A) (f : A -> M ptr) :
  (forall a, returns_boolean (f a)) -> returns_boolean (x ≫= f).
Proof.
  intros Hf m p m'. rewrite bind_unfold.
  destruct (x m) as [[a | msg | |] m1]; try discriminate. apply Hf.
Qed.

Lemma returns_boolean_crash : returns_boolean crash.
Proof. intros m p m'. discriminate. Qed.

Lemma returns_boolean_timeout : returns_boolean timeout.
Proof. intros m p m'. discriminate. Qed.

Lemma returns_boolean_signal_error msg : returns_boolean (signal_error msg).
Proof.
  intros m p m'. unfold signal_error.
  destruct (cont_escape (cont m)); discriminate.
Qed.

Ltac returns_boolean_step :=
  first [ apply returns_boolean_ret
        | apply returns_boolean_crash
        | apply returns_boolean_timeout
        | apply returns_boolean_signal_error
        | apply returns_boolean_bind; intros ?
        | match goal with
          | |- returns_boolean (match ?d with _ => _ end) => destruct d
          | |- returns_boolean (if ?b then _ else _) => destruct b
          end ].

Lemma returns_boolean_comparison_loop ev fuel c env :
  forall params a, returns_boolean (comparison_loop ev fuel c env params a).
Proof.
  induction fuel as [| n IH]; intros params a; cbn [comparison_loop];
    [apply returns_boolean_timeout |].
  do 4 (apply returns_boolean_bind; intros ?).
  repeat first [apply IH | returns_boolean_step].
Qed.

Lemma boolean_procedures_return ev fuel f env params :
  f ∈ boolean_procedures ev fuel -> returns_boolean (f env params).
Proof.
  unfold boolean_procedures. intros H.
  repeat (apply elem_of_cons in H as [-> | H]).
  all: try (apply elem_of_nil in H; destruct H).
  all: try (repeat returns_boolean_step; fail).
  all: apply returns_boolean_bind; intros a;
    apply returns_boolean_comparison_loop.
Qed.

(** C8, as the claim states it, fails in the reader: the cell read from
    [#t] is a boolean cell allocated on the heap, at an address that is
    neither of the two static cells. *)
Lemma reader_allocates_booleans :
  fst (read 30 "#t" ready) = Ok (Some 42%positive)
  /\ points_to (snd (read 30 "#t" ready)) 42%positive (Boolean true)
  /\ 42%positive <> cell_true /\ 42%positive <> cell_false
  /\ 42%positive ∈ cont_cells (cont (snd (read 30 "#t" ready))).
Proof.
  split; [vm_compute; reflexivity |].
  split; [vm_compute; reflexivity |].
  split; [discriminate |]. split; [discriminate |].
  assert (H : bool_decide
                (42%positive ∈ cont_cells (cont (snd (read 30 "#t" ready))))
              = true) by (vm_compute; reflexivity).
  apply bool_decide_eq_true in H. exact H.
Qed.

(** C8 (amended): [make_boolean] returns one of the two static cells, and
    that cell is what the type predicates, [not], [null?], [list?], the
    equivalences, the numerical comparisons, [define], the procedures that
    close a port, [write] and [display] return.  The reader instead
    allocates a new boolean cell for each boolean token, never one of the
    two.  The static cells hold their values and are not on the list of
    allocated cells, which is all the collector frees, and this is so again
    after the allocation of a cell, after a store into a cell that holds no
    boolean, and after a collection. *)
Theorem boolean_singletons :
  (forall b, make_boolean b = cell_true \/ make_boolean b = cell_false) /\
  (forall m b, statics_ok m -> points_to m (make_boolean b) (Boolean b)) /\
  (forall ev fuel f env params m p m',
      f ∈ boolean_procedures ev fuel -> f env params m = (Ok p, m') ->
      p = Some cell_true \/ p = Some cell_false) /\
  (forall tokens b m,
      statics_ok m -> peek tokens = Some (TOKEN_BOOLEAN b) ->
      parse_simple_datum tokens m
      = (Ok (Some (fresh (dom (heap m))), skip tokens), alloc (Boolean b) m)
      /\ fresh (dom (heap m)) <> cell_true
      /\ fresh (dom (heap m)) <> cell_false) /\
  (forall d m, statics_ok m -> statics_ok (alloc d m)) /\
  (forall a d d0 m,
      points_to m a d0 -> type_of d0 <> TYPE_BOOLEAN ->
      statics_ok m -> statics_ok (write a d m)) /\
  (forall fuel m, statics_ok m -> statics_ok (snd (collect_garbage fuel m))).
Proof.
  split; [| split; [| split; [| split; [| split; [| split]]]]].
  - intros []; simpl; auto.
  - intros m [] (Ht & Hf & _); assumption.
  - intros ev fuel f env params m p m' Hf Hrun.
    destruct (boolean_procedures_return ev fuel f env params Hf m p m' Hrun)
      as [[] ->]; [left | right]; reflexivity.
  - intros tokens b m (Ht & Hf & _) Hpeek.
    split; [| split].
    + unfold parse_simple_datum. rewrite Hpeek. reflexivity.
    + intros Heq. apply (points_to_allocated _ _ _ Ht). congruence.
    + intros Heq. apply (points_to_allocated _ _ _ Hf). congruence.
  - intros d m.
    apply (step_statics_ok (fun _ _ => True) (fun _ => True)).
    apply step_alloc. exact I.
  - intros a d d0 m Ha Hd H.
    destruct (statics_ok_not_mutable m a d0 H Ha Hd) as [Hnt Hnf].
    destruct H as (Ht & Hf & Hct & Hcf).
    unfold statics_ok, points_to, write, store in *.
    destruct (heap m !! a); simpl; [| auto].
    rewrite !lookup_insert_ne by congruence. auto.
  - apply collect_garbage_statics_ok.
Qed.

Lemma boolean_singletons_witness :
  statics_ok opened_machine
  /\ statics_ok (snd (collect_garbage 200 opened_machine))
  /\ statics_ok (alloc (Boolean true) opened_machine)
  /\ statics_ok (write 45 (Pair (Some 44%positive) (Some 45%positive)) m_not)
  /\ (exists p, fst (atom_not (eval 30) root (Some 45%positive) m_not) = Ok p
                /\ (p = Some cell_true \/ p = Some cell_false))
  /\ fst (parse_simple_datum (mkTokens [] [TOKEN_BOOLEAN true] 0 1)
            opened_machine)
     = Ok (Some (fresh (dom (heap opened_machine))),
           mkTokens [] [TOKEN_BOOLEAN true] 1 1).
Proof.
  pose proof statics_ok_opened as H0.
  assert (H1 : statics_ok m_not).
  { split; [vm_compute; reflexivity |]. split; [vm_compute; reflexivity |].
    split; apply (bool_decide_unpack _); vm_compute; exact I. }
  destruct boolean_singletons as (_ & _ & Hproc & Hread & Halloc & Hwrite & Hgc).
  split; [exact H0 |]. split; [| split; [| split; [| split]]].
  - apply Hgc. exact H0.
  - apply Halloc. exact H0.
  - apply (Hwrite 45%positive _ (Pair (Some 44%positive) None));
      [vm_compute; reflexivity | discriminate | exact H1].
  - exists (Some cell_false). split; [vm_compute; reflexivity |].
    apply (Hproc (eval 30) 30%nat (atom_not (eval 30)) root (Some 45%positive)
             m_not (Some cell_false)
             (snd (atom_not (eval 30) root (Some 45%positive) m_not))).
    + unfold boolean_procedures. do 5 constructor 2. constructor 1.
    + vm_compute. reflexivity.
  - destruct (Hread (mkTokens [] [TOKEN_BOOLEAN true] 0 1) true opened_machine
                H0 eq_refl) as (Hrun & _ & _).
    rewrite Hrun. reflexivity.
Defined.
(** ** Closing the standard streams (C9) *)

(** The machine that [atom_api_open] returns holds no port. *)
Lemma opened_no_port a d :
  points_to opened_machine a d ->
  type_of d <> TYPE_INPUT_PORT /\ type_of d <> TYPE_OUTPUT_PORT.
Proof.
  assert (H : bool_decide
                (map_Forall
                   (fun (_ : addr) c =>
                      type_of (cell_data c) <> TYPE_INPUT_PORT
                      /\ type_of (cell_data c) <> TYPE_OUTPUT_PORT)
                   (heap opened_machine)) = true)
    by (vm_compute; reflexivity).
  apply bool_decide_eq_true in H. unfold points_to.
  destruct (heap opened_machine !! a) as [c |] eqn:E; [| discriminate].
  intros [= <-]. exact (H a c E).
Qed.

Lemma streams_ok_opened : streams_ok opened_machine.
Proof.
  split; [vm_compute; reflexivity |]. split; [vm_compute; reflexivity |].
  split; intros a f Ha; apply opened_no_port in Ha as [Hi Ho];
    [destruct Hi | destruct Ho]; reflexivity.
Qed.

Lemma reachable_streams_ok m : reachable m -> streams_ok m.
Proof.
  induction 1 as [| fuel data m _ IH]; [apply streams_ok_opened |].
  apply (steps_streams_ok standard_port (fun _ => True) m); auto.
  apply load_steps.
Qed.

(** The collector closes the handle of a port it frees unless it is the
    standard stream of the direction of the port. *)
Lemma collect_garbage_standard_streams fuel m f :
  streams_ok m -> standard f ->
  f ∈ closed (snd (collect_garbage fuel m)) -> f ∈ closed m.
Proof.
  intros (_ & _ & Hip & Hop) Hf Hclosed.
  assert (Hports : closes_ports collectable m).
  { intros a g. split; intros Ha Hne; split; auto.
    - exact (Hip a g Ha).
    - exact (Hop a g Ha). }
  destruct (steps_closed _ _ _ _ f
              (collect_garbage_steps standard_port collectable fuel m Hports)
              Hclosed) as [H | [Hi Ho]]; [exact H |].
  destruct Hf; contradiction.
Qed.

(** C9: the two built-ins close whatever handle the port holds.  When the
    argument evaluates to an output port on [stdout], as
    [(current-output-port)] does, [close-output-port] gives [stdout] to
    [fclose]; likewise [close-input-port] and [stdin].  Only the collector
    tests for the standard streams: in the machines reachable from
    [atom_api_open] by loads the streams of the continuation are the
    standard ones and no port holds the standard stream of the other
    direction, and from such a machine a collection closes neither
    [stdin] nor [stdout]. *)
Theorem close_port_closes_standard_stream :
  (forall ev env p arg rest port m m1,
      points_to m p (Pair (Some arg) rest) ->
      ev env (Some arg) m = (Ok (Some port), m1) ->
      (points_to m1 port (OutputPort stdout) -> stdout ∉ closed m1 ->
       exists m2,
         atom_close_output_port ev env (Some p) m = (Ok (bool_cell false), m2)
         /\ closed m2 = closed m1 ++ [stdout]) /\
      (points_to m1 port (InputPort stdin) -> stdin ∉ closed m1 ->
       exists m2,
         atom_close_input_port ev env (Some p) m = (Ok (bool_cell false), m2)
         /\ closed m2 = closed m1 ++ [stdin])) /\
  (forall m, reachable m -> streams_ok m) /\
  (forall fuel m f,
      streams_ok m -> standard f ->
      f ∈ closed (snd (collect_garbage fuel m)) -> f ∈ closed m).
Proof.
  split; [| split;
            [exact reachable_streams_ok | exact collect_garbage_standard_streams]].
  intros ev env p arg rest port m m1 Hp Hev. split; intros Hport Hopen.
  - unfold atom_close_output_port.
    rewrite (bind_ok _ _ _ _ _
               (nth_param_first ev env p arg rest m port m1 _ Hp Hev Hport)).
    rewrite (bind_ok _ _ _ _ _ (deref_points_to _ _ _ Hport)).
    simpl port_handle. rewrite bind_unfold, ret_unfold, bind_unfold.
    unfold fclose. rewrite bool_decide_eq_false_2 by exact Hopen.
    eexists. split; reflexivity.
  - unfold atom_close_input_port.
    rewrite (bind_ok _ _ _ _ _
               (nth_param_first ev env p arg rest m port m1 _ Hp Hev Hport)).
    rewrite (bind_ok _ _ _ _ _ (deref_points_to _ _ _ Hport)).
    simpl port_handle. rewrite bind_unfold, ret_unfold, bind_unfold.
    unfold fclose. rewrite bool_decide_eq_false_2 by exact Hopen.
    eexists. split; reflexivity.
Qed.

Lemma close_port_closes_standard_stream_witness :
  (exists m2,
      atom_close_output_port (eval 30) root (Some 46%positive) m_close
      = (Ok (bool_cell false), m2)
      /\ closed m2
         = closed (snd (eval 30 root (Some 45%positive) m_close)) ++ [stdout])
  /\ (stdout ∈ closed (snd (collect_garbage 200 opened_machine)) ->
      stdout ∈ closed opened_machine).
Proof.
  assert (Hp : points_to m_close 46%positive (Pair (Some 45%positive) None))
    by (vm_compute; reflexivity).
  assert (Hev : eval 30 root (Some 45%positive) m_close
                = (Ok (Some 47%positive),
                   snd (eval 30 root (Some 45%positive) m_close)))
    by (vm_compute; reflexivity).
  assert (Hport : points_to (snd (eval 30 root (Some 45%positive) m_close))
                            47%positive (OutputPort stdout))
    by (vm_compute; reflexivity).
  assert (Hopen : stdout ∉ closed (snd (eval 30 root (Some 45%positive) m_close))).
  { assert (H : closed (snd (eval 30 root (Some 45%positive) m_close)) = [])
      by (vm_compute; reflexivity).
    rewrite H. apply not_elem_of_nil. }
  split.
  - exact (proj1 (proj1 close_port_closes_standard_stream
                    _ _ _ _ _ _ _ _ Hp Hev) Hport Hopen).
  - apply (proj2 (proj2 close_port_closes_standard_stream)).
    + apply (proj1 (proj2 close_port_closes_standard_stream)), reachable_open.
    + right. reflexivity.
Defined.

(** On a program: [stdout] is closed, and the driver's next write to it is
    undefined behaviour. *)
Example close_runs :
  run "(close-output-port (current-output-port))"
  = (Crash, ("parsed> (close-output-port (current-output-port))" ++ nl)%string,
     ""%string, [stdout])
  /\ closed (snd (eval_text 30 "(close-input-port (current-input-port))" ready))
     = [stdin].
Proof. split; vm_compute; reflexivity. Qed.

(** * Properties of the rest of the interpreter *)

(** ** Environments: definition and lookup *)

Lemma find_node_update symbol value bucket bucket' other :
  update_node symbol value bucket = Some bucket' ->
  find_node other bucket'
  = if String.eqb other symbol then Some value else find_node other bucket.
Proof.
  revert bucket'. induction bucket as [| node rest IH]; intros bucket'; simpl.
  - discriminate.
  - destruct (String.eqb symbol (node_symbol node)) eqn:Hs.
    + intros [= <-]. simpl. apply String.eqb_eq in Hs. subst symbol.
      destruct (String.eqb other (node_symbol node)); reflexivity.
    + destruct (update_node symbol value rest) as [rest' |]; [| discriminate].
      intros [= <-]. simpl.
      destruct (String.eqb other (node_symbol node)) eqn:Ho.
      * apply String.eqb_eq in Ho. subst other.
        rewrite String.eqb_sym, Hs. reflexivity.
      * apply IH. reflexivity.
Qed.

(** The bucket that [environment_define] leaves: the lookup of the name
    gives the new value, the lookup of any other name is as before. *)
Lemma find_node_defined symbol value bucket other :
  find_node other
    (match update_node symbol value bucket with
     | Some b => b
     | None => mkNode symbol value :: bucket
     end)
  = if String.eqb other symbol then Some value else find_node other bucket.
Proof.
  destruct (update_node symbol value bucket) as [b |] eqn:Hu.
  - apply (find_node_update _ _ _ _ _ Hu).
  - reflexivity.
Qed.

Lemma environment_define_frame env symbol value m f bucket :
  envs m !! env = Some f -> bucket_of f symbol = Some bucket ->
  environment_define env symbol value m
  = (Ok tt,
     set_envs
       (<[env := mkEnv (env_parent f)
                   (<[bucket_index (env_mask f) (MurmurHash2 symbol) :=
                        match update_node symbol value bucket with
                        | Some b => b
                        | None => mkNode symbol value :: bucket
                        end]> (env_data f))
                   (env_mask f)]> (envs m)) m).
Proof.
  intros Hf Hb. unfold environment_define.
  rewrite (bind_ok _ _ _ _ _ (deref_env_lookup _ _ _ Hf)).
  unfold bucket_of in Hb. rewrite Hb. reflexivity.
Qed.

(** X1: after [environment_define env s v] on a frame that exists, a lookup
    of [s] from [env] returns [v], whether the value of a node that was
    there is replaced or a node is put in front of the chain; no cell
    changes. *)
Theorem environment_define_then_get fuel env symbol value m f bucket a :
  envs m !! env = Some f -> bucket_of f symbol = Some bucket ->
  points_to m a (Symbol symbol) ->
  exists m',
    environment_define env symbol value m = (Ok tt, m')
    /\ heap m' = heap m /\ cont m' = cont m
    /\ environment_get (S fuel) env (Some a) m' = (Ok value, m').
Proof.
  intros Hf Hb Ha. eexists. split; [apply (environment_define_frame _ _ _ _ _ _ Hf Hb) |].
  split; [reflexivity |]. split; [reflexivity |].
  match goal with |- environment_get _ _ _ ?mm = _ => set (m' := mm) end.
  assert (Ha' : points_to m' a (Symbol symbol)) by exact Ha.
  cbn [environment_get].
  rewrite (bind_ok _ _ _ _ _ (deref_points_to _ _ _ Ha')).
  rewrite (bind_ok _ _ _ _ _
             (deref_env_lookup m' _ _ (lookup_insert_eq (envs m) env _))).
  cbn [env_data env_mask env_parent].
  unfold bucket_of in Hb. apply lookup_lt_Some in Hb as Hlt.
  rewrite list_lookup_insert_eq by exact Hlt.
  rewrite find_node_defined, String.eqb_refl. reflexivity.
Qed.

Lemma signal_error_fst {A} msg m m' :
  cont m' = cont m ->
  fst (@signal_error A msg m') = fst (@signal_error A msg m).
Proof.
  intros H. unfold signal_error. rewrite H.
  destruct (cont_escape (cont m)); reflexivity.
Qed.

(** X2: [environment_define] of a name leaves the lookup of every other name
    as it was, from any frame. *)
Theorem environment_define_other_names env symbol value m f bucket a other :
  envs m !! env = Some f -> bucket_of f symbol = Some bucket ->
  points_to m a (Symbol other) -> other <> symbol ->
  forall fuel e,
    fst (environment_get fuel e (Some a)
           (snd (environment_define env symbol value m)))
    = fst (environment_get fuel e (Some a) m).
Proof.
  intros Hf Hb Ha Hne fuel.
  rewrite (environment_define_frame _ _ _ _ _ _ Hf Hb). cbn [snd].
  match goal with |- forall e, fst (environment_get _ _ _ ?mm) = _ =>
    set (m' := mm) end.
  assert (Ha' : points_to m' a (Symbol other)) by exact Ha.
  assert (Hother : String.eqb other symbol = false)
    by (apply String.eqb_neq; exact Hne).
  induction fuel as [| n IH]; intros e; [reflexivity |].
  cbn [environment_get].
  rewrite (bind_ok _ _ _ _ _ (deref_points_to _ _ _ Ha')).
  rewrite (bind_ok _ _ _ _ _ (deref_points_to _ _ _ Ha)).
  rewrite !bind_unfold. unfold deref_env.
  destruct (decide (e = env)) as [-> | Hee].
  - subst m'. cbn [envs set_envs]. rewrite lookup_insert_eq, Hf.
    cbn [env_data env_mask env_parent].
    unfold bucket_of in Hb. apply lookup_lt_Some in Hb as Hlt.
    destruct (decide (bucket_index (env_mask f) (MurmurHash2 symbol)
                      = bucket_index (env_mask f) (MurmurHash2 other)))
      as [Heq | Hidx].
    + rewrite <- Heq, list_lookup_insert_eq by exact Hlt.
      rewrite Hb, find_node_defined, Hother.
      destruct (find_node other bucket); [reflexivity |].
      destruct (env_parent f); [apply IH |].
      apply signal_error_fst. reflexivity.
    + rewrite list_lookup_insert_ne by exact Hidx.
      destruct (env_data f !! bucket_index (env_mask f) (MurmurHash2 other))
        as [b |]; [| reflexivity].
      destruct (find_node other b); [reflexivity |].
      destruct (env_parent f); [apply IH |].
      apply signal_error_fst. reflexivity.
  - subst m'. cbn [envs set_envs]. rewrite lookup_insert_ne by congruence.
    destruct (envs m !! e) as [fe |]; [| reflexivity].
    destruct (env_data fe !! _) as [b |]; [| reflexivity].
    destruct (find_node other b); [reflexivity |].
    destruct (env_parent fe); [apply IH |].
    apply signal_error_fst. reflexivity.
Qed.

Lemma nearest_bound E symbol env depth e' :
  nearest E symbol env depth e' ->
  exists f' bucket v,
    E !! e' = Some f' /\ bucket_of f' symbol = Some bucket
    /\ find_node symbol bucket = Some v.
Proof.
  induction 1 as [e f bucket v Hf Hb Hfind | e f bucket parent n e' _ _ _ _ _ IH];
    [exists f, bucket, v; auto | exact IH].
Qed.

Lemma environment_get_unbound fuel env symbol m a depth :
  points_to m a (Symbol symbol) -> (depth <= fuel)%nat ->
  unbound (envs m) symbol env depth ->
  environment_get fuel env (Some a) m
  = signal_error ("reference to undefined identifier: " ++ symbol) m.
Proof.
  intros Ha Hfuel H. revert fuel Hfuel.
  induction H as [e f bucket Hf Hb Hfind Hpar
                 | e f bucket parent n Hf Hb Hfind Hpar Hrest IH];
    intros fuel Hfuel; (destruct fuel as [| k]; [lia |]); cbn [environment_get];
    rewrite (bind_ok _ _ _ _ _ (deref_points_to _ _ _ Ha));
    rewrite (bind_ok _ _ _ _ _ (deref_env_lookup _ _ _ Hf));
    unfold bucket_of in Hb; rewrite Hb, Hfind, Hpar.
  - reflexivity.
  - apply IH. lia.
Qed.

Lemma environment_get_nearest fuel env symbol m a depth e' f' bucket v :
  points_to m a (Symbol symbol) -> (depth <= fuel)%nat ->
  nearest (envs m) symbol env depth e' ->
  envs m !! e' = Some f' -> bucket_of f' symbol = Some bucket ->
  find_node symbol bucket = Some v ->
  environment_get fuel env (Some a) m = (Ok v, m).
Proof.
  intros Ha Hfuel H. revert fuel Hfuel.
  induction H as [e f b v0 Hf Hb Hfind
                 | e f b parent n e' Hf Hb Hfind Hpar Hrest IH];
    intros fuel Hfuel Hf' Hb' Hfind';
    (destruct fuel as [| k]; [lia |]); cbn [environment_get];
    rewrite (bind_ok _ _ _ _ _ (deref_points_to _ _ _ Ha));
    rewrite (bind_ok _ _ _ _ _ (deref_env_lookup _ _ _ Hf)).
  - rewrite Hf in Hf'. injection Hf' as <-. rewrite Hb in Hb'.
    injection Hb' as <-. unfold bucket_of in Hb. rewrite Hb, Hfind'.
    reflexivity.
  - unfold bucket_of in Hb. rewrite Hb, Hfind, Hpar. apply IH; [lia | assumption ..].
Qed.

(** X3: a lookup walks the chain of frames: it returns the value of the node
    of the nearest frame that has one, and signals an error when no frame
    up to the root has one. *)
Theorem environment_get_chain fuel env symbol m a depth :
  points_to m a (Symbol symbol) -> (depth <= fuel)%nat ->
  (unbound (envs m) symbol env depth ->
   environment_get fuel env (Some a) m
   = signal_error ("reference to undefined identifier: " ++ symbol) m) /\
  (forall e' f' bucket v,
      nearest (envs m) symbol env depth e' ->
      envs m !! e' = Some f' -> bucket_of f' symbol = Some bucket ->
      find_node symbol bucket = Some v ->
      environment_get fuel env (Some a) m = (Ok v, m)).
Proof.
  intros Ha Hfuel. split.
  - apply environment_get_unbound; assumption.
  - intros e' f' bucket v. apply environment_get_nearest; assumption.
Qed.

Lemma environment_define_then_get_witness :
  exists m',
    environment_define root "x" (bool_cell true) (snd (read 30 "x" ready))
    = (Ok tt, m')
    /\ heap m' = heap (snd (read 30 "x" ready))
    /\ cont m' = cont (snd (read 30 "x" ready))
    /\ environment_get 1 root (Some 42%positive) m' = (Ok (bool_cell true), m').
Proof.
  eapply (environment_define_then_get 0 root "x" (bool_cell true)
            (snd (read 30 "x" ready))).
  - vm_compute. reflexivity.
  - vm_compute. reflexivity.
  - vm_compute. reflexivity.
Defined.

Lemma environment_define_other_names_witness :
  fst (environment_get 5 root (Some 42%positive)
         (snd (environment_define root "y" (bool_cell true)
                 (snd (read 30 "car" ready)))))
  = fst (environment_get 5 root (Some 42%positive) (snd (read 30 "car" ready))).
Proof.
  eapply (environment_define_other_names root "y" (bool_cell true)
            (snd (read 30 "car" ready)) _ _ 42%positive "car").
  - vm_compute. reflexivity.
  - vm_compute. reflexivity.
  - vm_compute. reflexivity.
  - discriminate.
Defined.

Lemma environment_get_chain_witness :
  environment_get 1 root (Some 42%positive) (snd (read 30 "x" ready))
  = signal_error "reference to undefined identifier: x" (snd (read 30 "x" ready)).
Proof.
  apply (proj1 (environment_get_chain 1 root "x" (snd (read 30 "x" ready))
                  42%positive 1 ltac:(vm_compute; reflexivity) ltac:(lia))).
  eapply unbound_root.
  - vm_compute. reflexivity.
  - vm_compute. reflexivity.
  - vm_compute. reflexivity.
  - vm_compute. reflexivity.
Defined.

Lemma nearest_assign E symbol env depth e' f' value :
  nearest E symbol env depth e' -> E !! e' = Some f' ->
  nearest (<[e' := assign f' symbol value]> E) symbol env depth e'
  /\ exists bucket',
      bucket_of (assign f' symbol value) symbol = Some bucket'
      /\ find_node symbol bucket' = Some value.
Proof.
  intros H Hf'.
  assert (Hassign : exists bucket',
             bucket_of (assign f' symbol value) symbol = Some bucket'
             /\ find_node symbol bucket' = Some value).
  { destruct (nearest_bound _ _ _ _ _ H) as (f & b & v & Hf & Hb & Hfind).
    rewrite Hf' in Hf. injection Hf as <-.
    destruct (update_node_some symbol value b v Hfind) as (b' & Hb' & Hfind').
    exists b'. unfold assign. rewrite Hb, Hb'. unfold bucket_of in *.
    cbn [env_data env_mask]. apply lookup_lt_Some in Hb as Hlt.
    rewrite list_lookup_insert_eq by exact Hlt. auto. }
  split; [| exact Hassign].
  destruct Hassign as (bucket' & Hb' & Hfind').
  induction H as [e f bucket v Hf Hb Hfind
                 | e f bucket parent n e' Hf Hb Hfind Hpar Hrest IH].
  - eapply nearest_here; [apply lookup_insert_eq | exact Hb' | exact Hfind'].
  - destruct (nearest_bound _ _ _ _ _ Hrest) as (f0 & b0 & v0 & Hf0 & Hb0 & Hfind0).
    assert (Hne : e <> e').
    { intros ->. rewrite Hf in Hf0. injection Hf0 as <-.
      rewrite Hb in Hb0. injection Hb0 as <-. congruence. }
    eapply nearest_above;
      [rewrite lookup_insert_ne by congruence; exact Hf | exact Hb | exact Hfind
      | exact Hpar | apply IH; assumption].
Qed.

(** X4: an assignment is seen by the lookups that follow: after
    [environment_set] on a name that some frame of the chain binds, a
    lookup of the name from the same frame returns the value assigned. *)
Theorem environment_set_then_get fuel env symbol value m a depth e' :
  points_to m a (Symbol symbol) ->
  nearest (envs m) symbol env depth e' -> (depth <= fuel)%nat ->
  exists m',
    environment_set fuel env symbol value m = (Ok tt, m')
    /\ heap m' = heap m /\ cont m' = cont m
    /\ environment_get fuel env (Some a) m' = (Ok value, m').
Proof.
  intros Ha H Hfuel.
  destruct (environment_set_loop_nearest fuel env symbol value m depth e' H Hfuel)
    as (f' & Hf' & Hloop).
  eexists. split.
  { unfold environment_set. rewrite (bind_ok _ _ _ _ _ Hloop). reflexivity. }
  split; [reflexivity |]. split; [reflexivity |].
  destruct (nearest_assign _ _ _ _ _ _ value H Hf') as (Hn & bucket' & Hb' & Hfind').
  match goal with |- environment_get _ _ _ ?mm = _ => set (m' := mm) end.
  assert (Ha' : points_to m' a (Symbol symbol)) by exact Ha.
  apply (environment_get_nearest fuel env symbol m' a depth
           e' (assign f' symbol value) bucket' value Ha' Hfuel);
    [exact Hn | apply lookup_insert_eq | exact Hb' | exact Hfind'].
Qed.

Lemma environment_set_then_get_witness :
  exists m',
    environment_set 1 root "car" (bool_cell true) (snd (read 30 "car" ready))
    = (Ok tt, m')
    /\ heap m' = heap (snd (read 30 "car" ready))
    /\ cont m' = cont (snd (read 30 "car" ready))
    /\ environment_get 1 root (Some 42%positive) m' = (Ok (bool_cell true), m').
Proof.
  eapply (environment_set_then_get 1 root "car" (bool_cell true)
            (snd (read 30 "car" ready)) 42%positive 1 root).
  - vm_compute. reflexivity.
  - eapply nearest_here.
    + vm_compute. reflexivity.
    + vm_compute. reflexivity.
    + vm_compute. reflexivity.
  - lia.
Defined.

(** X5: a frame made by [create_environment] is new and has one empty chain:
    a lookup from it is the lookup from its parent, for every name. *)
Theorem new_frame_binds_nothing fuel parent m a symbol :
  points_to m a (Symbol symbol) ->
  let e := fresh (dom (envs m)) in
  let m' := snd (create_environment (Some parent) m) in
  create_environment (Some parent) m = (Ok e, m')
  /\ (e ∉ dom (envs m))
  /\ environment_get (S fuel) e (Some a) m'
     = environment_get fuel parent (Some a) m'.
Proof.
  intros Ha e m'. split; [reflexivity |]. split; [apply is_fresh |].
  assert (Ha' : points_to m' a (Symbol symbol)) by exact Ha.
  cbn [environment_get].
  rewrite (bind_ok _ _ _ _ _ (deref_points_to _ _ _ Ha')).
  assert (He : envs m' !! e = Some (mkEnv (Some parent) [[]] 0))
    by apply lookup_insert_eq.
  rewrite (bind_ok _ _ _ _ _ (deref_env_lookup _ _ _ He)).
  cbn [env_data env_mask env_parent]. unfold bucket_index.
  rewrite Z.land_0_r. reflexivity.
Qed.

Lemma new_frame_binds_nothing_witness :
  environment_get 3 (fresh (dom (envs (snd (read 30 "car" ready)))))
    (Some 42%positive)
    (snd (create_environment (Some root) (snd (read 30 "car" ready))))
  = environment_get 2 root (Some 42%positive)
      (snd (create_environment (Some root) (snd (read 30 "car" ready)))).
Proof.
  apply (new_frame_binds_nothing 2 root (snd (read 30 "car" ready)) 42%positive
           "car").
  vm_compute. reflexivity.
Defined.

(** ** The reader at the end of the input, on abbreviations and on vectors *)

(** X6: at the end of the tokens [parse_datum] does not return the null
    pointer: [parse_vector], tried last, signals an error.  So does the
    loop of [atom_api_load] once it has read every datum. *)
Theorem parse_datum_end_of_input fuel env tokens m :
  peek tokens = None ->
  parse_datum (S fuel) tokens m = signal_error "unexpected end of input" m
  /\ load_loop (S (S fuel)) env tokens m
     = signal_error "unexpected end of input" m.
Proof.
  intros Hp.
  assert (H : parse_datum (S fuel) tokens m
              = signal_error "unexpected end of input" m).
  { cbn [parse_datum]. unfold parse_simple_datum. rewrite Hp.
    rewrite bind_unfold, ret_unfold. cbv iota beta.
    unfold parse_compound_datum, parse_list. rewrite Hp.
    rewrite bind_unfold, ret_unfold. cbv iota beta.
    unfold parse_vector. rewrite Hp. reflexivity. }
  split; [exact H |].
  cbn [load_loop]. rewrite bind_unfold, H.
  unfold signal_error. destruct (cont_escape (cont m)); reflexivity.
Qed.

Lemma parse_datum_end_of_input_witness :
  parse_datum 1 (mkTokens [] [] 0 0) ready
  = signal_error "unexpected end of input" ready
  /\ load_loop 2 root (mkTokens [] [] 0 0) ready
     = signal_error "unexpected end of input" ready.
Proof. apply (parse_datum_end_of_input 0 root). reflexivity. Defined.

(** X7: the four prefixes ['], [`], [,] and [,@] are read as a list of two
    elements: the symbol that names the prefix, then the datum that
    follows (the null pointer when none does). *)
Theorem parse_abbreviation_expands fuel tokens m t name datum tokens' m2 :
  peek tokens = Some t ->
  (t, name) ∈ [(TOKEN_QUOTE, "quote"%string); (TOKEN_BACKTICK, "quasiquote"%string);
               (TOKEN_COMMA, "unquote"%string);
               (TOKEN_COMMA_AT, "unquote-splicing"%string)] ->
  parse_datum (S fuel) (skip tokens) (alloc (Symbol name) m)
  = (Ok (datum, tokens'), m2) ->
  let symbol := fresh (dom (heap m)) in
  let inner := fresh (dom (heap m2)) in
  let m3 := alloc (Pair datum None) m2 in
  let outer := fresh (dom (heap m3)) in
  parse_datum (S (S fuel)) tokens m
  = (Ok (Some outer, tokens'), alloc (Pair (Some symbol) (Some inner)) m3).
Proof.
  intros Hp Ht Hdatum symbol inner m3 outer.
  change (parse_datum (S (S fuel)) tokens)
    with ('(cell, tokens') ← parse_simple_datum tokens;
          match cell with
          | Some _ => mret (cell, tokens')
          | None => parse_compound_datum (parse_datum (S fuel)) (S fuel) tokens'
          end).
  repeat rewrite elem_of_cons in Ht. rewrite elem_of_nil in Ht.
  destruct Ht as [Ht | [Ht | [Ht | [Ht | []]]]]; injection Ht as -> ->;
    rewrite (bind_ok _ _ _ _ _ (parse_simple_datum_none _ _ _ Hp I));
    cbv iota beta; unfold parse_compound_datum, parse_list; rewrite Hp;
    unfold parse_abreviation at 1; rewrite Hp;
    rewrite bind_unfold, bind_unfold;
    change (make_cell (Symbol ?s) m) with (Ok symbol, alloc (Symbol s) m);
    cbv iota beta; rewrite bind_unfold, Hdatum; reflexivity.
Qed.

Lemma parse_abbreviation_expands_witness :
  let tokens := mkTokens [] [TOKEN_QUOTE; TOKEN_BOOLEAN true] 0 2 in
  let m1 := alloc (Symbol "quote") ready in
  let m2 := alloc (Boolean true) m1 in
  let m3 := alloc (Pair (Some (fresh (dom (heap m1)))) None) m2 in
  parse_datum 2 tokens ready
  = (Ok (Some (fresh (dom (heap m3))), skip (skip tokens)),
     alloc (Pair (Some (fresh (dom (heap ready)))) (Some (fresh (dom (heap m2)))))
           m3).
Proof.
  intros tokens m1 m2 m3.
  apply (parse_abbreviation_expands 0 tokens ready TOKEN_QUOTE "quote"
           (Some (fresh (dom (heap m1)))) (skip (skip tokens)) m2).
  - reflexivity.
  - apply list_elem_of_here.
  - reflexivity.
Defined.

Lemma parse_vector_loop_stops_at_list_end parse fuel stack tokens m r tokens' m' :
  parse_vector_loop parse fuel stack tokens m = (Ok (r, tokens'), m') ->
  peek tokens' = Some TOKEN_LIST_END.
Proof.
  revert stack tokens m. induction fuel as [| n IH]; intros stack tokens m;
    cbn [parse_vector_loop]; [discriminate |].
  destruct (peek tokens) as [t |] eqn:Hp.
  - assert (Hrec : (('(cell, tokens1) ← parse tokens;
                     parse_vector_loop parse n (stack ++ [cell]) tokens1) m
                    = (Ok (r, tokens'), m')) -> peek tokens' = Some TOKEN_LIST_END).
    { rewrite bind_unfold.
      destruct (parse tokens m) as [[[cell tokens1] | | |] m1]; try discriminate.
      apply IH. }
    destruct t; try exact Hrec.
    intros [= <- <- <-]. exact Hp.
  - unfold signal_error. destruct (cont_escape (cont m)); discriminate.
Qed.

(** X8: [parse_vector] stops on the closing parenthesis of the vector and
    does not skip it: when a vector has been read, the parenthesis is
    still the next token. *)
Theorem parse_vector_leaves_closing_parenthesis fuel tokens m cell tokens' m' :
  peek tokens = Some TOKEN_VECTOR_START ->
  parse_datum fuel tokens m = (Ok (cell, tokens'), m') ->
  peek tokens' = Some TOKEN_LIST_END.
Proof.
  intros Hp. destruct fuel as [| n]; [discriminate |]. cbn [parse_datum].
  rewrite (bind_ok _ _ _ _ _ (parse_simple_datum_none _ _ _ Hp I)).
  cbv iota beta. unfold parse_compound_datum, parse_list. rewrite Hp.
  unfold parse_abreviation. rewrite Hp. rewrite bind_unfold, ret_unfold.
  cbv iota beta. unfold parse_vector. rewrite Hp. rewrite bind_unfold.
  destruct (parse_vector_loop (parse_datum n) n [] (skip tokens) m)
    as [[[stack tokens1] | | |] m1] eqn:Hloop; try discriminate.
  apply parse_vector_loop_stops_at_list_end in Hloop.
  rewrite bind_unfold.
  change (make_vector (length stack) None m1)
    with (Ok (fresh (dom (heap m1))), snd (make_vector (length stack) None m1)).
  cbv iota beta. rewrite bind_unfold.
  destruct (store _ _ _) as [[[] | | |] m2]; try discriminate.
  intros [= _ <- _]. exact Hloop.
Qed.

Lemma parse_vector_leaves_closing_parenthesis_witness :
  exists cell tokens' m',
    parse_datum 3
      (mkTokens [] [TOKEN_VECTOR_START; TOKEN_BOOLEAN true; TOKEN_LIST_END] 0 3)
      ready
    = (Ok (cell, tokens'), m')
    /\ peek tokens' = Some TOKEN_LIST_END.
Proof.
  eexists _, _, _. split.
  - vm_compute. reflexivity.
  - eapply (parse_vector_leaves_closing_parenthesis 3
              (mkTokens [] [TOKEN_VECTOR_START; TOKEN_BOOLEAN true;
                            TOKEN_LIST_END] 0 3) ready).
    + reflexivity.
    + vm_compute. reflexivity.
Defined.

Lemma parse_datum_on_dot fuel tokens m :
  peek tokens = Some TOKEN_DOT ->
  parse_datum (S fuel) tokens m = (Ok (None, tokens), m).
Proof.
  intros Hp. cbn [parse_datum].
  rewrite (bind_ok _ _ _ _ _ (parse_simple_datum_none _ _ _ Hp I)).
  cbv iota beta. unfold parse_compound_datum, parse_list. rewrite Hp.
  unfold parse_abreviation. rewrite Hp. rewrite bind_unfold, ret_unfold.
  cbv iota beta. unfold parse_vector. rewrite Hp. reflexivity.
Qed.

Lemma parse_vector_loop_on_dot inner fuel stack tokens m :
  peek tokens = Some TOKEN_DOT ->
  parse_vector_loop (parse_datum inner) fuel stack tokens m = (Timeout, m).
Proof.
  intros Hp. revert stack. induction fuel as [| n IH]; intros stack;
    cbn [parse_vector_loop]; [reflexivity |].
  rewrite Hp. destruct inner as [| k]; [reflexivity |].
  rewrite (bind_ok _ _ _ _ _ (parse_datum_on_dot k tokens m Hp)). apply IH.
Qed.

(** X9: inside a vector a dot starts no datum and is not skipped: the loop of
    [parse_vector] reads it again and again, so the reader does not
    return (no amount of fuel suffices). *)
Theorem vector_with_dot_is_never_read tokens m :
  peek tokens = Some TOKEN_VECTOR_START ->
  peek (skip tokens) = Some TOKEN_DOT ->
  forall fuel, parse_datum fuel tokens m = (Timeout, m).
Proof.
  intros Hp Hdot fuel. destruct fuel as [| n]; [reflexivity |].
  cbn [parse_datum].
  rewrite (bind_ok _ _ _ _ _ (parse_simple_datum_none _ _ _ Hp I)).
  cbv iota beta. unfold parse_compound_datum, parse_list. rewrite Hp.
  unfold parse_abreviation. rewrite Hp. rewrite bind_unfold, ret_unfold.
  cbv iota beta. unfold parse_vector. rewrite Hp.
  rewrite bind_unfold, (parse_vector_loop_on_dot n n [] _ m Hdot). reflexivity.
Qed.

Lemma vector_with_dot_is_never_read_witness :
  parse_datum 50
    (mkTokens [] [TOKEN_VECTOR_START; TOKEN_DOT; TOKEN_LIST_END] 0 3) ready
  = (Timeout, ready).
Proof.
  apply (vector_with_dot_is_never_read
           (mkTokens [] [TOKEN_VECTOR_START; TOKEN_DOT; TOKEN_LIST_END] 0 3)
           ready); reflexivity.
Defined.

(** ** The token array *)

Lemma skip_whitespace_loop_stops n c input m :
  char_eqb c NUL = false ->
  char_eqb c LF || char_eqb c " " || char_eqb c TAB = false ->
  char_eqb c ";" = false ->
  skip_whitespace_loop (S n) c input m = (Ok input, m).
Proof.
  intros H1 H2 H3. cbn [skip_whitespace_loop]. rewrite H1, H2, H3. reflexivity.
Qed.

Lemma skip_whitespace_stops input m :
  char_eqb (get input) NUL = false ->
  char_eqb (get input) LF || char_eqb (get input) " "
  || char_eqb (get input) TAB = false ->
  char_eqb (get input) ";" = false ->
  skip_whitespace input m = (Ok input, m).
Proof. apply skip_whitespace_loop_stops. Qed.

Lemma read_token_list_start line column rest tl m :
  read_token (mkInput line column ("("%char :: rest) tl) m
  = (tl' ← add_token TOKEN_LIST_START tl;
     mret (mkInput line (column + 1) rest tl')) m.
Proof.
  unfold read_token.
  rewrite (bind_ok _ _ _ _ _
             (skip_whitespace_stops (mkInput line column ("("%char :: rest) tl)
                m eq_refl eq_refl eq_refl)).
  cbn [get in_data]. change (char_eqb "(" "(") with true. cbv iota.
  unfold next. cbn [in_data in_line in_column in_tokens].
  change (char_eqb "(" NUL) with false. change (char_eqb "(" LF) with false.
  cbv iota. rewrite bind_unfold, ret_unfold. cbv iota beta.
  unfold add. cbn [in_tokens]. rewrite !bind_unfold.
  destruct (add_token TOKEN_LIST_START tl m) as [[tl' | | |] m1]; reflexivity.
Qed.

Lemma read_tokens_list_starts k :
  forall fuel line column buffer tokens next length m,
    (k < fuel)%nat -> (next <= length)%nat ->
    read_tokens fuel
      (mkInput line column (replicate k "("%char)
               (mkTokens buffer tokens next length)) m
    = if (next + k <=? length)%nat
      then (Ok (mkInput line (column + Z.of_nat k) []
                  (mkTokens buffer (tokens ++ replicate k TOKEN_LIST_START)
                            (next + k) length)), m)
      else (Crash, m).
Proof.
  induction k as [| k IH];
    intros fuel line column buffer tokens next length m Hk Hnext;
    (destruct fuel as [| fuel]; [lia |]).
  - cbn [replicate read_tokens get in_data]. cbn.
    rewrite Nat.add_0_r, Z.add_0_r, app_nil_r.
    apply Nat.leb_le in Hnext. rewrite Hnext. reflexivity.
  - cbn [replicate read_tokens get in_data].
    change (char_eqb "(" NUL) with false. cbv iota.
    rewrite bind_unfold, read_token_list_start, bind_unfold.
    unfold add_token. cbn [tok_next tok_length tok_buffer tok_tokens].
    destruct (next <? length)%nat eqn:Hlt.
    + rewrite ret_unfold. cbv iota beta. rewrite ret_unfold. cbv iota beta.
      apply Nat.ltb_lt in Hlt.
      rewrite IH by lia.
      replace (S next + k)%nat with (next + S k)%nat by lia.
      rewrite <- app_assoc. cbn [app].
      replace (column + 1 + Z.of_nat k) with (column + Z.of_nat (S k)) by lia.
      reflexivity.
    + apply Nat.ltb_ge in Hlt.
      destruct (next + S k <=? length)%nat eqn:Hle;
        [apply Nat.leb_le in Hle; lia | reflexivity].
Qed.

(** X10: the lexer writes [tokens[next]] without comparing [next] with the
    length of the array.  On a text of [n] opening parentheses and an
    array of [size] tokens: the [n] tokens when they fit, a write past
    the end of the array (undefined behaviour) when they do not. *)
Theorem token_array_has_no_bounds_check n size m :
  tokenize (string_of_list_ascii (replicate n "("%char)) size m
  = if (n <=? size)%nat
    then (Ok (mkTokens [] (replicate n TOKEN_LIST_START) 0 n), m)
    else (Crash, m).
Proof.
  unfold tokenize. rewrite list_ascii_of_string_of_list_ascii.
  rewrite bind_unfold. unfold Input_init, TokenList_init.
  rewrite read_tokens_list_starts by (rewrite ?length_replicate; lia).
  cbn [Nat.add app].
  destruct (n <=? size)%nat; reflexivity.
Qed.

(** ** The printer *)

Lemma read_only_ret {A} (a : A) : read_only (mret a : M A).
Proof. intros m. reflexivity. Qed.

Lemma read_only_bind {A B} (x : M A) (f : A -> M B) :
  read_only x -> (forall a, read_only (f a)) -> read_only (x ≫= f).
Proof.
  intros Hx Hf m. rewrite bind_unfold. specialize (Hx m).
  destruct (x m) as [[a | msg | |] m1]; simpl in *; subst; auto.
  apply Hf.
Qed.

Lemma read_only_deref p : read_only (deref p).
Proof. intros m. apply deref_same_machine. Qed.

Lemma read_only_mapM {A B} (f : A -> M B) (l : list A) :
  (forall x, read_only (f x)) -> read_only (mapM f l).
Proof.
  intros Hf. induction l as [| x l IH]; simpl; [apply read_only_ret |].
  apply read_only_bind; [apply Hf |]. intros y.
  apply read_only_bind; [apply IH |]. intros ys. apply read_only_ret.
Qed.

(** X11: [print_rec] changes no cell and no frame: whatever the cell, the
    flags and the outcome (a text, or the failed assertion on a procedure),
    the cells, the list of the allocated cells, the frames and the set of
    the streams closed are as before.  What it writes to its stream is not
    part of the statement. *)
Theorem print_rec_read_only fuel cell human is_car m :
  heap (snd (print_rec fuel cell human is_car m)) = heap m
  /\ envs (snd (print_rec fuel cell human is_car m)) = envs m
  /\ cont (snd (print_rec fuel cell human is_car m)) = cont m
  /\ closed (snd (print_rec fuel cell human is_car m)) = closed m.
Proof.
  assert (H : read_only (print_rec fuel cell human is_car)).
  { revert cell human is_car.
    induction fuel as [| n IH]; intros cell human is_car; simpl;
      [intros m0; reflexivity |].
    destruct cell as [a |]; [| apply read_only_ret].
    apply read_only_bind; [apply read_only_deref |]. intros d.
    destruct d as [| | | | x y | data | | | |]; try (intros m0; reflexivity).
    - destruct human; [apply read_only_ret |].
      repeat (destruct (char_eqb _ _); [apply read_only_ret |]).
      apply read_only_ret.
    - apply read_only_bind; [apply IH |]. intros sa.
      apply read_only_bind; [| intros sb; apply read_only_ret].
      destruct y; [| apply read_only_ret].
      apply read_only_bind; [apply read_only_deref |]. intros db.
      apply read_only_bind; [apply IH |]. intros s. apply read_only_ret.
    - apply read_only_bind; [| intros l; apply read_only_ret].
      apply read_only_mapM. intros x. apply IH. }
  rewrite (H m). auto.
Qed.
Lemma string_app_nil_r (s : string) : (s ++ "")%string = s.
Proof.
  induction s as [| c s IH]; [reflexivity |].
  change (String c (s ++ "")%string = String c s). rewrite IH. reflexivity.
Qed.

Lemma string_app_assoc (a b c : string) :
  ((a ++ b) ++ c)%string = (a ++ (b ++ c))%string.
Proof.
  induction a as [| x a IH]; [reflexivity |].
  change (String x ((a ++ b) ++ c)%string = String x (a ++ (b ++ c))%string).
  rewrite IH. reflexivity.
Qed.

Lemma print_rec_list_tail human depth m cells :
  forall fuel a strings,
    cells <> [] ->
    proper_list m (Some a) cells ->
    Forall2 (fun cell s =>
               forall n, (depth <= n)%nat ->
                         print_rec n (snd cell) human true m = (Ok s, m))
            cells strings ->
    (depth + length cells <= fuel)%nat ->
    print_rec fuel (Some a) human false m = (Ok (join_space strings), m).
Proof.
  unfold proper_list.
  induction cells as [| [a0 x] rest IH]; intros fuel a strings Hne Hlist Hall Hfuel;
    [congruence |].
  inversion Hall as [| ? s ? strings' Hs Hrest]; subst. clear Hall.
  destruct Hlist as ([= <-] & next & Ha & Hnext).
  destruct fuel as [| n]; [simpl in Hfuel; lia |].
  cbn [print_rec].
  rewrite (bind_ok _ _ _ _ _ (deref_points_to _ _ _ Ha)). cbv iota beta.
  rewrite (bind_ok _ _ _ _ _ (Hs n ltac:(simpl in Hfuel; lia))).
  destruct rest as [| [a1 x1] rest'].
  - simpl in Hnext. subst next. inversion Hrest; subst.
    rewrite bind_unfold, ret_unfold. cbv iota beta. rewrite ret_unfold.
    cbn [join_space]. simpl. rewrite string_app_nil_r. reflexivity.
  - assert (Hnext' := Hnext). simpl in Hnext'.
    destruct Hnext' as (-> & next' & Ha1 & _).
    rewrite bind_unfold.
    rewrite (bind_ok _ _ _ _ _ (deref_points_to _ _ _ Ha1)).
    rewrite (bind_ok _ _ _ _ _
               (IH n a1 strings' ltac:(discriminate) Hnext Hrest
                   ltac:(simpl in Hfuel |- *; lia))).
    rewrite ret_unfold. cbv iota beta. rewrite ret_unfold.
    rewrite decide_True by reflexivity.
    inversion Hrest as [| ? s1 ? strings'' _ _]; subst.
    cbn [join_space]. simpl. rewrite string_app_nil_r. reflexivity.
Qed.

(** X12: a proper list is written as its elements between one pair of
    parentheses, each element as it is written in the car position, with
    one space between two of them. *)
Theorem print_rec_proper_list human depth m cells fuel a strings :
  cells <> [] ->
  proper_list m (Some a) cells ->
  Forall2 (fun cell s =>
             forall n, (depth <= n)%nat ->
                       print_rec n (snd cell) human true m = (Ok s, m))
          cells strings ->
  (depth + length cells <= fuel)%nat ->
  print_rec fuel (Some a) human true m
  = (Ok ("(" ++ join_space strings ++ ")")%string, m).
Proof.
  intros Hne Hlist Hall Hfuel.
  destruct cells as [| [a0 x] rest]; [congruence |].
  inversion Hall as [| ? s ? strings' Hs Hrest]; subst.
  pose proof Hlist as ([= <-] & next & Ha & Hnext).
  destruct fuel as [| n]; [simpl in Hfuel; lia |].
  cbn [print_rec].
  rewrite (bind_ok _ _ _ _ _ (deref_points_to _ _ _ Ha)). cbv iota beta.
  rewrite (bind_ok _ _ _ _ _ (Hs n ltac:(simpl in Hfuel; lia))).
  destruct rest as [| [a1 x1] rest'].
  - simpl in Hnext. subst next. inversion Hrest; subst.
    rewrite bind_unfold, ret_unfold. cbv iota beta. rewrite ret_unfold.
    reflexivity.
  - assert (Hnext' := Hnext). simpl in Hnext'.
    destruct Hnext' as (-> & next' & Ha1 & _).
    rewrite bind_unfold.
    rewrite (bind_ok _ _ _ _ _ (deref_points_to _ _ _ Ha1)).
    rewrite (bind_ok _ _ _ _ _
               (print_rec_list_tail human depth m ((a1, x1) :: rest') n a1 strings'
                  ltac:(discriminate) Hnext Hrest
                  ltac:(simpl in Hfuel |- *; lia))).
    rewrite ret_unfold. cbv iota beta. rewrite ret_unfold.
    rewrite decide_True by reflexivity.
    inversion Hrest as [| ? s1 ? strings'' _ _]; subst.
    cbn [join_space]. rewrite !string_app_assoc. reflexivity.
Qed.

Lemma print_rec_proper_list_witness :
  print_rec 4 (Some 46%positive) false true m_length
  = (Ok "(1 2 3)"%string, m_length).
Proof.
  apply (print_rec_proper_list false 1 m_length
           [(46%positive, Some 45%positive); (48%positive, Some 47%positive);
            (50%positive, Some 49%positive)]
           4 46%positive ["1"; "2"; "3"]%string).
  - discriminate.
  - vm_compute. repeat (split; [reflexivity |]; eexists; split; [reflexivity |]).
    reflexivity.
  - repeat constructor; intros n Hn; (destruct n; [lia |]); vm_compute; reflexivity.
  - simpl. lia.
Defined.

(** ** The sweep *)

Lemma marked_set_heap_other m h a c b :
  a <> b -> marked (set_heap (<[a := c]> h) m) b = marked (set_heap h m) b.
Proof.
  intros Hne. unfold marked. cbn [heap set_heap].
  rewrite lookup_insert_ne by exact Hne. reflexivity.
Qed.

Lemma filter_marked_same m1 m b (l : list addr) :
  (forall a, a ∈ l -> marked m1 a = marked m a) ->
  filter (fun a => marked m1 a = b) l = filter (fun a => marked m a = b) l.
Proof.
  induction l as [| x l IH]; intros H; [reflexivity |].
  rewrite !filter_cons, (H x ltac:(left)), IH; [reflexivity |].
  intros a Ha. apply H. right. exact Ha.
Qed.

(** X13: the sweep over a list of distinct allocated cells: the marked cells
    stay, with their payload and the mark cleared, and make up the list
    returned, last swept first; the others are freed and leave the count
    of allocated cells; no other cell is touched. *)
Theorem sweep_keeps_the_marked_cells cells :
  forall remaining m,
    NoDup cells ->
    (forall a, a ∈ cells -> is_Some (heap m !! a)) ->
    (forall a f, a ∈ cells -> points_to m a (InputPort f) -> f = stdin) ->
    (forall a f, a ∈ cells -> points_to m a (OutputPort f) -> f = stdout) ->
    exists m',
      sweep cells remaining m
      = (Ok (rev (filter (fun a => marked m a = true) cells) ++ remaining), m')
      /\ (forall a, a ∉ cells -> heap m' !! a = heap m !! a)
      /\ (forall a, a ∈ cells ->
            heap m' !! a
            = if marked m a
              then (fun c => mkCell (cell_data c) false) <$> heap m !! a
              else None)
      /\ cont_allocated (cont m')
         = cont_allocated (cont m)
           - Z.of_nat (length (filter (fun a => marked m a = false) cells))
      /\ cont_cells (cont m') = cont_cells (cont m)
      /\ envs m' = envs m /\ closed m' = closed m /\ written m' = written m.
Proof.
  induction cells as [| cell rest IH]; intros remaining m Hnd Hheap Hin Hout.
  - exists m. cbn [sweep filter rev app length]. rewrite Z.sub_0_r.
    repeat split; try reflexivity.
    intros a Ha. apply elem_of_nil in Ha. destruct Ha.
  - apply NoDup_cons in Hnd as [Hcell Hnd].
    destruct (Hheap cell ltac:(left)) as [c Hc].
    cbn [sweep]. rewrite bind_unfold. unfold get_mark. rewrite Hc.
    assert (Hm : marked m cell = cell_mark c) by (unfold marked; rewrite Hc; reflexivity).
    destruct (cell_mark c) eqn:Hmark.
    + (* marked: the mark is cleared and the cell goes on the list *)
      rewrite bind_unfold. unfold set_mark. rewrite Hc.
      set (m1 := set_heap (<[cell := mkCell (cell_data c) false]> (heap m)) m).
      assert (Hother : forall a, a <> cell -> heap m1 !! a = heap m !! a).
      { intros a Ha. unfold m1. cbn [heap set_heap].
        apply lookup_insert_ne. congruence. }
      assert (Hsame : forall a, a ∈ rest -> heap m1 !! a = heap m !! a).
      { intros a Ha. apply Hother. intros ->. contradiction. }
      destruct (IH (cell :: remaining) m1 Hnd) as (m' & Hsweep & H1 & H2 & H3 & H4 & H5 & H6 & H7).
      { intros a Ha. rewrite (Hsame a Ha). apply Hheap. right. exact Ha. }
      { intros a f Ha. unfold points_to. rewrite (Hsame a Ha).
        apply Hin. right. exact Ha. }
      { intros a f Ha. unfold points_to. rewrite (Hsame a Ha).
        apply Hout. right. exact Ha. }
      assert (Hmarks : forall a, a ∈ rest -> marked m1 a = marked m a).
      { intros a Ha. unfold marked. rewrite (Hsame a Ha). reflexivity. }
      exists m'. split.
      { rewrite Hsweep. f_equal. f_equal.
        rewrite filter_cons_True by exact Hm. cbn [rev].
        rewrite <- app_assoc. cbn [app]. f_equal. f_equal.
        apply filter_marked_same. exact Hmarks. }
      split.
      { intros a Ha. apply not_elem_of_cons in Ha as [Hne Ha].
        rewrite (H1 a Ha). apply Hother. exact Hne. }
      split.
      { intros a Ha. apply elem_of_cons in Ha as [-> | Ha].
        - rewrite (H1 cell Hcell), Hm. unfold m1. cbn [heap set_heap].
          rewrite lookup_insert_eq, Hc. reflexivity.
        - rewrite (H2 a Ha), (Hmarks a Ha), (Hsame a Ha). reflexivity. }
      split.
      { rewrite H3. rewrite filter_cons_False by (rewrite Hm; discriminate).
        f_equal. f_equal. f_equal.
        apply filter_marked_same. exact Hmarks. }
      auto.
    + (* unmarked: the cell is freed *)
      rewrite bind_unfold. unfold deref. rewrite Hc. cbv iota beta.
      assert (Hfin : match cell_data c with
                     | InputPort f => if decide (f = stdin) then mret tt else fclose f
                     | OutputPort f => if decide (f = stdout) then mret tt else fclose f
                     | _ => mret tt
                     end m = (Ok tt, m)).
      { assert (Hp : points_to m cell (cell_data c))
          by (unfold points_to; rewrite Hc; reflexivity).
        destruct (cell_data c) as [| | | | | | | | f | f]; try reflexivity.
        - rewrite (Hin cell f ltac:(left) Hp). reflexivity.
        - rewrite (Hout cell f ltac:(left) Hp). reflexivity. }
      rewrite bind_unfold, Hfin. rewrite bind_unfold.
      change (free_cell cell m) with (Ok tt, snd (free_cell cell m)).
      cbv iota beta.
      set (m1 := snd (free_cell cell m)).
      assert (Hother : forall a, a <> cell -> heap m1 !! a = heap m !! a).
      { intros a Ha. unfold m1, free_cell, modify. cbn [snd heap].
        apply lookup_delete_ne. congruence. }
      assert (Hsame : forall a, a ∈ rest -> heap m1 !! a = heap m !! a).
      { intros a Ha. apply Hother. intros ->. contradiction. }
      destruct (IH remaining m1 Hnd) as (m' & Hsweep & H1 & H2 & H3 & H4 & H5 & H6 & H7).
      { intros a Ha. rewrite (Hsame a Ha). apply Hheap. right. exact Ha. }
      { intros a f Ha. unfold points_to. rewrite (Hsame a Ha).
        apply Hin. right. exact Ha. }
      { intros a f Ha. unfold points_to. rewrite (Hsame a Ha).
        apply Hout. right. exact Ha. }
      assert (Hmarks : forall a, a ∈ rest -> marked m1 a = marked m a).
      { intros a Ha. unfold marked. rewrite (Hsame a Ha). reflexivity. }
      exists m'. split.
      { rewrite Hsweep. f_equal. f_equal.
        rewrite filter_cons_False by (rewrite Hm; discriminate).
        f_equal. f_equal.
        apply filter_marked_same. exact Hmarks. }
      split.
      { intros a Ha. apply not_elem_of_cons in Ha as [Hne Ha].
        rewrite (H1 a Ha). apply Hother. exact Hne. }
      split.
      { intros a Ha. apply elem_of_cons in Ha as [-> | Ha].
        - rewrite (H1 cell Hcell), Hm. unfold m1, free_cell, modify.
          cbn [snd heap]. apply lookup_delete_eq.
        - rewrite (H2 a Ha), (Hmarks a Ha), (Hsame a Ha). reflexivity. }
      split.
      { rewrite H3. rewrite filter_cons_True by exact Hm.
        cbn [length]. unfold m1, free_cell, modify. cbn [snd cont cont_allocated].
        replace (filter (λ a : addr, marked (snd (free_cell cell m)) a = false) rest)
          with (filter (λ a : addr, marked m a = false) rest).
        - lia.
        - symmetry. apply filter_marked_same. exact Hmarks. }
      auto.
Qed.

(** ** Marking *)

Lemma marks_more_refl m : marks_more m m.
Proof. repeat split; auto. Qed.

Lemma marks_more_trans m1 m2 m3 :
  marks_more m1 m2 -> marks_more m2 m3 -> marks_more m1 m3.
Proof.
  intros (He1 & Hc1 & Hcl1 & Hw1 & H1) (He2 & Hc2 & Hcl2 & Hw2 & H2).
  repeat split; try congruence.
  - destruct (H1 a) as [E1 _], (H2 a) as [E2 _]. rewrite E2. exact E1.
  - intros Hm. apply H2, H1, Hm.
Qed.

Lemma marks_more_points_to m m' a d :
  marks_more m m' -> (points_to m' a d <-> points_to m a d).
Proof.
  intros (_ & _ & _ & _ & H). unfold points_to. destruct (H a) as [E _].
  rewrite E. tauto.
Qed.

Lemma marks_more_frame_value m m' e x :
  marks_more m m' -> (frame_value m' e x <-> frame_value m e x).
Proof. intros (He & _). unfold frame_value. rewrite He. tauto. Qed.

Lemma marks_more_linked m m' a x :
  marks_more m m' -> (linked m' a x <-> linked m a x).
Proof.
  intros H. split; intros Hl.
  - destruct Hl as [a x y Ha | a x y Ha | a data x Ha Hx | a x body e Ha
                   | a formals x e Ha | a formals body e x Ha Hf];
      apply (marks_more_points_to _ _ _ _ H) in Ha;
      [eapply linked_car | eapply linked_cdr | eapply linked_element
      | eapply linked_formals | eapply linked_body | eapply linked_frame];
      eauto.
    apply (marks_more_frame_value _ _ _ _ H). exact Hf.
  - destruct Hl as [a x y Ha | a x y Ha | a data x Ha Hx | a x body e Ha
                   | a formals x e Ha | a formals body e x Ha Hf];
      apply (marks_more_points_to _ _ _ _ H) in Ha;
      [eapply linked_car | eapply linked_cdr | eapply linked_element
      | eapply linked_formals | eapply linked_body | eapply linked_frame];
      eauto.
    apply (marks_more_frame_value _ _ _ _ H). exact Hf.
Qed.

Lemma only_marks_ret {A} (a : A) : only_marks (mret a : M A).
Proof. intros m. apply marks_more_refl. Qed.

Lemma only_marks_same {A} (c : M A) : read_only c -> only_marks c.
Proof. intros H m. rewrite H. apply marks_more_refl. Qed.

Lemma only_marks_bind {A B} (x : M A) (f : A -> M B) :
  only_marks x -> (forall a, only_marks (f a)) -> only_marks (x ≫= f).
Proof.
  intros Hx Hf m. rewrite bind_unfold. specialize (Hx m).
  destruct (x m) as [[a | msg | |] m1]; simpl in *; auto.
  eapply marks_more_trans; [exact Hx | apply Hf].
Qed.

Lemma only_marks_forM_ {A} (l : list A) (f : A -> M unit) :
  (forall x, only_marks (f x)) -> only_marks (forM_ l f).
Proof.
  intros Hf. induction l as [| x l IH]; simpl; [apply only_marks_ret |].
  apply only_marks_bind; [apply Hf | intros _; apply IH].
Qed.

Lemma only_marks_get_mark a : only_marks (get_mark a).
Proof.
  apply only_marks_same. intros m. unfold get_mark.
  destruct (heap m !! a); reflexivity.
Qed.

Lemma only_marks_deref_env e : only_marks (deref_env e).
Proof.
  apply only_marks_same. intros m. unfold deref_env.
  destruct e as [a |]; [| reflexivity]. destruct (envs m !! a); reflexivity.
Qed.

Lemma only_marks_set_mark a : only_marks (set_mark a true).
Proof.
  intros m. unfold set_mark.
  destruct (heap m !! a) as [c |] eqn:Hc; [| apply marks_more_refl].
  repeat split; try reflexivity; cbn [snd heap set_heap].
  - destruct (decide (a0 = a)) as [-> | Hne].
    + rewrite lookup_insert_eq, Hc. reflexivity.
    + rewrite lookup_insert_ne by congruence. reflexivity.
  - unfold marked. cbn [heap set_heap].
    destruct (decide (a0 = a)) as [-> | Hne].
    + rewrite lookup_insert_eq. reflexivity.
    + rewrite lookup_insert_ne by congruence. auto.
Qed.

Lemma only_marks_mark_environment_with mark env :
  (forall p, only_marks (mark p)) ->
  only_marks (mark_environment_with mark env).
Proof.
  intros Hmark. unfold mark_environment_with.
  apply only_marks_bind; [apply only_marks_deref_env |]. intros f.
  apply only_marks_forM_. intros i.
  destruct (env_data f !! i); [| intros m; apply marks_more_refl].
  apply only_marks_forM_. intros node. apply Hmark.
Qed.

Lemma only_marks_mark fuel p : only_marks (mark fuel p).
Proof.
  revert p. induction fuel as [| n IH]; intros p; simpl;
    [intros m; apply marks_more_refl |].
  destruct p as [a |]; [| apply only_marks_ret].
  apply only_marks_bind; [apply only_marks_get_mark |]. intros [];
    [apply only_marks_ret |].
  apply only_marks_bind; [apply only_marks_set_mark |]. intros _.
  apply only_marks_bind;
    [apply only_marks_same; intros m; apply deref_same_machine |].
  intros d. destruct d; try apply only_marks_ret.
  - apply only_marks_bind; [apply IH | intros _; apply IH].
  - apply only_marks_forM_. exact IH.
  - destruct function; [apply only_marks_ret |].
    apply only_marks_bind; [apply IH |]. intros _.
    apply only_marks_bind; [apply IH |]. intros _.
    apply only_marks_mark_environment_with. exact IH.
Qed.

Lemma marks_more_marked m m' a :
  marks_more m m' -> marked m a = true -> marked m' a = true.
Proof. intros (_ & _ & _ & _ & H). apply H. Qed.

Lemma marks_through_refl m : marks_through m m.
Proof. split; [apply marks_more_refl | intros a x H1 H2; congruence]. Qed.

Lemma marks_through_trans m1 m2 m3 :
  marks_through m1 m2 -> marks_through m2 m3 -> marks_through m1 m3.
Proof.
  intros [H12 C12] [H23 C23]. split; [eapply marks_more_trans; eassumption |].
  intros a x Ha1 Ha3 Hl. destruct (marked m2 a) eqn:Ha2.
  - eapply marks_more_marked; [exact H23 |]. eapply C12; eassumption.
  - eapply C23; [exact Ha2 | exact Ha3 |].
    apply (marks_more_linked _ _ _ _ H12). exact Hl.
Qed.

(** The cells a cell links to, by its payload. *)
Lemma linked_inv m a d z :
  points_to m a d -> linked m a z ->
  match d with
  | Pair x y => x = Some z \/ y = Some z
  | Vector data => Some z ∈ data
  | Procedure None formals body env =>
      formals = Some z \/ body = Some z
      \/ exists e, env = Some e /\ frame_value m e z
  | _ => False
  end.
Proof.
  unfold points_to. intros Hd Hl.
  destruct Hl as [a x y Ha | a x y Ha | a data x Ha Hx | a x body e Ha
                 | a formals x e Ha | a formals body e x Ha Hf];
    unfold points_to in Ha; rewrite Ha in Hd; injection Hd as <-; eauto.
Qed.

(** A loop of calls that mark: what each call marks stays marked to the
    end. *)
Lemma forM_marks {A} (l : list A) (f : A -> M unit) (target : A -> addr -> Prop) :
  (forall x m m', f x m = (Ok tt, m') ->
                  marks_through m m' /\ forall a, target x a -> marked m' a = true) ->
  forall m m', forM_ l f m = (Ok tt, m') ->
    marks_through m m'
    /\ forall x a, x ∈ l -> target x a -> marked m' a = true.
Proof.
  intros Hf. induction l as [| x l IH]; intros m m'; cbn [forM_].
  - rewrite ?ret_unfold. intros [= <-]. split; [apply marks_through_refl |].
    intros x a Hx. apply elem_of_nil in Hx. destruct Hx.
  - rewrite bind_unfold.
    destruct (f x m) as [[[] | | |] m1] eqn:Hx; try discriminate.
    intros Hrest. destruct (Hf _ _ _ Hx) as [H1 T1].
    destruct (IH _ _ Hrest) as [H2 T2].
    split; [eapply marks_through_trans; eassumption |].
    intros y a Hy Ht. apply elem_of_cons in Hy as [-> | Hy].
    + eapply marks_more_marked; [apply H2 | apply T1, Ht].
    + eapply T2; eassumption.
Qed.

Lemma mark_environment_with_marks mark env m m' :
  (forall p m m', mark p m = (Ok tt, m') ->
                  marks_through m m' /\ forall a, p = Some a -> marked m' a = true) ->
  mark_environment_with mark env m = (Ok tt, m') ->
  marks_through m m'
  /\ forall e x, env = Some e -> frame_value m e x -> marked m' x = true.
Proof.
  intros Hmark. unfold mark_environment_with. rewrite bind_unfold.
  unfold deref_env. destruct env as [e |]; [| discriminate].
  destruct (envs m !! e) as [f |] eqn:Hf; [| discriminate].
  intros Hloop.
  apply (forM_marks _ _
           (fun i x => exists bucket node,
                env_data f !! i = Some bucket /\ node ∈ bucket
                /\ node_value node = Some x)) in Hloop.
  - destruct Hloop as [H T]. split; [exact H |].
    intros e' x [= <-] (f' & i & bucket & node & Hf' & Hi & Hb & Hn & Hv).
    rewrite Hf in Hf'. injection Hf' as <-.
    apply (T i x); [| eauto].
    apply elem_of_seq. lia.
  - intros i m1 m2. destruct (env_data f !! i) as [bucket |]; [| discriminate].
    intros Hbucket.
    apply (forM_marks _ _ (fun node x => node_value node = Some x)) in Hbucket.
    + destruct Hbucket as [H T]. split; [exact H |].
      intros x (b & node & [= <-] & Hn & Hv). eapply T; eassumption.
    + intros node m3 m4 Hnode. destruct (Hmark _ _ _ Hnode) as [H T].
      split; [exact H | exact T].
Qed.

(** [mark] marks its cell and, through the links, every cell that was not
    marked before. *)
Lemma mark_marks_through fuel :
  forall p m m', mark fuel p m = (Ok tt, m') ->
    marks_through m m' /\ forall a, p = Some a -> marked m' a = true.
Proof.
  induction fuel as [| n IH]; intros p m m'; cbn [mark]; [discriminate |].
  destruct p as [a |];
    [| rewrite ret_unfold; intros [= <-];
       split; [apply marks_through_refl | discriminate]].
  rewrite bind_unfold. unfold get_mark.
  destruct (heap m !! a) as [c |] eqn:Hc; [| discriminate].
  assert (Hma : marked m a = cell_mark c) by (unfold marked; rewrite Hc; reflexivity).
  destruct (cell_mark c) eqn:Hmark.
  { rewrite ret_unfold. intros [= <-]. split; [apply marks_through_refl |]. intros ? [= <-]. exact Hma. }
  rewrite bind_unfold.
  pose proof (only_marks_set_mark a m) as Hset.
  assert (Hm1a : marked (snd (set_mark a true m)) a = true).
  { unfold set_mark, marked. rewrite Hc. cbn [snd heap set_heap].
    rewrite lookup_insert_eq. reflexivity. }
  assert (Hm1o : forall b, b <> a -> marked (snd (set_mark a true m)) b = marked m b).
  { intros b Hb. unfold set_mark. rewrite Hc. cbn [snd].
    unfold marked. cbn [heap set_heap].
    rewrite lookup_insert_ne by congruence. reflexivity. }
  assert (Hok : set_mark a true m = (Ok tt, snd (set_mark a true m)))
    by (unfold set_mark; rewrite Hc; reflexivity).
  rewrite Hok. cbv iota beta. revert Hset Hm1a Hm1o. clear Hok.
  generalize (snd (set_mark a true m)). intros m1 Hset Hm1a Hm1o.
  assert (Hp : points_to m a (cell_data c))
    by (unfold points_to; rewrite Hc; reflexivity).
  assert (Hp1 : points_to m1 a (cell_data c))
    by (apply (marks_more_points_to _ _ _ _ Hset); exact Hp).
  rewrite (bind_ok _ _ _ _ _ (deref_points_to _ _ _ Hp1)).
  intros Hchildren.
  (* what the calls on the cells linked from [a] give *)
  assert (Hsub : marks_through m1 m'
                 /\ forall x, linked m a x -> marked m' x = true).
  { destruct (cell_data c) as [| | | | x y | data | | fn formals body env | |]
      eqn:Hd; try (rewrite ret_unfold in Hchildren; injection Hchildren as <-;
                   split; [apply marks_through_refl |];
                   intros x Hl; destruct (linked_inv _ _ _ _ Hp Hl)).
    - rewrite bind_unfold in Hchildren.
      destruct (mark n x m1) as [[[] | | |] m2] eqn:Hx; try discriminate.
      destruct (IH _ _ _ Hx) as [H1 T1]. destruct (IH _ _ _ Hchildren) as [H2 T2].
      split; [eapply marks_through_trans; eassumption |].
      intros z Hl. destruct (linked_inv _ _ _ _ Hp Hl) as [-> | ->].
      + eapply marks_more_marked; [apply H2 | apply T1; reflexivity].
      + apply T2. reflexivity.
    - apply (forM_marks _ _ (fun p x => p = Some x)) in Hchildren;
        [| intros p m2 m3 H; exact (IH _ _ _ H)].
      destruct Hchildren as [H T]. split; [exact H |].
      intros z Hl. apply (linked_inv _ _ _ _ Hp) in Hl. eapply T; eauto.
    - destruct fn as [fn |].
      { rewrite ret_unfold in Hchildren. injection Hchildren as <-.
        split; [apply marks_through_refl |].
        intros x Hl. destruct (linked_inv _ _ _ _ Hp Hl). }
      rewrite bind_unfold in Hchildren.
      destruct (mark n formals m1) as [[[] | | |] m2] eqn:Hf; try discriminate.
      rewrite bind_unfold in Hchildren.
      destruct (mark n body m2) as [[[] | | |] m3] eqn:Hb; try discriminate.
      destruct (IH _ _ _ Hf) as [H1 T1]. destruct (IH _ _ _ Hb) as [H2 T2].
      destruct (mark_environment_with_marks _ _ _ _ (IH) Hchildren) as [H3 T3].
      split; [eapply marks_through_trans;
              [eapply marks_through_trans; eassumption | exact H3] |].
      intros z Hl.
      destruct (linked_inv _ _ _ _ Hp Hl) as [-> | [-> | (e & -> & Hfr)]].
      + eapply marks_more_marked; [apply H3 |].
        eapply marks_more_marked; [apply H2 | apply T1; reflexivity].
      + eapply marks_more_marked; [apply H3 | apply T2; reflexivity].
      + apply (T3 e z eq_refl).
        apply (marks_more_frame_value m m3); [| exact Hfr].
        eapply marks_more_trans; [exact Hset |].
        eapply marks_more_trans; [apply H1 | apply H2]. }
  destruct Hsub as [[Hmore Hnew] Hkids].
  split; [split |].
  - eapply marks_more_trans; eassumption.
  - intros b x Hb Hb' Hl. destruct (decide (b = a)) as [-> | Hne].
    + apply Hkids. exact Hl.
    + apply (Hnew b x); [rewrite Hm1o by exact Hne; exact Hb | exact Hb' |].
      apply (marks_more_linked _ _ _ _ Hset). exact Hl.
  - intros ? [= <-]. eapply marks_more_marked; [exact Hmore | exact Hm1a].
Qed.

Lemma marks_through_closed m m' :
  marks_closed m -> marks_through m m' -> marks_closed m'.
Proof.
  intros Hc [Hmore Hnew] a x Ha Hl.
  apply (marks_more_linked _ _ _ _ Hmore) in Hl.
  destruct (marked m a) eqn:Hbefore.
  - eapply marks_more_marked; [exact Hmore |]. eapply Hc; eassumption.
  - eapply Hnew; eassumption.
Qed.

Lemma marks_closed_rtc m a b :
  marks_closed m -> rtc (linked m) a b -> marked m a = true -> marked m b = true.
Proof.
  intros Hc. induction 1 as [| a x b Hl _ IH]; [trivial |].
  intros Ha. apply IH. eapply Hc; eassumption.
Qed.

Lemma mark_environment_live fuel m m' :
  marks_closed m ->
  mark_environment fuel (Some (cont_env (cont m))) m = (Ok tt, m') ->
  marks_more m m' /\ marks_closed m'
  /\ forall a, live m a -> marked m' a = true.
Proof.
  intros Hc Hmark. unfold mark_environment in Hmark.
  apply mark_environment_with_marks in Hmark; [| apply mark_marks_through].
  destruct Hmark as [Hthrough Hroots].
  pose proof (marks_through_closed _ _ Hc Hthrough) as Hc'.
  split; [apply Hthrough | split; [exact Hc' |]].
  intros a (r & Hr & Hpath).
  apply (marks_closed_rtc m' r a Hc').
  - clear Hr. induction Hpath as [| r x a Hl _ IH]; [constructor |].
    eapply rtc_l; [| exact IH].
    apply (marks_more_linked m m'); [apply Hthrough | exact Hl].
  - eapply Hroots; [reflexivity | exact Hr].
Qed.

(** X14: where the marks left from before are closed under the links,
    [mark_environment] on the current frame, if it returns, leaves marked
    every cell that can be reached from a value of that frame through
    pairs, vectors and closures with their frames; it changes no payload,
    no frame and no stream, and removes no mark. *)
Theorem mark_environment_marks_the_live_cells fuel m m' a :
  marks_closed m ->
  mark_environment fuel (Some (cont_env (cont m))) m = (Ok tt, m') ->
  live m a ->
  marked m' a = true /\ marks_more m m'.
Proof.
  intros Hc Hmark Hlive.
  destruct (mark_environment_live _ _ _ Hc Hmark) as (Hmore & _ & Hall).
  split; [apply Hall, Hlive | exact Hmore].
Qed.

(** The sweep, where it returns: a cell that is marked, or that is not in
    the list, keeps its payload. *)
Lemma sweep_keeps_payload cells :
  forall remaining m l m',
    NoDup cells -> sweep cells remaining m = (Ok l, m') ->
    envs m' = envs m /\ cont_env (cont m') = cont_env (cont m)
    /\ forall a, (a ∈ cells -> marked m a = true) ->
                 cell_data <$> heap m' !! a = cell_data <$> heap m !! a.
Proof.
  induction cells as [| cell rest IH]; intros remaining m l m' Hnd; cbn [sweep].
  - rewrite ret_unfold. intros [= _ <-]. auto.
  - apply NoDup_cons in Hnd as [Hcell Hnd].
    rewrite bind_unfold. unfold get_mark.
    destruct (heap m !! cell) as [c |] eqn:Hc; [| discriminate].
    assert (Hm : marked m cell = cell_mark c)
      by (unfold marked; rewrite Hc; reflexivity).
    destruct (cell_mark c) eqn:Hmark.
    + rewrite bind_unfold. unfold set_mark. rewrite Hc. intros Hrest.
      destruct (IH _ _ _ _ Hnd Hrest) as (He & Hr & Hkeep).
      split; [exact He | split; [exact Hr |]].
      intros a Ha. rewrite Hkeep.
      * cbn [heap set_heap]. destruct (decide (a = cell)) as [-> | Hne].
        -- rewrite lookup_insert_eq, Hc. reflexivity.
        -- rewrite lookup_insert_ne by congruence. reflexivity.
      * intros Hin. rewrite marked_set_heap_other.
        -- apply Ha. right. exact Hin.
        -- intros ->. contradiction.
    + rewrite bind_unfold. unfold deref. rewrite Hc. cbv iota beta.
      rewrite bind_unfold.
      match goal with
      | |- context [match ?step m with _ => _ end] =>
          assert (Hport : step m = (Crash, m)
                          \/ exists m0, step m = (Ok tt, m0)
                                        /\ heap m0 = heap m /\ envs m0 = envs m
                                        /\ cont m0 = cont m);
          [| destruct Hport as [-> | (m0 & -> & Hh & He & Hk)];
             [discriminate |]]
      end.
      { destruct (cell_data c) as [| | | | | | | | f | f];
          try (right; exists m; rewrite ret_unfold; auto).
        - destruct (decide (f = stdin));
            [right; exists m; rewrite ret_unfold; auto |].
          unfold fclose. destruct (bool_decide _); [left; reflexivity |].
          right. eexists. split; [reflexivity |]. auto.
        - destruct (decide (f = stdout));
            [right; exists m; rewrite ret_unfold; auto |].
          unfold fclose. destruct (bool_decide _); [left; reflexivity |].
          right. eexists. split; [reflexivity |]. auto. }
      rewrite bind_unfold.
      change (free_cell cell m0) with (Ok tt, snd (free_cell cell m0)).
      cbv iota beta. intros Hrest.
      destruct (IH _ _ _ _ Hnd Hrest) as (He' & Hr & Hkeep).
      split; [rewrite He'; exact He | split; [rewrite Hr, <- Hk; reflexivity |]].
      intros a Ha.
      assert (Hne : a <> cell).
      { intros ->. rewrite Ha in Hm by left. discriminate. }
      rewrite Hkeep.
      * unfold free_cell, modify. cbn [snd heap].
        rewrite lookup_delete_ne by congruence. rewrite Hh. reflexivity.
      * intros Hin. unfold marked, free_cell, modify. cbn [snd heap].
        rewrite lookup_delete_ne by congruence. rewrite Hh.
        apply (Ha (or_intror Hin) : marked m a = true) || (apply Ha; right; exact Hin).
Qed.

(** X15: a collection that returns keeps every live cell with its payload,
    and every frame, where the list of cells names no cell twice and the
    marks left from before are closed under the links. *)
Theorem collect_garbage_keeps_the_live_cells fuel m m' :
  NoDup (cont_cells (cont m)) -> marks_closed m ->
  collect_garbage fuel m = (Ok tt, m') ->
  envs m' = envs m /\ cont_env (cont m') = cont_env (cont m)
  /\ forall a d, live m a -> points_to m a d -> points_to m' a d.
Proof.
  intros Hnd Hc. unfold collect_garbage. rewrite bind_unfold.
  unfold get_machine at 1. cbv iota beta. rewrite bind_unfold.
  destruct (mark_environment fuel (Some (cont_env (cont m))) m)
    as [[[] | | |] m1] eqn:Hmark; try discriminate.
  destruct (mark_environment_live _ _ _ Hc Hmark) as (Hmore & _ & Hlive).
  rewrite bind_unfold. unfold get_machine at 1. cbv iota beta.
  rewrite bind_unfold.
  assert (Hk : cont m1 = cont m) by apply Hmore.
  destruct (sweep (cont_cells (cont m1)) [] m1)
    as [[remaining | | |] m2] eqn:Hsweep; try discriminate.
  apply sweep_keeps_payload in Hsweep; [| rewrite Hk; exact Hnd].
  destruct Hsweep as (He & Hr & Hkeep).
  rewrite bind_unfold.
  change (set_cells remaining m2) with (Ok tt, snd (set_cells remaining m2)).
  cbv iota beta. rewrite bind_unfold. unfold get_machine at 1. cbv iota beta.
  unfold fprintf. destruct (bool_decide _); [discriminate |].
  intros [= <-]. cbn [envs heap cont snd set_cells modify set_cont cont_env].
  split; [rewrite He; apply Hmore |].
  split; [rewrite Hr, Hk; reflexivity |].
  intros a d Hl Hd. unfold points_to. cbn [heap]. rewrite Hkeep.
  - apply (marks_more_points_to m m1); assumption.
  - intros _. apply Hlive. exact Hl.
Qed.

(** ** The marker stops *)

Lemma stops_on_ret {A} P (a : A) : stops_on P (mret a).
Proof. intros m H. rewrite ret_unfold. split; [discriminate | exact H]. Qed.

Lemma stops_on_bind {A B} P (x : M A) (f : A -> M B) :
  stops_on P x -> (forall a, stops_on P (f a)) -> stops_on P (x ≫= f).
Proof.
  intros Hx Hf m H. rewrite bind_unfold. destruct (Hx m H) as [Hno HP].
  destruct (x m) as [[a | msg | |] m1]; cbn [fst snd] in *.
  - apply Hf. exact HP.
  - split; [discriminate | exact HP].
  - split; [discriminate | exact HP].
  - contradiction.
Qed.

Lemma stops_on_forM_ {A} P (l : list A) (f : A -> M unit) :
  (forall x, stops_on P (f x)) -> stops_on P (forM_ l f).
Proof.
  intros Hf. induction l as [| x l IH]; cbn [forM_].
  - apply stops_on_ret.
  - apply stops_on_bind; [apply Hf | intros _; exact IH].
Qed.

Lemma stops_on_same {A} P (c : M A) :
  read_only c -> (forall m, fst (c m) <> Timeout) -> stops_on P c.
Proof. intros Hr Hc m H. rewrite Hr. split; [apply Hc | exact H]. Qed.

Lemma unmarked_in_more cells m m' :
  unmarked_in cells m -> marks_more m m' -> unmarked_in cells m'.
Proof.
  intros Hu (_ & _ & _ & _ & H) a c' Ha Hmark.
  destruct (H a) as [Hdata Hmono]. rewrite Ha in Hdata.
  destruct (heap m !! a) as [c |] eqn:Hc; [| discriminate].
  apply (Hu a c Hc).
  destruct (cell_mark c) eqn:E; [| reflexivity].
  unfold marked in Hmono. rewrite Hc, Ha in Hmono.
  rewrite Hmono in Hmark by exact E. discriminate.
Qed.

Lemma mark_environment_with_stops P mark env :
  (forall p, stops_on P (mark p)) -> stops_on P (mark_environment_with mark env).
Proof.
  intros Hmark. unfold mark_environment_with.
  apply stops_on_bind.
  - apply stops_on_same; [intros m; unfold deref_env |
                          intros m; unfold deref_env];
      destruct env as [e |]; try destruct (envs m !! e); cbn; congruence.
  - intros f. apply stops_on_forM_. intros i.
    destruct (env_data f !! i) as [bucket |].
    + apply stops_on_forM_. intros node. apply Hmark.
    + intros m H. split; [discriminate | exact H].
Qed.

(** With more fuel than cells that are not marked, [mark] does not run out
    of fuel. *)
Lemma mark_stops fuel :
  forall (cells : gset addr) p,
    (size cells < fuel)%nat -> stops_on (unmarked_in cells) (mark fuel p).
Proof.
  induction fuel as [| n IH]; intros cells p Hsize; [lia |].
  intros m Hm. split; [| eapply unmarked_in_more; [exact Hm | apply only_marks_mark]].
  cbn [mark]. destruct p as [a |]; [| rewrite ret_unfold; discriminate].
  rewrite bind_unfold. unfold get_mark.
  destruct (heap m !! a) as [c |] eqn:Hc; [| discriminate].
  destruct (cell_mark c) eqn:Hmark; [rewrite ret_unfold; discriminate |].
  rewrite bind_unfold. unfold set_mark. rewrite Hc.
  set (m1 := set_heap _ m).
  assert (Ha : a ∈ cells) by (eapply Hm; eassumption).
  assert (Hm1 : unmarked_in (cells ∖ {[a]}) m1).
  { intros b c' Hb Hmb. unfold m1 in Hb. cbn [heap set_heap] in Hb.
    destruct (decide (b = a)) as [-> | Hne].
    - rewrite lookup_insert_eq in Hb. injection Hb as <-. discriminate.
    - rewrite lookup_insert_ne in Hb by congruence.
      apply elem_of_difference. split; [eapply Hm; eassumption |].
      rewrite elem_of_singleton. exact Hne. }
  assert (Hless : (size (cells ∖ {[a]}) < n)%nat).
  { assert (size (cells ∖ {[a]}) < size cells)%nat; [| lia].
    apply subset_size. split.
    - intros x Hx. apply elem_of_difference in Hx as [Hx _]. exact Hx.
    - intros Hsub. specialize (Hsub a Ha).
      apply elem_of_difference in Hsub as [_ Hn].
      apply Hn, elem_of_singleton. reflexivity. }
  revert m1 Hm1. generalize (cells ∖ {[a]}) Hless.
  intros rest Hrest_less m1 Hm1. clear Hless. rename Hrest_less into Hless.
  assert (Hrest : stops_on (unmarked_in rest)
            (deref (Some a) ≫= λ d : Data,
               match d with
               | Pair x y => mark n x ≫= λ _ : (), mark n y
               | Vector data => forM_ data (mark n)
               | Procedure None formals body env =>
                   mark n formals
                   ≫= λ _ : (), mark n body
                   ≫= λ _ : (), mark_environment_with (mark n) env
               | _ => mret ()
               end)).
  { apply stops_on_bind.
    - apply stops_on_same; [intros m0; apply deref_same_machine |].
      intros m0. unfold deref. destruct (heap m0 !! a); cbn; discriminate.
    - intros d. destruct d; try apply stops_on_ret.
      + apply stops_on_bind; [apply IH, Hless | intros _; apply IH, Hless].
      + apply stops_on_forM_. intros x. apply IH, Hless.
      + destruct function; [apply stops_on_ret |].
        apply stops_on_bind; [apply IH, Hless |]. intros _.
        apply stops_on_bind; [apply IH, Hless |]. intros _.
        apply mark_environment_with_stops. intros p. apply IH, Hless. }
  apply (Hrest m1 Hm1).
Qed.

Lemma unmarked_in_dom m : unmarked_in (dom (heap m)) m.
Proof. intros a c Ha _. apply elem_of_dom. eauto. Qed.

(** X16: with more fuel than there are cells, the marker and the collector do
    not run out of fuel, whatever the links between the cells: a cell
    that is marked is not visited again. *)
Theorem collect_garbage_terminates fuel m :
  (size (dom (heap m)) < fuel)%nat ->
  (forall p, fst (mark fuel p m) <> Timeout)
  /\ (forall env, fst (mark_environment fuel env m) <> Timeout)
  /\ fst (collect_garbage fuel m) <> Timeout.
Proof.
  intros Hsize.
  pose proof (fun p => mark_stops fuel (dom (heap m)) p Hsize) as Hmark.
  pose proof (unmarked_in_dom m) as Hm.
  assert (Henv : forall env, fst (mark_environment fuel env m) <> Timeout).
  { intros env. apply (mark_environment_with_stops _ _ env Hmark m Hm). }
  split; [intros p; apply (Hmark p m Hm) | split; [exact Henv |]].
  unfold collect_garbage. rewrite bind_unfold.
  unfold get_machine at 1. cbv iota beta. rewrite bind_unfold.
  specialize (Henv (Some (cont_env (cont m)))).
  destruct (mark_environment fuel (Some (cont_env (cont m))) m)
    as [[[] | | |] m1]; try discriminate; [| contradiction].
  rewrite bind_unfold. unfold get_machine at 1. cbv iota beta.
  rewrite bind_unfold.
  assert (Hsweep : forall cells remaining m0,
             fst (sweep cells remaining m0) <> Timeout).
  { clear. induction cells as [| cell rest IH]; intros remaining m0; cbn [sweep].
    - rewrite ret_unfold. discriminate.
    - rewrite bind_unfold. unfold get_mark.
      destruct (heap m0 !! cell) as [c |]; [| discriminate].
      destruct (cell_mark c).
      + rewrite bind_unfold. unfold set_mark.
        destruct (heap m0 !! cell); [apply IH | discriminate].
      + rewrite bind_unfold. unfold deref.
        destruct (heap m0 !! cell) as [c' |]; [| discriminate].
        cbv iota beta. rewrite bind_unfold.
        assert (Hport : forall f, fst (fclose f m0) <> Timeout)
          by (intros f; unfold fclose; destruct (bool_decide _); discriminate).
        destruct (cell_data c') as [| | | | | | | | f | f];
          try (rewrite ret_unfold, bind_unfold;
               change (free_cell cell m0) with (Ok tt, snd (free_cell cell m0));
               apply IH).
        * destruct (decide (f = stdin));
            [rewrite ret_unfold, bind_unfold;
             change (free_cell cell m0) with (Ok tt, snd (free_cell cell m0));
             apply IH |].
          specialize (Hport f).
          destruct (fclose f m0) as [[[] | | |] m2]; try discriminate;
            [| contradiction].
          rewrite bind_unfold.
          change (free_cell cell m2) with (Ok tt, snd (free_cell cell m2)).
          apply IH.
        * destruct (decide (f = stdout));
            [rewrite ret_unfold, bind_unfold;
             change (free_cell cell m0) with (Ok tt, snd (free_cell cell m0));
             apply IH |].
          specialize (Hport f).
          destruct (fclose f m0) as [[[] | | |] m2]; try discriminate;
            [| contradiction].
          rewrite bind_unfold.
          change (free_cell cell m2) with (Ok tt, snd (free_cell cell m2)).
          apply IH. }
  specialize (Hsweep (cont_cells (cont m1)) [] m1).
  destruct (sweep (cont_cells (cont m1)) [] m1) as [[remaining | | |] m2];
    try discriminate; [| contradiction].
  rewrite bind_unfold.
  change (set_cells remaining m2) with (Ok tt, snd (set_cells remaining m2)).
  cbv iota beta. rewrite bind_unfold. unfold get_machine at 1. cbv iota beta.
  unfold fprintf. destruct (bool_decide _); discriminate.
Qed.

Lemma sweep_keeps_the_marked_cells_witness :
  exists m',
    sweep [4; 3]%positive [] m_one_marked = (Ok [3%positive], m')
    /\ heap m' !! 4%positive = None
    /\ heap m' !! 3%positive = Some (mkCell (Number (Double.of_Z 1)) false)
    /\ cont_allocated (cont m') = 1.
Proof.
  destruct (sweep_keeps_the_marked_cells [4; 3]%positive [] m_one_marked)
    as (m' & Hsweep & _ & Hin & Hcount & _).
  - apply (bool_decide_unpack _). vm_compute. exact I.
  - intros a Ha. repeat rewrite elem_of_cons in Ha. rewrite elem_of_nil in Ha.
    destruct Ha as [-> | [-> | []]]; vm_compute; eauto.
  - intros a f Ha. repeat rewrite elem_of_cons in Ha. rewrite elem_of_nil in Ha.
    destruct Ha as [-> | [-> | []]]; vm_compute; discriminate.
  - intros a f Ha. repeat rewrite elem_of_cons in Ha. rewrite elem_of_nil in Ha.
    destruct Ha as [-> | [-> | []]]; vm_compute; discriminate.
  - exists m'. split; [exact Hsweep |].
    split; [exact (Hin 4%positive ltac:(left)) |].
    split; [exact (Hin 3%positive ltac:(right; left)) | exact Hcount].
Defined.

(** Where no cell is marked, the marks are closed under the links. *)
Lemma unmarked_marks_closed m : unmarked m -> marks_closed m.
Proof.
  intros H a x Ha. unfold marked in Ha.
  destruct (heap m !! a) as [c |] eqn:Hc; [| discriminate].
  rewrite (H a c Hc) in Ha. discriminate.
Qed.

Lemma ok_snd {A} (c : M A) m a : fst (c m) = Ok a -> c m = (Ok a, snd (c m)).
Proof. destruct (c m) as [o m']. simpl. intros ->. reflexivity. Qed.

(** In [m_lists] the last pair of the list bound to [xs] is live. *)
Lemma m_lists_live : live m_lists 52%positive.
Proof.
  exists 48%positive. split.
  - eexists _, 0%nat, _, (mkNode "xs" (Some 48%positive)).
    split; [vm_compute; reflexivity |].
    split; [vm_compute; lia |].
    split; [vm_compute; reflexivity |].
    split; [| reflexivity].
    apply list_elem_of_lookup. exists 1%nat. vm_compute. reflexivity.
  - eapply rtc_l; [eapply linked_cdr; vm_compute; reflexivity |].
    eapply rtc_l; [eapply linked_cdr; vm_compute; reflexivity |].
    constructor.
Qed.

Lemma mark_environment_marks_the_live_cells_witness :
  marked (snd (mark_environment 100 (Some (cont_env (cont m_lists))) m_lists))
         52%positive = true.
Proof.
  refine (proj1 (mark_environment_marks_the_live_cells 100 m_lists _
                   52%positive _ _ m_lists_live)).
  - apply unmarked_marks_closed, (bool_decide_unpack _). vm_compute. exact I.
  - apply ok_snd. vm_compute. reflexivity.
Defined.

Lemma collect_garbage_keeps_the_live_cells_witness :
  live m_lists 52%positive
  /\ points_to (snd (collect_garbage 100 m_lists)) 52%positive
               (Pair (Some 51%positive) None).
Proof.
  split; [exact m_lists_live |].
  refine (proj2 (proj2 (collect_garbage_keeps_the_live_cells 100 m_lists _ _ _ _))
            52%positive _ m_lists_live _).
  - apply (bool_decide_unpack _). vm_compute. exact I.
  - apply unmarked_marks_closed, (bool_decide_unpack _). vm_compute. exact I.
  - apply ok_snd. vm_compute. reflexivity.
  - vm_compute. reflexivity.
Defined.

Lemma collect_garbage_terminates_witness :
  points_to m_cycle 3%positive (Pair (Some 3%positive) (Some 3%positive))
  /\ fst (mark 4 (Some 3%positive) m_cycle) <> Timeout
  /\ fst (collect_garbage 4 m_cycle) <> Timeout.
Proof.
  split; [vm_compute; reflexivity |].
  destruct (collect_garbage_terminates 4 m_cycle) as (Hmark & _ & Hgc).
  - vm_compute. lia.
  - split; [apply Hmark | exact Hgc].
Defined.

(** ** Arguments of a built-in *)

Lemma bind_signal_error {A B} msg (f : A -> M B) m :
  (signal_error msg ≫= f) m = signal_error msg m.
Proof.
  rewrite bind_unfold. unfold signal_error.
  destruct (cont_escape (cont m)); reflexivity.
Qed.

Section Arguments.

Variable ev : eaddr -> ptr -> M ptr.
Variable env : eaddr.

Lemma nth_cell_proper m cells : forall k p a x,
  proper_list m p cells -> cells !! k = Some (a, x) ->
  nth_cell k p m = (Ok (Some a), m).
Proof.
  unfold proper_list.
  induction cells as [| [b y] rest IH]; intros k p a x Hl Hk; [discriminate |].
  destruct Hl as (-> & next & Hb & Hrest).
  destruct k as [| k]; cbn [nth_cell].
  - injection Hk as <- <-. reflexivity.
  - rewrite (bind_ok _ _ _ _ _ (cdr_points_to _ _ _ _ Hb)).
    cbn [lookup list_lookup] in Hk.
    destruct rest as [| [c z] rest']; [discriminate |].
    pose proof Hrest as (-> & _).
    eapply IH; eassumption.
Qed.

Lemma nth_cell_short m cells : forall k p,
  proper_list m p cells -> cells <> [] -> (length cells <= k)%nat ->
  nth_cell k p m = (Ok None, m).
Proof.
  unfold proper_list.
  induction cells as [| [b y] rest IH]; intros k p Hl Hne Hk; [congruence |].
  destruct Hl as (-> & next & Hb & Hrest).
  destruct k as [| k]; cbn [length] in Hk; [lia |]. cbn [nth_cell].
  rewrite (bind_ok _ _ _ _ _ (cdr_points_to _ _ _ _ Hb)).
  destruct rest as [| [c z] rest'].
  - cbn [lseg] in Hrest. subst next. reflexivity.
  - pose proof Hrest as (-> & _).
    apply IH; [exact Hrest | discriminate | cbn [length] in *; lia].
Qed.

Lemma arguments_lookup m params cells values k v :
  arguments ev env m params cells values -> values !! k = Some v ->
  exists a x, cells !! k = Some (a, x) /\ ev env x m = (Ok v, m).
Proof.
  intros [_ Hev] Hv.
  destruct (Forall2_lookup_r _ _ _ _ _ Hev Hv) as ([a x] & Hc & He).
  eauto.
Qed.

Lemma nth_param_any_optional_nth m params cells values n v :
  arguments ev env m params cells values -> values !! n = Some v ->
  nth_param_any_optional ev env params (S n) m = (Ok v, m).
Proof.
  intros Hargs Hv.
  destruct (arguments_lookup _ _ _ _ _ _ Hargs Hv) as (a & x & Hc & He).
  destruct Hargs as [Hl _]. unfold nth_param_any_optional. cbn [Nat.pred].
  rewrite (bind_ok _ _ _ _ _ (nth_cell_proper _ _ _ _ _ _ Hl Hc)).
  assert (Ha : exists next, points_to m a (Pair x next)).
  { clear - Hl Hc. unfold proper_list in Hl. revert params n Hl Hc.
    induction cells as [| [b y] rest IH]; intros params n Hl Hc; [discriminate |].
    destruct Hl as (-> & next & Hb & Hrest). destruct n as [| n].
    - injection Hc as <- <-. eauto.
    - eapply IH; eassumption. }
  destruct Ha as (next & Ha).
  rewrite (bind_ok _ _ _ _ _ (car_points_to _ _ _ _ Ha)). exact He.
Qed.

Lemma nth_param_any_optional_short m params cells values n :
  arguments ev env m params cells values -> cells <> [] ->
  (length cells <= n)%nat ->
  nth_param_any_optional ev env params (S n) m = (Ok None, m).
Proof.
  intros [Hl _] Hne Hn. unfold nth_param_any_optional. cbn [Nat.pred].
  rewrite (bind_ok _ _ _ _ _ (nth_cell_short _ _ _ _ Hl Hne Hn)). reflexivity.
Qed.

Lemma nth_param_any_nth m params cells values n v :
  arguments ev env m params cells values -> values !! n = Some (Some v) ->
  nth_param_any ev env params (S n) m = (Ok (Some v), m).
Proof.
  intros Hargs Hv. unfold nth_param_any.
  rewrite (bind_ok _ _ _ _ _
             (nth_param_any_optional_nth _ _ _ _ _ _ Hargs Hv)).
  reflexivity.
Qed.

Lemma nth_param_nth m params cells values n v d :
  arguments ev env m params cells values -> values !! n = Some (Some v) ->
  points_to m v d ->
  nth_param ev env params (S n) (type_of d) m = (Ok (Some v), m).
Proof.
  intros Hargs Hv Hd. unfold nth_param.
  rewrite (bind_ok _ _ _ _ _ (nth_param_any_nth _ _ _ _ _ _ Hargs Hv)).
  rewrite (bind_ok _ _ _ _ _ (deref_points_to _ _ _ Hd)).
  unfold type_check. rewrite decide_True by reflexivity. reflexivity.
Qed.

Lemma nth_param_integer_nth m params cells values n v k :
  arguments ev env m params cells values -> values !! n = Some (Some v) ->
  integer_cell m v k ->
  nth_param_integer ev env params (S n) m = (Ok k, m).
Proof.
  intros Hargs Hv (x & Hx & Hint & Hk). unfold nth_param_integer.
  rewrite (bind_ok _ _ _ _ _ (nth_param_nth _ _ _ _ _ _ _ Hargs Hv Hx)).
  rewrite (bind_ok _ _ _ _ _ (deref_points_to _ _ _ Hx)).
  rewrite Hint, Hk. reflexivity.
Qed.

Lemma nth_param_none m type :
  nth_param ev env None 1 type m
  = signal_error "Too few parameters passed (1 expected)" m.
Proof.
  unfold nth_param, nth_param_any, nth_param_any_optional. cbn [Nat.pred nth_cell].
  rewrite !bind_unfold, !ret_unfold. cbv iota beta.
  unfold signal_error. destruct (cont_escape (cont m)); reflexivity.
Qed.

End Arguments.

(** Tactics for the arguments of a call in a concrete machine. *)
Ltac concrete_list :=
  unfold proper_list; cbn [lseg];
  repeat (split; [reflexivity |]; eexists; split; [vm_compute; reflexivity |]);
  reflexivity.

Ltac concrete_arguments :=
  split;
  [concrete_list
  | repeat (constructor 2; [vm_compute; reflexivity |]); constructor 1].

Ltac concrete_integer :=
  eexists; split; [vm_compute; reflexivity | split; vm_compute; reflexivity].

Ltac concrete_numbers :=
  repeat (constructor 2;
          [eexists; split; [reflexivity | vm_compute; reflexivity] |]);
  constructor 1.

(** ** Vectors *)

Section Vectors.

Variable ev : eaddr -> ptr -> M ptr.
Variable env : eaddr.

Lemma valid_vector_index_lookup (data : list ptr) k :
  valid_vector_index data k = true <-> 0 <= k /\ is_Some (data !! Z.to_nat k).
Proof.
  unfold valid_vector_index. rewrite andb_true_iff, Z.leb_le, Z.ltb_lt.
  rewrite lookup_lt_is_Some. split; intros [H1 H2]; (split; [exact H1 | lia]).
Qed.

Lemma atom_vector_ref_eq m params cells v kc data k :
  arguments ev env m (Some params) cells [Some v; Some kc] ->
  points_to m v (Vector data) -> integer_cell m kc k ->
  atom_vector_ref ev env (Some params) m
  = if valid_vector_index data k then
      match data !! Z.to_nat k with
      | Some (Some result) => (Ok (Some result), m)
      | _ => signal_error "Cannot access unitialized vector" m
      end
    else signal_error "Invalid vector index" m.
Proof.
  intros Hargs Hv Hk. unfold atom_vector_ref.
  rewrite (bind_ok _ _ _ _ _
             (nth_param_nth ev env _ _ _ _ 0 v _ Hargs eq_refl Hv)).
  rewrite (bind_ok _ _ _ _ _
             (nth_param_integer_nth ev env _ _ _ _ 1 kc k Hargs eq_refl Hk)).
  rewrite (bind_ok _ _ _ _ _ (deref_points_to _ _ _ Hv)).
  destruct (valid_vector_index data k) eqn:Hvalid; [| reflexivity].
  cbn [negb]. apply valid_vector_index_lookup in Hvalid as [_ [x Hx]].
  rewrite Hx. destruct x; reflexivity.
Qed.

(** X17: [vector-ref] on a vector and an integer [k]: it returns the element
    [k] and changes nothing; on an element that was never set it signals
    ["Cannot access unitialized vector"]; with [k] negative or not below
    the length it signals ["Invalid vector index"]. *)
Theorem vector_ref_checks_the_index m params cells v kc data k :
  arguments ev env m (Some params) cells [Some v; Some kc] ->
  points_to m v (Vector data) -> integer_cell m kc k ->
  (forall result, 0 <= k -> data !! Z.to_nat k = Some (Some result) ->
     atom_vector_ref ev env (Some params) m = (Ok (Some result), m))
  /\ (0 <= k -> data !! Z.to_nat k = Some None ->
      atom_vector_ref ev env (Some params) m
      = signal_error "Cannot access unitialized vector" m)
  /\ (k < 0 \/ Z.of_nat (length data) <= k ->
      atom_vector_ref ev env (Some params) m
      = signal_error "Invalid vector index" m).
Proof.
  intros Hargs Hv Hk.
  rewrite (atom_vector_ref_eq _ _ _ _ _ _ _ Hargs Hv Hk).
  split; [| split].
  - intros result H0 Hx.
    rewrite (proj2 (valid_vector_index_lookup data k)) by eauto.
    rewrite Hx. reflexivity.
  - intros H0 Hx.
    rewrite (proj2 (valid_vector_index_lookup data k)) by eauto.
    rewrite Hx. reflexivity.
  - intros Hout. unfold valid_vector_index.
    destruct (0 <=? k) eqn:E1; [| reflexivity].
    destruct (k <? Z.of_nat (length data)) eqn:E2; [| reflexivity].
    apply Z.leb_le in E1. apply Z.ltb_lt in E2. lia.
Qed.

(** X18: [vector-set!] with a valid index stores the object in that element
    and returns the object; a [vector-ref] of the same index then returns
    it.  With an index out of range it signals an error and stores
    nothing. *)
Theorem vector_set_then_ref m params cells v kc obj data k :
  arguments ev env m (Some params) cells [Some v; Some kc; Some obj] ->
  points_to m v (Vector data) -> integer_cell m kc k ->
  (valid_vector_index data k = true ->
   let m' := write v (Vector (<[Z.to_nat k := Some obj]> data)) m in
   atom_vector_set_b ev env (Some params) m = (Ok (Some obj), m')
   /\ forall params' cells' kc',
        arguments ev env m' (Some params') cells' [Some v; Some kc'] ->
        integer_cell m' kc' k ->
        atom_vector_ref ev env (Some params') m' = (Ok (Some obj), m'))
  /\ (valid_vector_index data k = false ->
      atom_vector_set_b ev env (Some params) m
      = signal_error "Invalid vector index k" m).
Proof.
  intros Hargs Hv Hk.
  assert (Hset : atom_vector_set_b ev env (Some params) m
                 = if valid_vector_index data k
                   then (Ok (Some obj),
                         write v (Vector (<[Z.to_nat k := Some obj]> data)) m)
                   else signal_error "Invalid vector index k" m).
  { unfold atom_vector_set_b.
    rewrite (bind_ok _ _ _ _ _
               (nth_param_nth ev env _ _ _ _ 0 v _ Hargs eq_refl Hv)).
    rewrite (bind_ok _ _ _ _ _
               (nth_param_integer_nth ev env _ _ _ _ 1 kc k Hargs eq_refl Hk)).
    rewrite (bind_ok _ _ _ _ _
               (nth_param_any_nth ev env _ _ _ _ 2 obj Hargs eq_refl)).
    rewrite (bind_ok _ _ _ _ _ (deref_points_to _ _ _ Hv)).
    destruct (valid_vector_index data k); [| reflexivity]. cbn [negb].
    rewrite bind_unfold, (store_write _ _ _ _ Hv). reflexivity. }
  split; intros Hvalid; rewrite Hvalid in Hset; [| exact Hset].
  cbv zeta. split; [exact Hset |]. intros params' cells' kc' Hargs' Hk'.
  rewrite (atom_vector_ref_eq _ _ _ v kc' (<[Z.to_nat k := Some obj]> data) k
             Hargs').
  - unfold valid_vector_index in *. rewrite length_insert, Hvalid.
    rewrite list_lookup_insert_eq; [reflexivity |].
    apply andb_true_iff in Hvalid as [H0 Hlt].
    apply Z.leb_le in H0. apply Z.ltb_lt in Hlt. lia.
  - eapply points_to_write_same. exact Hv.
  - exact Hk'.
Qed.

Lemma points_to_is_Some m a d : points_to m a d -> is_Some (heap m !! a).
Proof.
  unfold points_to. destruct (heap m !! a); [eauto | discriminate].
Qed.

Lemma vector_to_list_loop_builds elements :
  forall list m cells,
    proper_list m list cells ->
    exists result m' new,
      vector_to_list_loop elements list m = (Ok result, m')
      /\ proper_list m' result (new ++ cells)
      /\ map snd new = rev elements
      /\ (forall a d, points_to m a d -> points_to m' a d)
      /\ (forall a, a ∈ map fst new -> heap m !! a = None).
Proof.
  induction elements as [| x rest IH]; intros list m cells Hl.
  - exists list, m, []. cbn [vector_to_list_loop]. rewrite ret_unfold.
    repeat split; auto. intros a Ha. apply elem_of_nil in Ha. destruct Ha.
  - cbn [vector_to_list_loop]. unfold cons. rewrite bind_unfold.
    change (make_cell (Pair x list) m)
      with (Ok (fresh (dom (heap m))), alloc (Pair x list) m).
    cbv iota beta.
    destruct (IH (Some (fresh (dom (heap m)))) (alloc (Pair x list) m)
                 ((fresh (dom (heap m)), x) :: cells))
      as (result & m' & new & Hrun & Hres & Hcars & Hold & Hnew).
    { split; [reflexivity |]. exists list.
      split; [apply points_to_alloc_new | apply lseg_alloc, Hl]. }
    exists result, m', (new ++ [(fresh (dom (heap m)), x)]).
    split; [exact Hrun |].
    split; [rewrite <- app_assoc; exact Hres |].
    split; [rewrite map_app, Hcars; reflexivity |].
    split; [intros a d Ha; apply Hold, points_to_alloc_old, Ha |].
    intros a Ha. rewrite map_app in Ha. apply elem_of_app in Ha as [Ha | Ha].
    + specialize (Hnew a Ha).
      destruct (heap m !! a) as [c |] eqn:Hc; [| reflexivity].
      assert (Hp : points_to (alloc (Pair x list) m) a (cell_data c)).
      { apply points_to_alloc_old. unfold points_to. rewrite Hc. reflexivity. }
      unfold points_to in Hp. rewrite Hnew in Hp. discriminate.
    + apply list_elem_of_singleton in Ha as ->. apply fresh_unallocated.
Qed.

(** X19: [vector->list] returns a proper list of newly allocated pairs whose
    cars are the elements of the vector, in order (the null pointer for a
    vector without elements), and changes no cell that was there. *)
Theorem vector_to_list_elements m params cells v data :
  arguments ev env m (Some params) cells [Some v] ->
  points_to m v (Vector data) ->
  exists list m' new,
    atom_vector_to_list ev env (Some params) m = (Ok list, m')
    /\ proper_list m' list new /\ map snd new = data
    /\ (forall a d, points_to m a d -> points_to m' a d)
    /\ (forall a, a ∈ map fst new -> heap m !! a = None).
Proof.
  intros Hargs Hv. unfold atom_vector_to_list.
  rewrite (bind_ok _ _ _ _ _
             (nth_param_nth ev env _ _ _ _ 0 v _ Hargs eq_refl Hv)).
  rewrite (bind_ok _ _ _ _ _ (deref_points_to _ _ _ Hv)).
  destruct (vector_to_list_loop_builds (rev data) None m [])
    as (result & m' & new & Hrun & Hres & Hcars & Hold & Hnew);
    [reflexivity |].
  exists result, m', new. rewrite app_nil_r in Hres. rewrite rev_involutive in Hcars.
  auto.
Qed.

Lemma count_loop_proper m cells : forall fuel p n,
  proper_list m p cells -> (length cells < fuel)%nat ->
  count_loop fuel p n m = (Ok (n + length cells)%nat, m).
Proof.
  unfold proper_list.
  induction cells as [| [a x] rest IH]; intros fuel p n Hl Hfuel;
    (destruct fuel as [| fuel]; [cbn [length] in Hfuel; lia |]);
    cbn [count_loop].
  - cbn [lseg] in Hl. subst p. rewrite ret_unfold, Nat.add_0_r. reflexivity.
  - destruct Hl as (-> & next & Ha & Hrest).
    rewrite (bind_ok _ _ _ _ _ (cdr_points_to _ _ _ _ Ha)).
    rewrite (IH fuel next (S n) Hrest) by (cbn [length] in Hfuel; lia).
    cbn [length]. do 2 f_equal. lia.
Qed.

Lemma list_to_vector_loop_fills v cells : forall fuel p m (done todo : list ptr),
  proper_list m p cells -> points_to m v (Vector (done ++ todo)) ->
  v ∉ map fst cells -> length todo = length cells ->
  (length cells < fuel)%nat ->
  exists m',
    list_to_vector_loop fuel v p (length done) m = (Ok tt, m')
    /\ points_to m' v (Vector (done ++ map snd cells))
    /\ (forall a d, a <> v -> points_to m a d -> points_to m' a d)
    /\ (forall a, heap m !! a = None -> heap m' !! a = None).
Proof.
  unfold proper_list.
  induction cells as [| [a x] rest IH]; intros fuel p m done todo Hl Hv Hnot Hlen Hfuel;
    (destruct fuel as [| fuel]; [cbn [length] in Hfuel; lia |]);
    cbn [list_to_vector_loop].
  - cbn [lseg] in Hl. subst p. destruct todo; [| discriminate].
    exists m. rewrite ret_unfold. auto.
  - destruct Hl as (-> & next & Ha & Hrest).
    destruct todo as [| t todo]; [discriminate |].
    cbn [map] in Hnot. apply not_elem_of_cons in Hnot as [Hva Hnot].
    rewrite (bind_ok _ _ _ _ _ (car_points_to _ _ _ _ Ha)).
    rewrite bind_unfold. unfold vector_store.
    rewrite (bind_ok _ _ _ _ _ (deref_points_to _ _ _ Hv)).
    replace (length done <? length (done ++ t :: todo))%nat with true
      by (symmetry; apply Nat.ltb_lt; rewrite length_app; cbn [length]; lia).
    match goal with
    | |- context [store v ?d m] =>
        rewrite (store_write m v d _ Hv);
        assert (Hv1 : points_to (write v d m) v d)
          by (eapply points_to_write_same; exact Hv);
        assert (Hd : d = Vector ((done ++ [x]) ++ todo));
        [| rewrite Hd in *; clear Hd]
    end.
    { f_equal. rewrite <- app_assoc. cbn [app].
      rewrite <- (Nat.add_0_r (length done)).
      rewrite insert_app_r. reflexivity. }
    cbv iota beta.
    set (m1 := write v (Vector ((done ++ [x]) ++ todo)) m) in *.
    assert (Ha1 : points_to m1 a (Pair x next))
      by (apply points_to_write_other; [congruence | exact Ha]).
    rewrite (bind_ok _ _ _ _ _ (cdr_points_to _ _ _ _ Ha1)).
    destruct (IH fuel next m1 (done ++ [x]) todo)
      as (m' & Hrun & Hfin & Hold & Hnone).
    + apply lseg_write; assumption.
    + exact Hv1.
    + exact Hnot.
    + cbn [length] in Hlen. lia.
    + cbn [length] in Hfuel. lia.
    + exists m'. rewrite length_app in Hrun. cbn [length] in Hrun.
      rewrite Nat.add_1_r in Hrun. split; [exact Hrun |].
      split; [rewrite <- app_assoc in Hfin; exact Hfin |].
      split.
      * intros b d Hb Hbd. apply Hold; [exact Hb |].
        apply points_to_write_other; [congruence | exact Hbd].
      * intros b Hb. apply Hnone. unfold m1, write, store.
        destruct (heap m !! v) as [c |] eqn:Hc; [| exact Hb].
        cbn [snd heap set_heap]. rewrite lookup_insert_ne; [exact Hb |].
        intros <-. congruence.
Qed.

(** X20: [list->vector] on a proper list of [n] pairs returns a new vector of
    the [n] cars, in order, and changes no other cell.  The empty list of
    this interpreter, a pair of two null pointers, gives a vector of one
    element that is not set. *)
Theorem list_to_vector_elements fuel m params pcells l cells :
  arguments ev env m (Some params) pcells [Some l] ->
  proper_list m (Some l) cells -> (length cells < fuel)%nat ->
  exists m',
    let v := fresh (dom (heap m)) in
    atom_list_to_vector ev fuel env (Some params) m = (Ok (Some v), m')
    /\ points_to m' v (Vector (map snd cells))
    /\ forall a d, points_to m a d -> points_to m' a d.
Proof.
  intros Hargs Hl Hfuel. unfold atom_list_to_vector.
  assert (Hpair : exists x next, points_to m l (Pair x next)).
  { destruct cells as [| [a x] rest]; [discriminate |].
    destruct Hl as ([= <-] & next & Ha & _). eauto. }
  destruct Hpair as (x0 & next0 & Hpair).
  rewrite (bind_ok _ _ _ _ _
             (nth_param_nth ev env _ _ _ _ 0 l _ Hargs eq_refl Hpair)).
  rewrite (bind_ok _ _ _ _ _ (count_loop_proper _ _ _ _ 0%nat Hl Hfuel)).
  cbn [Nat.add]. rewrite bind_unfold. unfold make_vector.
  change (make_cell (Vector (replicate (length cells) None)) m)
    with (Ok (fresh (dom (heap m))),
          alloc (Vector (replicate (length cells) None)) m).
  cbv iota beta.
  set (v := fresh (dom (heap m))).
  set (m1 := alloc (Vector (replicate (length cells) None)) m).
  assert (Hfresh : v ∉ map fst cells).
  { intros Hin. apply list_elem_of_fmap in Hin as ([a x] & Heq & Hin).
    cbn [fst] in Heq. subst a.
    assert (Hsome : is_Some (heap m !! v)).
    { clear - Hl Hin. unfold proper_list in Hl. revert Hl Hin.
      generalize (Some l). induction cells as [| [b y] rest IH];
        intros p Hl Hin; [apply elem_of_nil in Hin; destruct Hin |].
      destruct Hl as (-> & next & Hb & Hrest).
      apply elem_of_cons in Hin as [[= <- <-] | Hin].
      - eapply points_to_is_Some. exact Hb.
      - eapply IH; eassumption. }
    unfold v in Hsome. rewrite fresh_unallocated in Hsome.
    destruct Hsome as [? ?]. discriminate. }
  destruct (list_to_vector_loop_fills v cells fuel (Some l) m1 []
              (replicate (length cells) None))
    as (m' & Hrun & Hfin & Hold & _).
  - apply lseg_alloc. exact Hl.
  - apply points_to_alloc_new.
  - exact Hfresh.
  - apply length_replicate.
  - exact Hfuel.
  - exists m'. cbv zeta. cbn [length] in Hrun.
    rewrite bind_unfold, Hrun. rewrite ret_unfold.
    split; [reflexivity |]. split; [exact Hfin |].
    intros a d Ha. apply Hold.
    + apply points_to_allocated in Ha. exact Ha.
    + apply points_to_alloc_old. exact Ha.
Qed.

End Vectors.

Lemma vector_ref_checks_the_index_witness :
  atom_vector_ref (eval 30) root (Some 89%positive) m_vectors
  = (Ok (Some 73%positive), m_vectors).
Proof.
  refine (proj1 (vector_ref_checks_the_index (eval 30) root m_vectors
                   89%positive [(89%positive, Some 88%positive);
                                (91%positive, Some 90%positive)]
                   75%positive 90%positive
                   [Some 72%positive; Some 73%positive; Some 74%positive] 1
                   _ _ _) 73%positive _ _).
  - concrete_arguments.
  - vm_compute. reflexivity.
  - concrete_integer.
  - lia.
  - reflexivity.
Defined.

Lemma vector_set_then_ref_witness :
  atom_vector_set_b (eval 30) root (Some 80%positive) m_vectors
  = (Ok (Some 83%positive),
     write 75 (Vector (<[Z.to_nat 1 := Some 83%positive]>
                         [Some 72%positive; Some 73%positive; Some 74%positive]))
       m_vectors)
  /\ atom_vector_ref (eval 30) root (Some 89%positive)
       (write 75 (Vector (<[Z.to_nat 1 := Some 83%positive]>
                            [Some 72%positive; Some 73%positive; Some 74%positive]))
          m_vectors)
     = (Ok (Some 83%positive),
        write 75 (Vector (<[Z.to_nat 1 := Some 83%positive]>
                            [Some 72%positive; Some 73%positive; Some 74%positive]))
          m_vectors).
Proof.
  destruct (vector_set_then_ref (eval 30) root m_vectors
              80%positive [(80%positive, Some 79%positive);
                           (82%positive, Some 81%positive);
                           (84%positive, Some 83%positive)]
              75%positive 81%positive 83%positive
              [Some 72%positive; Some 73%positive; Some 74%positive] 1)
    as [H _].
  - concrete_arguments.
  - vm_compute. reflexivity.
  - concrete_integer.
  - destruct (H eq_refl) as [Hset Href]. split; [exact Hset |].
    apply (Href 89%positive [(89%positive, Some 88%positive);
                             (91%positive, Some 90%positive)] 90%positive).
    + concrete_arguments.
    + concrete_integer.
Defined.

Lemma vector_to_list_elements_witness :
  exists list m' new,
    atom_vector_to_list (eval 30) root (Some 96%positive) m_vectors = (Ok list, m')
    /\ proper_list m' list new
    /\ map snd new = [Some 72%positive; Some 73%positive; Some 74%positive]
    /\ (forall a d, points_to m_vectors a d -> points_to m' a d)
    /\ (forall a, a ∈ map fst new -> heap m_vectors !! a = None).
Proof.
  apply (vector_to_list_elements (eval 30) root m_vectors 96%positive
           [(96%positive, Some 95%positive)] 75%positive).
  - concrete_arguments.
  - vm_compute. reflexivity.
Defined.

Lemma list_to_vector_elements_witness :
  exists m',
    let v := fresh (dom (heap m_vectors)) in
    atom_list_to_vector (eval 30) 30 root (Some 101%positive) m_vectors
    = (Ok (Some v), m')
    /\ points_to m' v (Vector [Some 47%positive; Some 49%positive; Some 51%positive])
    /\ forall a d, points_to m_vectors a d -> points_to m' a d.
Proof.
  apply (list_to_vector_elements (eval 30) root 30 m_vectors 101%positive
           [(101%positive, Some 100%positive)] 48%positive
           [(48%positive, Some 47%positive); (50%positive, Some 49%positive);
            (52%positive, Some 51%positive)]).
  - concrete_arguments.
  - concrete_list.
  - cbn [length]. lia.
Defined.

(** ** Numbers *)

Section Numbers.

Variable ev : eaddr -> ptr -> M ptr.
Variable env : eaddr.

Lemma arguments_cons m params a x cells v values :
  arguments ev env m params ((a, x) :: cells) (v :: values) ->
  params = Some a /\ ev env x m = (Ok v, m)
  /\ exists next, points_to m a (Pair x next)
                  /\ arguments ev env m next cells values
                  /\ (next = None <-> cells = []).
Proof.
  intros [(-> & next & Ha & Hrest) Hev].
  apply Forall2_cons_1 in Hev as [Hx Hev]. cbn [snd] in Hx.
  split; [reflexivity |]. split; [exact Hx |]. exists next.
  split; [exact Ha |]. split; [split; assumption |].
  destruct cells as [| [b y] rest]; cbn [lseg] in Hrest.
  - subst next. tauto.
  - destruct Hrest as (-> & _). split; discriminate.
Qed.

Lemma arguments_length m params cells values :
  arguments ev env m params cells values -> length cells = length values.
Proof. intros [_ H]. eapply Forall2_length. exact H. Qed.

Lemma comparison_loop_chain c m : forall ys fuel params a0 x0 cells v0 values a x,
  arguments ev env m params ((a0, x0) :: cells) (v0 :: values) ->
  Forall2 (number_cell m) values ys -> ys <> [] ->
  points_to m a (Number x) -> (length ys <= fuel)%nat ->
  comparison_loop ev fuel c env params (Some a) m
  = (Ok (bool_cell (holds_along c x ys)), m).
Proof.
  induction ys as [| y ys IH];
    intros fuel params a0 x0 cells v0 values a x Hargs Hnum Hne Ha Hfuel;
    [congruence |].
  destruct fuel as [| fuel]; [cbn [length] in Hfuel; lia |].
  destruct (arguments_cons _ _ _ _ _ _ _ Hargs)
    as (-> & _ & next & Ha0 & Hrest & _).
  destruct values as [| v1 values]; [inversion Hnum |].
  apply Forall2_cons_1 in Hnum as [(b & -> & Hb) Hnum].
  cbn [comparison_loop].
  rewrite (bind_ok _ _ _ _ _ (cdr_points_to _ _ _ _ Ha0)).
  rewrite (bind_ok _ _ _ _ _
             (nth_param_nth ev env _ _ _ _ 0 b _ Hrest eq_refl Hb)).
  rewrite (bind_ok _ _ _ _ _ (deref_points_to _ _ _ Ha)).
  rewrite (bind_ok _ _ _ _ _ (deref_points_to _ _ _ Hb)).
  cbn [holds_along].
  destruct (compare c x y); cbn [negb andb]; [| reflexivity].
  destruct cells as [| [a1 x1] cells];
    [pose proof (arguments_length _ _ _ _ Hrest) as Hlen; discriminate |].
  destruct (arguments_cons _ _ _ _ _ _ _ Hrest)
    as (-> & _ & next' & Ha1 & Hrest' & Hnil).
  rewrite (bind_ok _ _ _ _ _ (cdr_points_to _ _ _ _ Ha1)).
  destruct ys as [| y' ys].
  - inversion Hnum; subst.
    pose proof (arguments_length _ _ _ _ Hrest') as Hlen.
    destruct cells; [| discriminate].
    rewrite (proj2 Hnil eq_refl). reflexivity.
  - destruct next' as [n' |].
    + apply (IH fuel (Some a1) a1 x1 cells (Some b) values b y Hrest Hnum);
        [discriminate | exact Hb | cbn [length] in *; lia].
    + pose proof (proj1 Hnil eq_refl) as ->.
      pose proof (arguments_length _ _ _ _ Hrest') as Hlen.
      destruct values; [inversion Hnum | discriminate].
Qed.

(** X21: a numerical comparison of two or more numbers returns the boolean
    [#t] exactly if the relation holds between each argument and the
    next, and changes nothing; with one argument it signals that a
    parameter is missing. *)
Theorem comparison_along_the_arguments c fuel m params cells values x ys :
  arguments ev env m (Some params) cells values ->
  Forall2 (number_cell m) values (x :: ys) -> (length ys < fuel)%nat ->
  comparison_helper ev fuel c env (Some params) m
  = match ys with
    | [] => signal_error "Too few parameters passed (1 expected)" m
    | _ => (Ok (bool_cell (holds_along c x ys)), m)
    end.
Proof.
  intros Hargs Hnum Hfuel. unfold comparison_helper.
  destruct values as [| v0 values]; [inversion Hnum |].
  pose proof Hnum as Hnum0.
  apply Forall2_cons_1 in Hnum as [(a & -> & Ha) Hnum].
  rewrite (bind_ok _ _ _ _ _
             (nth_param_nth ev env _ _ _ _ 0 a _ Hargs eq_refl Ha)).
  destruct cells as [| [a0 x0] cells];
    [pose proof (arguments_length _ _ _ _ Hargs) as Hlen; discriminate |].
  destruct ys as [| y ys].
  - inversion Hnum; subst.
    destruct (arguments_cons _ _ _ _ _ _ _ Hargs)
      as ([= <-] & _ & next & Ha0 & Hrest & Hnil).
    pose proof (arguments_length _ _ _ _ Hrest) as Hlen.
    destruct cells; [| discriminate]. rewrite (proj2 Hnil eq_refl) in *.
    destruct fuel as [| fuel]; [lia |]. cbn [comparison_loop].
    rewrite (bind_ok _ _ _ _ _ (cdr_points_to _ _ _ _ Ha0)).
    rewrite bind_unfold, (nth_param_none ev env m TYPE_NUMBER).
    unfold signal_error. destruct (cont_escape (cont m)); reflexivity.
  - apply (comparison_loop_chain c m (y :: ys) fuel (Some params) a0 x0 cells
             (Some a) values a x Hargs Hnum);
      [discriminate | exact Ha | lia].
Qed.

Lemma plus_mul_loop_fold is_add m params results m' :
  in_order ev env number_cell m params results m' ->
  Forall (fun r => is_Some (fst r)) results ->
  forall fuel result, (length results < fuel)%nat ->
  plus_mul_loop ev fuel env params is_add result m
  = (Ok (fold_left (if is_add then Double.add else Double.mul)
           (map snd results) result), m').
Proof.
  induction 1 as [m | m a x next v m1 b next1 rest m2 Ha Hx Hb Hnext _ IH];
    intros Hsome fuel result Hfuel;
    (destruct fuel as [| fuel]; [cbn [length] in Hfuel; lia |]);
    cbn [plus_mul_loop map fold_left snd].
  - reflexivity.
  - apply Forall_cons in Hsome as [He Hsome]. cbn [fst] in He.
    destruct He as [e ->]. destruct Hb as (c & -> & Hc).
    rewrite (bind_ok _ _ _ _ _ (car_points_to _ _ _ _ Ha)).
    rewrite bind_unfold.
    replace (bool_decide (Some e ≠ None)) with true
      by (symmetry; apply bool_decide_eq_true; discriminate).
    cbn [assert]. rewrite ret_unfold. cbv iota beta.
    rewrite (bind_ok _ _ _ _ _ Hx).
    rewrite (bind_ok _ _ _ _ _ (deref_points_to _ _ _ Hc)).
    rewrite bind_unfold. unfold type_check. cbn [type_of].
    rewrite decide_True by reflexivity. rewrite ret_unfold. cbv iota beta.
    rewrite (bind_ok _ _ _ _ _ Hnext).
    rewrite (IH Hsome fuel) by (cbn [length] in Hfuel; lia).
    destruct is_add; reflexivity.
Qed.

(** X22: [+] and [*] evaluate their arguments from left to right, each in
    the machine that the one before it left, and return a new number cell,
    allocated after the last of them: the sum accumulated from [0], the
    product accumulated from [1], of the numbers in that order; without
    arguments, [0] and [1]. *)
Theorem plus_and_mul_fold fuel m params results m' :
  in_order ev env number_cell m params results m' ->
  Forall (fun r => is_Some (fst r)) results ->
  (length results < fuel)%nat ->
  atom_plus ev fuel env params m
  = (Ok (Some (fresh (dom (heap m')))),
     alloc (Number (fold_left Double.add (map snd results) (Double.of_Z 0))) m')
  /\ atom_mul ev fuel env params m
     = (Ok (Some (fresh (dom (heap m')))),
        alloc (Number (fold_left Double.mul (map snd results) (Double.of_Z 1)))
          m').
Proof.
  intros Hargs Hsome Hfuel.
  unfold atom_plus, atom_mul, plus_mul_helper. split.
  - rewrite (bind_ok _ _ _ _ _
               (plus_mul_loop_fold true m params results m' Hargs Hsome
                  fuel _ Hfuel)).
    reflexivity.
  - rewrite (bind_ok _ _ _ _ _
               (plus_mul_loop_fold false m params results m' Hargs Hsome
                  fuel _ Hfuel)).
    reflexivity.
Qed.
End Numbers.

Lemma comparison_along_the_arguments_witness :
  comparison_helper (eval 30) 30 Less root (Some 45%positive) m_less
  = (Ok (Some cell_true), m_less).
Proof.
  apply (comparison_along_the_arguments (eval 30) root Less 30 m_less
           45%positive
           [(45%positive, Some 44%positive); (47%positive, Some 46%positive);
            (49%positive, Some 48%positive)]
           [Some 44%positive; Some 46%positive; Some 48%positive]
           (Double.of_Z 1) [Double.of_Z 2; Double.of_Z 3]).
  - concrete_arguments.
  - concrete_numbers.
  - cbn [length]. lia.
Defined.

Lemma plus_and_mul_fold_witness :
  let m1 := snd (eval 30 root (Some 45%positive) m_nested) in
  heap m_nested !! 53%positive = None
  /\ points_to m1 53%positive (Number (Double.of_Z 3))
  /\ atom_plus (eval 30) 30 root (Some 50%positive) m_nested
     = (Ok (Some (fresh (dom (heap m1)))), alloc (Number (Double.of_Z 6)) m1)
  /\ atom_mul (eval 30) 30 root (Some 50%positive) m_nested
     = (Ok (Some (fresh (dom (heap m1)))), alloc (Number (Double.of_Z 9)) m1).
Proof.
  intros m1.
  split; [vm_compute; reflexivity |]. split; [vm_compute; reflexivity |].
  apply (plus_and_mul_fold (eval 30) root 30 m_nested (Some 50%positive)
           [(Some 45%positive, Double.of_Z 3); (Some 51%positive, Double.of_Z 3)]
           m1).
  - apply (in_order_cons _ _ _ m_nested 50%positive (Some 45%positive)
             (Some 52%positive) (Some 53%positive) m1 (Double.of_Z 3)
             (Some 52%positive)
             [(Some 51%positive, Double.of_Z 3)] m1).
    + vm_compute. reflexivity.
    + vm_compute. reflexivity.
    + exists 53%positive. split; [reflexivity | vm_compute; reflexivity].
    + vm_compute. reflexivity.
    + apply (in_order_cons _ _ _ m1 52%positive (Some 51%positive) None
               (Some 51%positive) m1 (Double.of_Z 3) None [] m1).
      * vm_compute. reflexivity.
      * vm_compute. reflexivity.
      * exists 51%positive. split; [reflexivity | vm_compute; reflexivity].
      * vm_compute. reflexivity.
      * apply in_order_nil.
  - repeat (constructor 2; [cbn [fst]; eauto |]). constructor 1.
  - cbn [length]. lia.
Defined.
(** ** Symbols and strings *)

Lemma c_str_no_NUL (l rest : list ascii) :
  NUL ∉ l -> c_str (l ++ NUL :: rest) = l.
Proof.
  induction l as [| c l IH]; intros Hl; cbn [app c_str].
  - reflexivity.
  - apply not_elem_of_cons in Hl as [Hc Hl].
    destruct (char_eqb c NUL) eqn:E.
    + apply Ascii.eqb_eq in E. congruence.
    + rewrite IH by exact Hl. reflexivity.
Qed.

Lemma c_str_id (l : list ascii) : NUL ∉ l -> c_str l = l.
Proof.
  intros Hl. rewrite <- (c_str_no_NUL l [] Hl) at 2.
  induction l as [| c l IH]; cbn [app c_str]; [reflexivity |].
  apply not_elem_of_cons in Hl as [Hc Hl].
  destruct (char_eqb c NUL); [reflexivity |].
  rewrite IH at 1 by exact Hl. rewrite (c_str_no_NUL l [] Hl).
  rewrite (c_str_no_NUL l [] Hl) in IH. reflexivity.
Qed.

Lemma c_str_replicate c n :
  c_str (replicate n c ++ [NUL]) = if char_eqb c NUL then [] else replicate n c.
Proof.
  destruct (char_eqb c NUL) eqn:E.
  - destruct n; cbn [replicate app c_str]; [reflexivity |]. rewrite E. reflexivity.
  - induction n as [| n IH]; cbn [replicate app c_str]; [reflexivity |].
    rewrite E, IH. reflexivity.
Qed.

Section Strings.

Variable ev : eaddr -> ptr -> M ptr.
Variable env : eaddr.

(** X23: [symbol->string] returns a new string with the characters of the
    name, and [string->symbol] on a string with these characters returns
    a new symbol of the same name: the two are inverse on names without a
    NUL, and none of them changes a cell that was there. *)
Theorem symbol_to_string_and_back m params cells s name :
  arguments ev env m (Some params) cells [Some s] ->
  points_to m s (Symbol name) -> NUL ∉ list_ascii_of_string name ->
  atom_symbol_to_string ev env (Some params) m
  = (Ok (Some (fresh (dom (heap m)))), alloc (String_ (buffer_of name)) m)
  /\ forall m' params' cells' str rest,
       arguments ev env m' (Some params') cells' [Some str] ->
       points_to m' str (String_ (buffer_of name ++ rest)) ->
       atom_string_to_symbol ev env (Some params') m'
       = (Ok (Some (fresh (dom (heap m')))), alloc (Symbol name) m').
Proof.
  intros Hargs Hs Hnul. split.
  - unfold atom_symbol_to_string.
    rewrite (bind_ok _ _ _ _ _
               (nth_param_nth ev env _ _ _ _ 0 s _ Hargs eq_refl Hs)).
    rewrite (bind_ok _ _ _ _ _ (deref_points_to _ _ _ Hs)).
    rewrite (c_str_id _ Hnul). reflexivity.
  - intros m' params' cells' str rest Hargs' Hstr.
    unfold atom_string_to_symbol.
    rewrite (bind_ok _ _ _ _ _
               (nth_param_nth ev env _ _ _ _ 0 str _ Hargs' eq_refl Hstr)).
    rewrite (bind_ok _ _ _ _ _ (deref_points_to _ _ _ Hstr)).
    unfold buffer_of. rewrite <- app_assoc. cbn [app].
    rewrite (c_str_no_NUL _ _ Hnul), string_of_list_ascii_of_string.
    reflexivity.
Qed.

(** The value of [(int)x] is an [int]. *)
Lemma integer_cell_int m a k : integer_cell m a k -> k <= INT_MAX.
Proof.
  intros (x & _ & _ & Hk). unfold Double.to_int in Hk.
  destruct x as [s | s | | s mant e]; try discriminate.
  - injection Hk as <-. unfold INT_MAX. lia.
  - cbv zeta in Hk.
    destruct (_ && _) eqn:E; [| discriminate]. injection Hk as <-.
    apply andb_prop in E as [_ E]. apply Z.ltb_lt in E. unfold INT_MAX. lia.
Qed.

(** X24: [make-string] with a length [k] that is not negative and less than
    [INT_MAX] returns a new string of [k] copies of the fill and the
    terminator, so without a fill, or with the fill NUL, [strlen] and with
    it [string-length] give 0 whatever [k] is; with a negative [k] it
    signals an error, and with [k = INT_MAX] the size [k + 1] of the buffer
    overflows, which is undefined. *)
Theorem make_string_contents m params cells kc more k c :
  arguments ev env m (Some params) cells (Some kc :: more) ->
  integer_cell m kc k -> fill_of m more c ->
  atom_make_string ev env (Some params) m
  = (if k <? 0 then signal_error "positive integer length required" m
     else if k =? INT_MAX then (Crash, m)
     else (Ok (Some (fresh (dom (heap m)))),
           alloc (String_ (replicate (Z.to_nat k) c ++ [NUL])) m))
  /\ strlen (replicate (Z.to_nat k) c ++ [NUL])
     = if char_eqb c NUL then 0 else Z.max 0 k.
Proof.
  intros Hargs Hk Hfill. split.
  - assert (Hover : (INT_MAX <? k + 1) = (k =? INT_MAX)).
    { pose proof (integer_cell_int _ _ _ Hk) as Hle.
      destruct (Z.ltb_spec INT_MAX (k + 1)), (Z.eqb_spec k INT_MAX);
        try reflexivity; lia. }
    unfold atom_make_string.
    rewrite (bind_ok _ _ _ _ _
               (nth_param_integer_nth ev env _ _ _ _ 0 kc k Hargs eq_refl Hk)).
    destruct cells as [| [a0 x0] cells];
      [pose proof (arguments_length _ _ _ _ _ _ Hargs); discriminate |].
    destruct (arguments_cons _ _ _ _ _ _ _ _ _ Hargs)
      as ([= <-] & _ & next & Ha0 & Hrest & Hnil).
    unfold optional_second_param.
    rewrite bind_unfold, (bind_ok _ _ _ _ _ (cdr_points_to _ _ _ _ Ha0)).
    destruct Hfill as [[-> ->] | (a & -> & Ha)].
    + pose proof (arguments_length _ _ _ _ _ _ Hrest) as Hlen.
      destruct cells; [| discriminate]. rewrite (proj2 Hnil eq_refl).
      rewrite ret_unfold. cbv iota beta. rewrite bind_unfold, ret_unfold.
      cbv iota beta. rewrite Hover.
      destruct (k <? 0); [reflexivity |]. destruct (k =? INT_MAX); reflexivity.
    + destruct cells as [| [a1 x1] cells];
        [pose proof (arguments_length _ _ _ _ _ _ Hrest); discriminate |].
      destruct (arguments_cons _ _ _ _ _ _ _ _ _ Hrest)
        as (-> & Hx1 & next' & Ha1 & _ & _).
      rewrite (bind_ok _ _ _ _ _ (car_points_to _ _ _ _ Ha1)), Hx1.
      cbv iota beta. rewrite bind_unfold.
      rewrite (bind_ok _ _ _ _ _ (deref_points_to _ _ _ Ha)).
      rewrite bind_unfold. unfold type_check. cbn [type_of].
      rewrite decide_True by reflexivity. rewrite !ret_unfold. cbv iota beta.
      rewrite Hover.
      destruct (k <? 0); [reflexivity |]. destruct (k =? INT_MAX); reflexivity.
  - unfold strlen. rewrite c_str_replicate.
    destruct (char_eqb c NUL); [reflexivity |].
    rewrite length_replicate. lia.
Qed.
End Strings.

Lemma symbol_to_string_and_back_witness :
  atom_symbol_to_string (eval 30) root (Some 48%positive) m_symbol
  = (Ok (Some (fresh (dom (heap m_symbol)))),
     alloc (String_ (buffer_of "abc")) m_symbol)
  /\ atom_string_to_symbol (eval 30) root (Some 53%positive) m_string
     = (Ok (Some (fresh (dom (heap m_string)))), alloc (Symbol "abc") m_string).
Proof.
  destruct (symbol_to_string_and_back (eval 30) root m_symbol 48%positive
              [(48%positive, Some 47%positive)] 45%positive "abc")
    as [Hto Hback].
  - concrete_arguments.
  - vm_compute. reflexivity.
  - intros H. repeat (apply elem_of_cons in H as [H | H]; [discriminate |]).
    apply elem_of_nil in H. exact H.
  - split; [exact Hto |].
    apply (Hback m_string 53%positive [(53%positive, Some 52%positive)]
             49%positive []).
    + concrete_arguments.
    + vm_compute. reflexivity.
Defined.

Lemma make_string_contents_witness :
  (atom_make_string (eval 30) root (Some 45%positive) m_make_string
   = (Ok (Some (fresh (dom (heap m_make_string)))),
      alloc (String_ [NUL; NUL; NUL; NUL]) m_make_string)
   /\ strlen [NUL; NUL; NUL; NUL] = 0)
  /\ atom_make_string (eval 30) root (Some 45%positive) m_make_string_max
     = (Crash, m_make_string_max).
Proof.
  split.
  - apply (make_string_contents (eval 30) root m_make_string 45%positive
             [(45%positive, Some 44%positive)] 44%positive [] 3 NUL).
    + concrete_arguments.
    + concrete_integer.
    + left. split; reflexivity.
  - refine (proj1 (make_string_contents (eval 30) root m_make_string_max
                     45%positive [(45%positive, Some 44%positive)] 44%positive
                     [] 2147483647 NUL _ _ _)).
    + concrete_arguments.
    + concrete_integer.
    + left. split; reflexivity.
Defined.
(** ** Type errors *)

Section TypeErrors.

Variable ev : eaddr -> ptr -> M ptr.
Variable env : eaddr.

(** X25: a parameter of the wrong type is reported with the names of the two
    types, but the table of the names has no entry for the two port
    types: where a port is expected, or given, the type error reads
    beyond the table and is no error of the language. *)
Theorem type_error_on_a_port m params cells values n v d type :
  arguments ev env m params cells values ->
  values !! n = Some (Some v) -> points_to m v d -> type_of d <> type ->
  let ports := [TYPE_INPUT_PORT; TYPE_OUTPUT_PORT] in
  (type ∈ ports \/ type_of d ∈ ports ->
   nth_param ev env params (S n) type m = (Crash, m))
  /\ (type ∉ ports -> type_of d ∉ ports ->
      exists expected actual,
        typenames !! type_index type = Some expected
        /\ typenames !! type_index (type_of d) = Some actual
        /\ nth_param ev env params (S n) type m
           = signal_error (expected ++ " expected, got " ++ actual) m).
Proof.
  intros Hargs Hv Hd Htype ports.
  assert (Heq : nth_param ev env params (S n) type m
                = match typenames !! type_index type,
                        typenames !! type_index (type_of d) with
                  | Some expected, Some actual =>
                      signal_error (expected ++ " expected, got " ++ actual) m
                  | _, _ => (Crash, m)
                  end).
  { unfold nth_param.
    rewrite (bind_ok _ _ _ _ _ (nth_param_any_nth ev env _ _ _ _ _ _ Hargs Hv)).
    rewrite (bind_ok _ _ _ _ _ (deref_points_to _ _ _ Hd)).
    rewrite bind_unfold. unfold type_check.
    rewrite decide_False by exact Htype.
    destruct (typenames !! type_index type) as [e |]; [| reflexivity].
    destruct (typenames !! type_index (type_of d)) as [a |]; [| reflexivity].
    unfold signal_error. destruct (cont_escape (cont m)); reflexivity. }
  rewrite Heq. clear Heq. unfold ports. split.
  - intros [H | H]; repeat rewrite elem_of_cons in H; rewrite elem_of_nil in H;
      destruct H as [-> | [-> | []]]; cbn [type_index];
      try reflexivity; destruct (typenames !! _); reflexivity.
  - intros H1 H2.
    destruct type; try (exfalso; apply H1; repeat constructor; fail);
      destruct (type_of d); try (exfalso; apply H2; repeat constructor; fail);
      eexists _, _; (split; [reflexivity |]); (split; [reflexivity |]);
      reflexivity.
Qed.

End TypeErrors.

(** ** Equivalence *)

Lemma has_type_same d : has_type d (type_of d) = true.
Proof. unfold has_type. apply bool_decide_eq_true. reflexivity. Qed.

(** X26: the comparison behind [eq?], [eqv?] and [equal?]: two cells of
    different types are not equivalent; a cell is equivalent to itself,
    except a number that is not equal to itself (a NaN), and except a
    procedure or a port, on which the comparison stops on [assert(0)]. *)
Theorem eq_helper_on_one_cell n m a b d d' recurse_strings recurse_compound :
  points_to m a d -> points_to m b d' ->
  (type_of d <> type_of d' ->
   eq_helper (S n) (Some a) (Some b) recurse_strings recurse_compound m
   = (Ok false, m))
  /\ (a = b ->
      eq_helper (S (S n)) (Some a) (Some b) recurse_strings recurse_compound m
      = match d with
        | Number x => (Ok (Double.eqb x x), m)
        | Procedure _ _ _ _ | InputPort _ | OutputPort _ => (Crash, m)
        | _ => (Ok true, m)
        end).
Proof.
  intros Ha Hb. split.
  - intros Hne. cbn [eq_helper].
    rewrite (bind_ok _ _ _ _ _ (deref_points_to _ _ _ Ha)).
    rewrite (bind_ok _ _ _ _ _ (deref_points_to _ _ _ Hb)).
    unfold has_type. rewrite bool_decide_eq_false_2 by congruence.
    reflexivity.
  - intros <-. assert (d' = d) as ->.
    { unfold points_to in *. rewrite Ha in Hb. congruence. }
    cbn [eq_helper].
    rewrite (bind_ok _ _ _ _ _ (deref_points_to _ _ _ Ha)).
    rewrite (bind_ok _ _ _ _ _ (deref_points_to _ _ _ Ha)).
    rewrite has_type_same. cbn [negb].
    destruct d; try reflexivity.
    + rewrite ret_unfold, Bool.eqb_reflx. reflexivity.
    + rewrite ret_unfold. unfold char_eqb. rewrite Ascii.eqb_refl. reflexivity.
    + rewrite ret_unfold, bool_decide_eq_true_2 by reflexivity. reflexivity.
    + cbn [pair_equal]. rewrite bool_decide_eq_true_2 by reflexivity.
      reflexivity.
    + rewrite bool_decide_eq_true_2 by reflexivity. reflexivity.
    + rewrite ret_unfold, String.eqb_refl. reflexivity.
Qed.

(** ** Binding constructs *)

Section Let.

Variable ev : eaddr -> ptr -> M ptr.
Variable env : eaddr.

(** X27: [let] and [let*] without a body signal ["No expression in body"];
    with a body and the empty list of bindings, which is a pair of two
    null pointers, they take the car of a null pointer. *)
Theorem let_with_no_bindings fuel m params bindings body star :
  points_to m params (Pair bindings body) ->
  match body with
  | None =>
      let_helper ev fuel env (Some params) star m
      = signal_error "No expression in body" m
  | Some _ =>
      forall b, bindings = Some b -> points_to m b (Pair None None) ->
                (0 < fuel)%nat ->
                fst (let_helper ev fuel env (Some params) star m) = Crash
  end.
Proof.
  intros Hp. unfold let_helper.
  rewrite (bind_ok _ _ _ _ _ (car_points_to _ _ _ _ Hp)).
  rewrite (bind_ok _ _ _ _ _ (cdr_points_to _ _ _ _ Hp)).
  destruct body as [body |]; [| reflexivity].
  intros b -> Hb Hfuel.
  rewrite bind_unfold. unfold create_environment at 1. cbv iota beta zeta.
  set (m1 := set_envs _ m).
  assert (Hb1 : points_to m1 b (Pair None None)) by exact Hb.
  destruct fuel as [| fuel]; [lia |]. rewrite bind_unfold.
  cbn [let_bindings].
  rewrite (bind_ok _ _ _ _ _ (car_points_to _ _ _ _ Hb1)).
  reflexivity.
Qed.

End Let.

(** ** Applications *)

(** X28: in an application the operator is not evaluated: it has to be a
    symbol, so an application of a [lambda] expression, or of any other
    list, signals a type error. *)
Theorem application_of_an_expression n env m cell op params x y :
  points_to m cell (Pair (Some op) params) -> points_to m op (Pair x y) ->
  eval (S n) env (Some cell) m = signal_error "symbol expected, got pair" m.
Proof.
  intros Hc Hop. cbn [eval].
  rewrite (bind_ok _ _ _ _ _ (deref_points_to _ _ _ Hc)).
  rewrite (bind_ok _ _ _ _ _ (deref_points_to _ _ _ Hop)).
  rewrite bind_unfold. unfold type_check. cbn [type_of].
  rewrite decide_False by discriminate.
  change (typenames !! type_index TYPE_SYMBOL) with (Some "symbol"%string).
  change (typenames !! type_index TYPE_PAIR) with (Some "pair"%string).
  cbv iota beta.
  change ("symbol" ++ " expected, got " ++ "pair")%string
    with "symbol expected, got pair"%string.
  unfold signal_error. destruct (cont_escape (cont m)); reflexivity.
Qed.

(** ** [cond] and calls of closures *)

Section Cond.

Variable ev : eaddr -> ptr -> M ptr.
Variable env : eaddr.

Lemma cond_loop_refused m : forall skipped fuel clauses q,
  lseg m clauses skipped q -> Forall (refused ev env m) skipped ->
  cond_loop ev (length skipped + fuel) env clauses m = cond_loop ev fuel env q m.
Proof.
  induction skipped as [| [a x] skipped IH]; intros fuel clauses q Hl Hr.
  - cbn [lseg] in Hl. subst q. reflexivity.
  - destruct Hl as (-> & next & Ha & Hrest).
    apply Forall_cons in Hr as [(test & t & exprs & d & r & Hx & Htest & Ht
                                 & Helse & Hev & Hfalse) Hr].
    cbn [snd] in Hx. subst x. cbn [length Nat.add cond_loop].
    rewrite (bind_ok _ _ _ _ _ (car_points_to _ _ _ _ Ha)).
    rewrite (bind_ok _ _ _ _ _ (car_points_to _ _ _ _ Htest)).
    rewrite (bind_ok _ _ _ _ _ (deref_points_to _ _ _ Ht)).
    assert (Hskip : (match d with
                     | Symbol "else" => mret false
                     | _ => result ← ev env (Some t); is_false result
                     end) m = (Ok true, m)).
    { assert (Hgen : (result ← ev env (Some t); is_false result) m = (Ok true, m)).
      { rewrite (bind_ok _ _ _ _ _ Hev). unfold is_false.
        rewrite (bind_ok _ _ _ _ _ (deref_points_to _ _ _ Hfalse)).
        reflexivity. }
      destruct d as [| | | | | | s | | |]; try exact Hgen.
      destruct (decide (s = "else"%string)) as [-> | Hs]; [congruence |].
      repeat (destruct s as [| [[] [] [] [] [] [] [] []] s]; try exact Hgen);
        congruence. }
    rewrite (bind_ok _ _ _ _ _ Hskip).
    rewrite (bind_ok _ _ _ _ _ (cdr_points_to _ _ _ _ Ha)).
    apply IH; assumption.
Qed.

Lemma cond_body_last m exprs results m' :
  in_order ev env the_value m exprs results m' ->
  forall fuel last_result, (length results < fuel)%nat ->
  cond_body ev fuel env exprs last_result m
  = (Ok (match last results with Some r => snd r | None => last_result end),
     m').
Proof.
  induction 1 as [m | m a x next v m1 b next1 rest m2 Ha Hx Hb Hnext _ IH];
    intros fuel last_result Hfuel;
    (destruct fuel as [| fuel]; [cbn [length] in Hfuel; lia |]);
    cbn [cond_body].
  - reflexivity.
  - unfold the_value in Hb. subst b.
    rewrite (bind_ok _ _ _ _ _ (car_points_to _ _ _ _ Ha)).
    rewrite (bind_ok _ _ _ _ _ Hx).
    rewrite (bind_ok _ _ _ _ _ Hnext).
    rewrite (IH fuel v) by (cbn [length] in Hfuel; lia).
    destruct rest as [| r rest]; [reflexivity |].
    change (last ((x, v) :: r :: rest)) with (last (r :: rest)).
    destruct (last (r :: rest)) eqn:E; [reflexivity |].
    apply last_None in E. discriminate.
Qed.

(** X29: [cond] passes over the clauses whose test evaluates to [#f] and takes
    the first clause whose test evaluates to something else, or is the
    symbol [else]: the expressions of that clause are evaluated in order,
    and the value is the one of the last of them, and the null pointer,
    not the value of the test, for a clause without expressions.  Where
    every test evaluates to [#f] the value is [#f]. *)
Theorem cond_takes_the_first_clause fuel m clauses skipped q :
  lseg m clauses skipped q -> Forall (refused ev env m) skipped ->
  match q with
  | None =>
      atom_cond ev (length skipped + S fuel) env clauses m
      = (Ok (bool_cell false), m)
  | Some c =>
      forall exprs results m',
        selected ev env m c exprs ->
        in_order ev env the_value m exprs results m' ->
        (length results <= fuel)%nat ->
        atom_cond ev (length skipped + S (S fuel)) env clauses m
        = (Ok (last_value results), m')
  end.
Proof.
  intros Hl Hr. unfold atom_cond.
  destruct q as [c |].
  - intros exprs results m' (test & t & next & d & Hc & Htest & Ht & Hsel)
      Hexprs Hfuel.
    rewrite (cond_loop_refused m skipped _ clauses (Some c) Hl Hr).
    cbn [cond_loop].
    rewrite (bind_ok _ _ _ _ _ (car_points_to _ _ _ _ Hc)).
    rewrite (bind_ok _ _ _ _ _ (car_points_to _ _ _ _ Htest)).
    rewrite (bind_ok _ _ _ _ _ (deref_points_to _ _ _ Ht)).
    assert (Htake : (match d with
                     | Symbol "else" => mret false
                     | _ => result ← ev env (Some t); is_false result
                     end) m = (Ok false, m)).
    { destruct Hsel as [-> | (r & dr & Hev & Hdr & Hne)]; [reflexivity |].
      assert (Hgen : (result ← ev env (Some t); is_false result) m
                     = (Ok false, m)).
      { rewrite (bind_ok _ _ _ _ _ Hev). unfold is_false.
        rewrite (bind_ok _ _ _ _ _ (deref_points_to _ _ _ Hdr)).
        rewrite ret_unfold. destruct dr as [[] | | | | | | | | |];
          try reflexivity. congruence. }
      destruct d as [| | | | | | s | | |]; try exact Hgen.
      destruct (decide (s = "else"%string)) as [-> | Hs]; [reflexivity |].
      repeat (destruct s as [| [[] [] [] [] [] [] [] []] s]; try exact Hgen);
        congruence. }
    rewrite (bind_ok _ _ _ _ _ Htake).
    rewrite (bind_ok _ _ _ _ _ (cdr_points_to _ _ _ _ Htest)).
    apply (cond_body_last m exprs results m' Hexprs). lia.
  - rewrite (cond_loop_refused m skipped _ clauses None Hl Hr). reflexivity.
Qed.
End Cond.

(** X30: a call of a closure that has a named parameter, without any
    argument, takes the car of the null pointer in place of the argument:
    it is no error of the language. *)
Theorem closure_call_without_arguments n env m cell sym name f formals body
        penv x pname rest :
  points_to m cell (Pair (Some sym) None) -> points_to m sym (Symbol name) ->
  environment_get (S n) env (Some sym) m = (Ok (Some f), m) ->
  points_to m f (Procedure None (Some formals) body (Some penv)) ->
  is_Some (envs m !! penv) ->
  points_to m formals (Pair (Some x) rest) -> points_to m x (Symbol pname) ->
  fst (eval (S (S n)) env (Some cell) m) = Crash.
Proof.
  intros Hc Hsym Hget Hf [frame Hframe] Hformals Hx.
  cbn [eval].
  rewrite (bind_ok _ _ _ _ _ (deref_points_to _ _ _ Hc)).
  rewrite (bind_ok _ _ _ _ _ (deref_points_to _ _ _ Hsym)).
  rewrite bind_unfold. unfold type_check at 1. cbn [type_of].
  rewrite decide_True by reflexivity. rewrite ret_unfold. cbv iota beta.
  rewrite (bind_ok _ _ _ _ _ Hget).
  rewrite (bind_ok _ _ _ _ _ (deref_points_to _ _ _ Hf)).
  rewrite bind_unfold. unfold env_cont at 1. rewrite bind_unfold.
  unfold deref_env at 1. rewrite Hframe. rewrite ret_unfold. cbv iota beta.
  rewrite bind_unfold. unfold create_environment at 1. cbv iota beta zeta.
  set (m1 := set_envs _ m).
  assert (Hformals1 : points_to m1 formals (Pair (Some x) rest)) by exact Hformals.
  assert (Hx1 : points_to m1 x (Symbol pname)) by exact Hx.
  rewrite bind_unfold. cbn [bind_formals].
  rewrite (bind_ok _ _ _ _ _ (car_points_to _ _ _ _ Hformals1)).
  rewrite (bind_ok _ _ _ _ _ (deref_points_to _ _ _ Hx1)).
  reflexivity.
Qed.

Lemma type_error_on_a_port_witness :
  nth_param (eval 30) root (Some 45%positive) 1 TYPE_INPUT_PORT m_port
  = (Crash, m_port).
Proof.
  refine (proj1 (type_error_on_a_port (eval 30) root m_port (Some 45%positive)
                   [(45%positive, Some 44%positive)] [Some 44%positive] 0
                   44%positive (Number (Double.of_Z 5)) TYPE_INPUT_PORT
                   _ _ _ _) _).
  - concrete_arguments.
  - reflexivity.
  - vm_compute. reflexivity.
  - discriminate.
  - left. constructor.
Defined.

Lemma eq_helper_on_one_cell_witness :
  eq_helper 2 (Some 44%positive) (Some 42%positive) false false m_sum
  = (Ok false, m_sum)
  /\ eq_helper 2 (Some 44%positive) (Some 44%positive) false false m_sum
     = (Ok true, m_sum)
  /\ eq_helper 2 (Some 3%positive) (Some 3%positive) false false m_sum
     = (Crash, m_sum).
Proof.
  split; [| split].
  - apply (eq_helper_on_one_cell 1 m_sum 44%positive 42%positive
             (Number (Double.of_Z 1)) (Symbol "+") false false);
      [vm_compute; reflexivity | vm_compute; reflexivity | discriminate].
  - apply (eq_helper_on_one_cell 0 m_sum 44%positive 44%positive
             (Number (Double.of_Z 1)) (Number (Double.of_Z 1)) false false);
      [vm_compute; reflexivity | vm_compute; reflexivity | reflexivity].
  - apply (eq_helper_on_one_cell 0 m_sum 3%positive 3%positive
             (Procedure (Some fn_quote) None None None)
             (Procedure (Some fn_quote) None None None) false false);
      [vm_compute; reflexivity | vm_compute; reflexivity | reflexivity].
Defined.

Lemma let_with_no_bindings_witness :
  fst (let_helper (eval 30) 30 root (Some 45%positive) false m_let) = Crash.
Proof.
  refine (let_with_no_bindings (eval 30) root 30 m_let 45%positive
            (Some 44%positive) (Some 47%positive) false _
            44%positive eq_refl _ _).
  - vm_compute. reflexivity.
  - vm_compute. reflexivity.
  - lia.
Defined.

Lemma application_of_an_expression_witness :
  eval 30 root (Some 49%positive) m_applied
  = signal_error "symbol expected, got pair" m_applied.
Proof.
  apply (application_of_an_expression 29 root m_applied 49%positive 43%positive
           (Some 51%positive) (Some 42%positive) (Some 46%positive)).
  - vm_compute. reflexivity.
  - vm_compute. reflexivity.
Defined.

Lemma cond_takes_the_first_clause_witness :
  let m1 := snd (eval 30 root (Some 52%positive) m_cond) in
  points_to m1 61%positive (Number (Double.of_Z 2))
  /\ points_to m1 58%positive (Number (Double.of_Z 3))
  /\ atom_cond (eval 30) 5 root (Some 48%positive) m_cond
     = (Ok (Some 58%positive), m1).
Proof.
  intros m1.
  split; [vm_compute; reflexivity |]. split; [vm_compute; reflexivity |].
  refine (cond_takes_the_first_clause (eval 30) root 2 m_cond (Some 48%positive)
            [(48%positive, Some 45%positive)] (Some 60%positive) _ _
            (Some 57%positive)
            [(Some 52%positive, Some 61%positive);
             (Some 58%positive, Some 58%positive)] m1 _ _ _).
  - cbn [lseg]. split; [reflexivity |]. eexists. split; [| reflexivity].
    vm_compute. reflexivity.
  - constructor 2; [| constructor 1].
    exists 45%positive, 44%positive, (Some 47%positive), (Boolean false),
      44%positive.
    split; [reflexivity |]. split; [vm_compute; reflexivity |].
    split; [vm_compute; reflexivity |]. split; [discriminate |].
    split; vm_compute; reflexivity.
  - exists 50%positive, 49%positive, None, (Symbol "else").
    split; [vm_compute; reflexivity |]. split; [vm_compute; reflexivity |].
    split; [vm_compute; reflexivity |]. left. reflexivity.
  - apply (in_order_cons _ _ _ m_cond 57%positive (Some 52%positive)
             (Some 59%positive) (Some 61%positive) m1 (Some 61%positive)
             (Some 59%positive) [(Some 58%positive, Some 58%positive)] m1).
    + vm_compute. reflexivity.
    + vm_compute. reflexivity.
    + reflexivity.
    + vm_compute. reflexivity.
    + apply (in_order_cons _ _ _ m1 59%positive (Some 58%positive) None
               (Some 58%positive) m1 (Some 58%positive) None [] m1).
      * vm_compute. reflexivity.
      * vm_compute. reflexivity.
      * reflexivity.
      * vm_compute. reflexivity.
      * apply in_order_nil.
  - cbn [length]. lia.
Defined.
Lemma closure_call_without_arguments_witness :
  fst (eval 30 root (Some 56%positive) m_call) = Crash.
Proof.
  apply (closure_call_without_arguments 28 root m_call 56%positive 55%positive
           "f" 54%positive 49%positive (Some 52%positive) 1%positive
           48%positive "x" None).
  - vm_compute. reflexivity.
  - vm_compute. reflexivity.
  - vm_compute. reflexivity.
  - vm_compute. reflexivity.
  - vm_compute. eauto.
  - vm_compute. reflexivity.
  - vm_compute. reflexivity.
Defined.
